(** * The QUIC listener (server.go) and the client session cache
      (internal/handshake/client_session_cache.go), embedded in Rocq.

    The development follows the Go source function by function; the line
    numbers in the comments are those of the two source files.  Go values
    are modelled as follows:
    - [[]byte] is [list byte]; a connection ID is a byte string;
    - Go integers are [Z]; the [int32] accept-queue counter wraps around
      explicitly ([wrap32]);
    - a Go [error] is a value of [error]; a function returning [(T, error)]
      returns a [result T];
    - pointers to [Config] are locations of a heap ([gmap loc Config]);
    - the packages that server.go imports but that are not among the
      verified sources ([protocol], [wire], [handshake], the packet handler map) are
      interfaces, written as type classes named after the package;
    - goroutines started with [go] are recorded as scheduled tasks; the
      order of calls on collaborators is recorded in a trace of events. *)

From Stdlib Require Import ZArith Lia Bool.
From Stdlib Require Import Strings.Byte.
From stdpp Require Import gmap strings list vector.

(** ** Bytes *)

#[global] Instance byte_eq_dec : EqDecision byte := Byte.byte_eq_dec.

#[global] Instance byte_countable : Countable byte :=
  inj_countable Byte.to_N Byte.of_N Byte.of_to_N.

(** [byte(z)]: conversion of an integer to a byte keeps the low 8 bits. *)
Definition byte_of_Z (z : Z) : byte :=
  match Byte.of_N (Z.to_N (z mod 256)) with
  | Some b => b
  | None => x00
  end.

Definition Z_of_byte (b : byte) : Z := Z.of_N (Byte.to_N b).

(** ** Errors and results *)

Abbreviation VersionNumber := Z (only parsing).

Inductive error : Type :=
  | errors_New (msg : string)
  | ErrInvalidVersion (v : VersionNumber)  (* fmt.Errorf("%s is not a valid QUIC version", v) *)
  | ErrExternal (code : nat).              (* an error produced by a collaborator *)

Inductive result (A : Type) : Type :=
  | Ok (a : A)
  | Err (e : error).
Arguments Ok {A} a.
Arguments Err {A} e.

(** ** package protocol: types and the constants the spec fixes *)

Module protocol.

Abbreviation ConnectionID := (list byte) (only parsing).

(** Modelled from the spec: the types [protocol.Perspective],
    [protocol.PacketType] and [protocol.PacketNumberLen] are not among the verified
    sources; the spec names the four long-header packet types and the
    packet number length. *)
Inductive Perspective := PerspectiveServer | PerspectiveClient.

Inductive PacketType :=
  | PacketTypeInitial
  | PacketTypeRetry
  | PacketTypeHandshake
  | PacketType0RTT.

#[global] Instance PacketType_eq_dec : EqDecision PacketType.
Proof. solve_decision. Defined.

Inductive PacketNumberLen :=
  | PacketNumberLenInvalid
  | PacketNumberLen1
  | PacketNumberLen2
  | PacketNumberLen3
  | PacketNumberLen4.

(** The numeric value of a [PacketNumberLen] (its underlying [uint8]). *)
Definition PacketNumberLen_int (l : PacketNumberLen) : Z :=
  match l with
  | PacketNumberLenInvalid => 0
  | PacketNumberLen1 => 1
  | PacketNumberLen2 => 2
  | PacketNumberLen3 => 3
  | PacketNumberLen4 => 4
  end.

(** Modelled from the spec: the constant [protocol.MinInitialPacketSize]
    is not among the verified sources; the spec gives 1200 bytes. *)
Definition MinInitialPacketSize : Z := 1200.

(** Modelled from the spec: the constant [protocol.MaxAcceptQueueSize]
    is not among the verified sources; the spec gives 32. *)
Definition MaxAcceptQueueSize : Z := 32.

(** Modelled from the spec: the constant [protocol.MinConnectionIDLenInitial]
    is not among the verified sources; the spec gives 8. *)
Definition MinConnectionIDLenInitial : Z := 8.

(** Modelled from the spec: the constant [protocol.DefaultConnectionIDLength]
    is not among the verified sources; the spec's option table gives 4. *)
Definition DefaultConnectionIDLength : Z := 4.

(** Modelled from the spec: [protocol.DefaultHandshakeTimeout] is not among
    the verified sources; the spec gives 10 s (a [time.Duration], nanoseconds). *)
Definition DefaultHandshakeTimeout : Z := 10 * 1000000000.

(** Modelled from the spec: [protocol.DefaultIdleTimeout] is not among the
    verified sources; the spec gives 30 s. *)
Definition DefaultIdleTimeout : Z := 30 * 1000000000.

(** Modelled from the spec: [protocol.RetryTokenValidity] is not among the
    verified sources; the spec gives 5 s. *)
Definition RetryTokenValidity : Z := 5 * 1000000000.

(** Modelled from the spec: [protocol.TokenValidity] is not among the verified
    sources; the spec gives 24 h. *)
Definition TokenValidity : Z := 24 * 3600 * 1000000000.

(** Modelled from the spec: [protocol.IsSupportedVersion] is not among the
    verified sources; the spec says a version is supported when it is in the
    configured supported set. *)
Definition IsSupportedVersion (supported : list VersionNumber) (v : VersionNumber) : bool :=
  bool_decide (v ∈ supported).

(** The source of randomness ([crypto/rand]): the bytes it will deliver. *)
Abbreviation Rand := (list byte) (only parsing).

(** Modelled from the spec: [protocol.GenerateConnectionID] is not among the
    verified sources; the spec says it generates a fresh connection ID of the
    given length.  It reads that many bytes from the random source and
    fails when the source cannot deliver them.  (Go's [make] panics on a
    negative length; that case is reported as an error here.) *)
Definition GenerateConnectionID (len : Z) (r : Rand) : result ConnectionID * Rand :=
  if (len <? 0)%Z then (Err (errors_New "negative connection ID length"), r)
  else if (Z.of_nat (length r) <? len)%Z then (Err (errors_New "crypto/rand: read failed"), r)
  else (Ok (take (Z.to_nat len) r), drop (Z.to_nat len) r).

End protocol.
Export protocol.

(** The part of package [protocol] of which the spec only says that it has
    implementation defaults. *)
Class protocol_pkg := {
  SupportedVersions : list VersionNumber;
  IsValidVersion : VersionNumber → bool;
  DefaultMaxReceiveStreamFlowControlWindow : Z;
  DefaultMaxReceiveConnectionFlowControlWindow : Z;
  DefaultMaxIncomingStreams : Z;
  DefaultMaxIncomingUniStreams : Z;
}.

(** ** Addresses, tokens and the configuration *)

(** [net.Addr].  A [*net.UDPAddr] keeps the text of its IP ([IP.String()])
    and its port; every other address only has its [String()]. *)
Inductive Addr :=
  | UDPAddr (IP : string) (Port : Z)
  | OtherAddr (text : string).

#[global] Instance Addr_eq_dec : EqDecision Addr.
Proof. solve_decision. Defined.

Record Token := {
  IsRetryToken : bool;
  RemoteAddr : string;
  SentTime : Z;   (* an instant, in nanoseconds *)
}.

(** The type of [Config.AcceptToken].  The Go function may read the clock;
    the reading of [time.Now()] is its first argument here. *)
Definition AcceptTokenFn : Type := Z → Addr → option Token → bool.

Record Config := {
  Versions : list VersionNumber;
  HandshakeTimeout : Z;
  MaxIdleTimeout : Z;
  AcceptToken : option AcceptTokenFn;   (* [None] is the nil function *)
  KeepAlive : bool;
  MaxReceiveStreamFlowControlWindow : Z;
  MaxReceiveConnectionFlowControlWindow : Z;
  MaxIncomingStreams : Z;
  MaxIncomingUniStreams : Z;
  ConnectionIDLength : Z;
  StatelessResetKey : list byte;
  TokenStore : option nat;              (* an interface value, opaque *)
  QuicTracer : option nat;              (* an interface value, opaque *)
}.

(** [Config{}]: the zero value. *)
Definition Config_zero : Config := {|
  Versions := [];
  HandshakeTimeout := 0;
  MaxIdleTimeout := 0;
  AcceptToken := None;
  KeepAlive := false;
  MaxReceiveStreamFlowControlWindow := 0;
  MaxReceiveConnectionFlowControlWindow := 0;
  MaxIncomingStreams := 0;
  MaxIncomingUniStreams := 0;
  ConnectionIDLength := 0;
  StatelessResetKey := [];
  TokenStore := None;
  QuicTracer := None;
|}.

Definition set_ConnectionIDLength (n : Z) (c : Config) : Config := {|
  Versions := Versions c;
  HandshakeTimeout := HandshakeTimeout c;
  MaxIdleTimeout := MaxIdleTimeout c;
  AcceptToken := AcceptToken c;
  KeepAlive := KeepAlive c;
  MaxReceiveStreamFlowControlWindow := MaxReceiveStreamFlowControlWindow c;
  MaxReceiveConnectionFlowControlWindow := MaxReceiveConnectionFlowControlWindow c;
  MaxIncomingStreams := MaxIncomingStreams c;
  MaxIncomingUniStreams := MaxIncomingUniStreams c;
  ConnectionIDLength := n;
  StatelessResetKey := StatelessResetKey c;
  TokenStore := TokenStore c;
  QuicTracer := QuicTracer c;
|}.

Definition set_AcceptToken (f : option AcceptTokenFn) (c : Config) : Config := {|
  Versions := Versions c;
  HandshakeTimeout := HandshakeTimeout c;
  MaxIdleTimeout := MaxIdleTimeout c;
  AcceptToken := f;
  KeepAlive := KeepAlive c;
  MaxReceiveStreamFlowControlWindow := MaxReceiveStreamFlowControlWindow c;
  MaxReceiveConnectionFlowControlWindow := MaxReceiveConnectionFlowControlWindow c;
  MaxIncomingStreams := MaxIncomingStreams c;
  MaxIncomingUniStreams := MaxIncomingUniStreams c;
  ConnectionIDLength := ConnectionIDLength c;
  StatelessResetKey := StatelessResetKey c;
  TokenStore := TokenStore c;
  QuicTracer := QuicTracer c;
|}.

(** [defaultAcceptToken] (server.go, l. 207-225). *)
Definition defaultAcceptToken : AcceptTokenFn := λ now clientAddr token,
  match token with
  | None => false
  | Some token =>
    let validity := if IsRetryToken token then RetryTokenValidity else TokenValidity in
    if (SentTime token + validity <? now)%Z then false
    else
      let sourceAddr :=
        match clientAddr with
        | UDPAddr ip _ => ip
        | OtherAddr s => s
        end in
      bool_decide (sourceAddr = RemoteAddr token)
  end.

(** ** The heap of [Config] values *)

Abbreviation loc := positive (only parsing).
Abbreviation heap := (gmap positive Config) (only parsing).

(** [&Config{...}]: allocation at a location not in use. *)
Definition alloc (c : Config) (h : heap) : loc * heap :=
  let l := fresh (dom h) in (l, <[l := c]> h).

Section populate.
Context `{!protocol_pkg}.

(** The value that [populateConfig] builds from the value it reads
    (server.go, l. 244-291). *)
Definition populateConfig_value (config : Config) : Config :=
  let versions := if bool_decide (length (Versions config) = 0) then SupportedVersions
                  else Versions config in
  let handshakeTimeout := if bool_decide (HandshakeTimeout config ≠ 0%Z)
                          then HandshakeTimeout config else DefaultHandshakeTimeout in
  let idleTimeout := if bool_decide (MaxIdleTimeout config ≠ 0%Z)
                     then MaxIdleTimeout config else DefaultIdleTimeout in
  let maxReceiveStreamFlowControlWindow :=
    if bool_decide (MaxReceiveStreamFlowControlWindow config = 0%Z)
    then DefaultMaxReceiveStreamFlowControlWindow
    else MaxReceiveStreamFlowControlWindow config in
  let maxReceiveConnectionFlowControlWindow :=
    if bool_decide (MaxReceiveConnectionFlowControlWindow config = 0%Z)
    then DefaultMaxReceiveConnectionFlowControlWindow
    else MaxReceiveConnectionFlowControlWindow config in
  let maxIncomingStreams :=
    if bool_decide (MaxIncomingStreams config = 0%Z) then DefaultMaxIncomingStreams
    else if (MaxIncomingStreams config <? 0)%Z then 0%Z
    else MaxIncomingStreams config in
  let maxIncomingUniStreams :=
    if bool_decide (MaxIncomingUniStreams config = 0%Z) then DefaultMaxIncomingUniStreams
    else if (MaxIncomingUniStreams config <? 0)%Z then 0%Z
    else MaxIncomingUniStreams config in
  {| Versions := versions;
     HandshakeTimeout := handshakeTimeout;
     MaxIdleTimeout := idleTimeout;
     AcceptToken := AcceptToken config;
     KeepAlive := KeepAlive config;
     MaxReceiveStreamFlowControlWindow := maxReceiveStreamFlowControlWindow;
     MaxReceiveConnectionFlowControlWindow := maxReceiveConnectionFlowControlWindow;
     MaxIncomingStreams := maxIncomingStreams;
     MaxIncomingUniStreams := maxIncomingUniStreams;
     ConnectionIDLength := ConnectionIDLength config;
     StatelessResetKey := StatelessResetKey config;
     TokenStore := TokenStore config;
     QuicTracer := QuicTracer config |}.

(** [populateConfig] (server.go, l. 240-292).  A nil argument is replaced
    by a freshly allocated zero [Config]; the result is a freshly allocated
    [Config].  Reading through a pointer that is not in the heap cannot
    happen in Go; it is [None] here. *)
Definition populateConfig (config : option loc) (h : heap) : option (loc * heap) :=
  let '(config, h) :=
    match config with
    | None => alloc Config_zero h
    | Some l => (l, h)
    end in
  c ← h !! config;
  Some (alloc (populateConfig_value c) h).

(** [populateServerConfig] (server.go, l. 229-238): the two assignments go
    through the pointer that [populateConfig] returned. *)
Definition populateServerConfig (config : option loc) (h : heap) : option (loc * heap) :=
  '(config, h) ← populateConfig config h;
  c ← h !! config;
  let h :=
    if bool_decide (ConnectionIDLength c = 0%Z)
    then <[config := set_ConnectionIDLength DefaultConnectionIDLength c]> h
    else h in
  c ← h !! config;
  let h :=
    match AcceptToken c with
    | None => <[config := set_AcceptToken (Some defaultAcceptToken) c]> h
    | Some _ => h
    end in
  Some (config, h).

(** What the spec asks of the defaulted configuration [c'] for the
    configuration [c] that was passed in (the zero configuration for nil). *)
Definition spec_defaulted (c c' : Config) : Prop :=
  (Versions c = [] → Versions c' = SupportedVersions)
  ∧ (Versions c ≠ [] → Versions c' = Versions c)
  ∧ (HandshakeTimeout c = 0%Z → HandshakeTimeout c' = DefaultHandshakeTimeout)
  ∧ (HandshakeTimeout c ≠ 0%Z → HandshakeTimeout c' = HandshakeTimeout c)
  ∧ (MaxIdleTimeout c = 0%Z → MaxIdleTimeout c' = DefaultIdleTimeout)
  ∧ (MaxIdleTimeout c ≠ 0%Z → MaxIdleTimeout c' = MaxIdleTimeout c)
  ∧ (MaxReceiveStreamFlowControlWindow c = 0%Z →
     MaxReceiveStreamFlowControlWindow c' = DefaultMaxReceiveStreamFlowControlWindow)
  ∧ (MaxReceiveStreamFlowControlWindow c ≠ 0%Z →
     MaxReceiveStreamFlowControlWindow c' = MaxReceiveStreamFlowControlWindow c)
  ∧ (MaxReceiveConnectionFlowControlWindow c = 0%Z →
     MaxReceiveConnectionFlowControlWindow c'
     = DefaultMaxReceiveConnectionFlowControlWindow)
  ∧ (MaxReceiveConnectionFlowControlWindow c ≠ 0%Z →
     MaxReceiveConnectionFlowControlWindow c' = MaxReceiveConnectionFlowControlWindow c)
  ∧ (ConnectionIDLength c = 0%Z → ConnectionIDLength c' = DefaultConnectionIDLength)
  ∧ (ConnectionIDLength c ≠ 0%Z → ConnectionIDLength c' = ConnectionIDLength c)
  ∧ (AcceptToken c = None → AcceptToken c' = Some defaultAcceptToken)
  ∧ (∀ f, AcceptToken c = Some f → AcceptToken c' = Some f)
  ∧ ((MaxIncomingStreams c < 0)%Z → MaxIncomingStreams c' = 0%Z)
  ∧ (MaxIncomingStreams c = 0%Z → MaxIncomingStreams c' = DefaultMaxIncomingStreams)
  ∧ ((0 < MaxIncomingStreams c)%Z → MaxIncomingStreams c' = MaxIncomingStreams c)
  ∧ ((MaxIncomingUniStreams c < 0)%Z → MaxIncomingUniStreams c' = 0%Z)
  ∧ (MaxIncomingUniStreams c = 0%Z → MaxIncomingUniStreams c' = DefaultMaxIncomingUniStreams)
  ∧ ((0 < MaxIncomingUniStreams c)%Z → MaxIncomingUniStreams c' = MaxIncomingUniStreams c)
  ∧ KeepAlive c' = KeepAlive c
  ∧ StatelessResetKey c' = StatelessResetKey c
  ∧ TokenStore c' = TokenStore c
  ∧ QuicTracer c' = QuicTracer c.

(** The configuration that a pointer stands for: nil stands for the zero
    configuration. *)
Definition pointee (config : option loc) (h : heap) : option Config :=
  match config with
  | None => Some Config_zero
  | Some l => h !! l
  end.

End populate.

(** ** package wire: headers and frames *)

Module wire.

(** [wire.Header]: the fields the listener reads or writes. *)
Record Header := {
  IsLongHeader : bool;
  Type_ : PacketType;
  Version : VersionNumber;
  SrcConnectionID : ConnectionID;
  DestConnectionID : ConnectionID;
  Token : list byte;
  Length : Z;
}.

(** [wire.ExtendedHeader]: a [Header] (embedded in Go) with the packet
    number fields. *)
Record ExtendedHeader := {
  Header_ : Header;
  PacketNumberLen : protocol.PacketNumberLen;
  PacketNumber : Z;
}.

End wire.

Module qerr.

(** Modelled from the spec: the error codes of package [qerr] are not among
    the verified sources; the spec names the code SERVER_BUSY.  [NoError] is the
    zero value. *)
Inductive ErrorCode :=
  | NoError
  | ServerBusy
  | OtherErrorCode (code : Z).

End qerr.

(** [wire.ConnectionCloseFrame]. *)
Record ConnectionCloseFrame := {
  IsApplicationError : bool;
  ErrorCode : qerr.ErrorCode;
  ReasonPhrase : string;
}.

(** What server.go uses of package [wire].  [ExtendedHeader_Write] and
    [ConnectionCloseFrame_Write] return the bytes they append to the
    buffer. *)
Class wire_pkg := {
  ParsePacket : list byte → Z → result wire.Header;
  ExtendedHeader_Write : wire.ExtendedHeader → VersionNumber → result (list byte);
  ConnectionCloseFrame_Length : ConnectionCloseFrame → VersionNumber → Z;
  ConnectionCloseFrame_Write : ConnectionCloseFrame → VersionNumber → result (list byte);
  ComposeVersionNegotiation :
    ConnectionID → ConnectionID → list VersionNumber → result (list byte);
}.

(** ** package handshake: tokens and the Initial AEAD *)

(** [handshake.LongHeaderSealer].  [Seal] returns the ciphertext it appends
    to its destination; [EncryptHeader] returns the first byte and the
    packet number bytes it has overwritten in place.  The two equations are
    the contract of [cipher.AEAD] ([Overhead] is the length of the tag) and
    of an update in place; the Initial AEAD of QUIC has a tag of at least
    the 16 bytes that header protection samples. *)
Record LongHeaderSealer := {
  Seal : list byte → Z → list byte → list byte;   (* plaintext, packet number, associated data *)
  Overhead : nat;
  EncryptHeader : list byte → byte → list byte → byte * list byte;
  Seal_length : ∀ pt pn ad, length (Seal pt pn ad) = length pt + Overhead;
  EncryptHeader_length : ∀ sample b pn, length (EncryptHeader sample b pn).2 = length pn;
  Overhead_sample : 16 ≤ Overhead;
}.

(** The fields of a decoded [handshake.Token]. *)
Record handshake_Token := {
  tok_IsRetryToken : bool;
  tok_RemoteAddr : string;
  tok_SentTime : Z;
  tok_OriginalDestConnectionID : ConnectionID;
}.

(** What server.go uses of package [handshake].  Minting a token reads the
    clock and the random source. *)
Class handshake_pkg := {
  TokenGenerator : Type;
  NewTokenGenerator : Rand → result TokenGenerator * Rand;
  DecodeToken : TokenGenerator → list byte → result handshake_Token;
  NewRetryToken :
    TokenGenerator → Addr → ConnectionID → Z → Rand → result (list byte) * Rand;
  GetRetryIntegrityTag : list byte → ConnectionID → vec byte 16;
  NewInitialAEAD : ConnectionID → Perspective → LongHeaderSealer;
}.

(** ** Sessions and the packet handler manager *)

(** A [quicSession] is known to the listener by the arguments that
    [newSession] was called with; [sess_id] tells the session objects
    apart. *)
Record quicSession := {
  sess_id : nat;
  sess_remoteAddr : Addr;
  sess_origDestConnID : ConnectionID;
  sess_clientDestConnID : ConnectionID;
  sess_destConnID : ConnectionID;
  sess_srcConnID : ConnectionID;
  sess_statelessResetToken : vec byte 16;
  sess_enable0RTT : bool;
  sess_version : VersionNumber;
}.

(** The handler map of the [packetHandlerManager]: which session each
    connection ID is routed to. *)
Abbreviation handlers := (gmap (list byte) quicSession) (only parsing).

(** Modelled from the spec: the packet handler map is not among the verified
    sources.  The spec says of [add(cid, session) → bool]: it registers a
    CID and returns [false] if the CID is already present. *)
Definition Add (id : ConnectionID) (sess : quicSession) (h : handlers) : bool * handlers :=
  match h !! id with
  | Some _ => (false, h)
  | None => (true, <[id := sess]> h)
  end.

(** What the listener uses of the multiplexer and of the handler manager
    besides [Add]. *)
Class multiplexer_pkg := {
  AddConn : nat → Z → list byte → result handlers;
  GetStatelessResetToken : ConnectionID → vec byte 16;
  Destroy : option error;
}.

(** ** Slices *)

(** [l[i:j]] for [i ≤ j ≤ len(l)]. *)
Definition slice {A} (l : list A) (i j : nat) : list A := take (j - i) (drop i l).

(** The array [l] after [d] has been written over it from offset [off] on
    (for [off + len(d) ≤ len(l)]; the length does not change). *)
Definition write_at {A} (off : nat) (d : list A) (l : list A) : list A :=
  take off l ++ d ++ drop (off + length d) l.

(** How a goroutine ends: it returns (with or without an error) or it
    panics. *)
Inductive outcome :=
  | Returned (err : option error)
  | Panicked.

(** A datagram handed to [conn.WriteTo]: the bytes and the address. *)
Abbreviation Datagram := (list byte * Addr)%type (only parsing).

(** ** The listener *)

Record TLSConfig := {
  NextProtos : list string;
}.

Record receivedPacket := {
  remoteAddr : Addr;
  rcvTime : Z;
  data : list byte;
  buffer : nat;     (* the pooled buffer, by its identity *)
}.

(** The goroutines that server.go starts. *)
Inductive Task :=
  | go_run                                                           (* go s.run() *)
  | go_sendVersionNegotiationPacket (p : receivedPacket) (hdr : wire.Header)
  | go_sendRetry (remoteAddr : Addr) (hdr : wire.Header)
  | go_sendServerBusy (remoteAddr : Addr) (hdr : wire.Header)
  | go_sess_run (sess : quicSession)                                 (* go sess.run() *)
  | go_handleNewSession (sess : quicSession).

(** The calls on collaborators, in the order in which they happen. *)
Inductive Event :=
  | ev_newSession (sess : quicSession)
  | ev_Add (id : ConnectionID) (sess : quicSession) (added : bool)
  | ev_go (t : Task)
  | ev_handlePacket (sess : quicSession) (p : receivedPacket)
  | ev_Release (p : receivedPacket)
  | ev_SetServer
  | ev_CloseServer
  | ev_Destroy.

Section server.
Context `{!protocol_pkg, !wire_pkg, !handshake_pkg, !multiplexer_pkg}.

(** [baseServer]: the fields that are set once by [listen]. *)
Record baseServer := {
  acceptEarlySessions : bool;
  tlsConf : TLSConfig;
  config : Config;
  conn : nat;
  createdPacketConn : bool;
  tokenGenerator : TokenGenerator;
}.

(** The state that the intake task reads and writes: the listener, the
    handler map behind [s.sessionHandler], the atomic counter
    [s.sessionQueueLen], the clock, the random source, the number of
    session objects made so far, and the trace. *)
Record World := {
  server : baseServer;
  sessionHandler : handlers;
  sessionQueueLen : Z;
  now : Z;
  rand : Rand;
  sessions_made : nat;
  trace : list Event;
}.

Definition emit (e : Event) (w : World) : World := {|
  server := server w;
  sessionHandler := sessionHandler w;
  sessionQueueLen := sessionQueueLen w;
  now := now w;
  rand := rand w;
  sessions_made := sessions_made w;
  trace := trace w ++ [e];
|}.

Definition set_rand (r : Rand) (w : World) : World := {|
  server := server w;
  sessionHandler := sessionHandler w;
  sessionQueueLen := sessionQueueLen w;
  now := now w;
  rand := r;
  sessions_made := sessions_made w;
  trace := trace w;
|}.

Definition set_sessionHandler (h : handlers) (w : World) : World := {|
  server := server w;
  sessionHandler := h;
  sessionQueueLen := sessionQueueLen w;
  now := now w;
  rand := rand w;
  sessions_made := sessions_made w;
  trace := trace w;
|}.

Definition set_sessionQueueLen (n : Z) (w : World) : World := {|
  server := server w;
  sessionHandler := sessionHandler w;
  sessionQueueLen := n;
  now := now w;
  rand := rand w;
  sessions_made := sessions_made w;
  trace := trace w;
|}.

Definition incr_sessions_made (w : World) : World := {|
  server := server w;
  sessionHandler := sessionHandler w;
  sessionQueueLen := sessionQueueLen w;
  now := now w;
  rand := rand w;
  sessions_made := S (sessions_made w);
  trace := trace w;
|}.

(** [s.newSession(...)]: the session object made from the arguments of
    the call (server.go, l. 464-478). *)
Definition newSession (s : baseServer) (id : nat) (remoteAddr : Addr)
    (origDestConnID clientDestConnID destConnID srcConnID : ConnectionID)
    (version : VersionNumber) : quicSession := {|
  sess_id := id;
  sess_remoteAddr := remoteAddr;
  sess_origDestConnID := origDestConnID;
  sess_clientDestConnID := clientDestConnID;
  sess_destConnID := destConnID;
  sess_srcConnID := srcConnID;
  sess_statelessResetToken := GetStatelessResetToken srcConnID;
  sess_enable0RTT := acceptEarlySessions s;
  sess_version := version;
|}.

(** [createNewSession] (server.go, l. 456-488). *)
Definition createNewSession (remoteAddr : Addr)
    (origDestConnID clientDestConnID destConnID srcConnID : ConnectionID)
    (version : VersionNumber) (w : World) : option quicSession * World :=
  let sess := newSession (server w) (sessions_made w) remoteAddr
                origDestConnID clientDestConnID destConnID srcConnID version in
  let w := emit (ev_newSession sess) (incr_sessions_made w) in
  let '(added, h) := Add clientDestConnID sess (sessionHandler w) in
  let w := emit (ev_Add clientDestConnID sess added) (set_sessionHandler h w) in
  if negb added then (None, w)
  else
    let '(added, h) := Add srcConnID sess (sessionHandler w) in
    let w := emit (ev_Add srcConnID sess added) (set_sessionHandler h w) in
    let w := emit (ev_go (go_sess_run sess)) w in
    let w := emit (ev_go (go_handleNewSession sess)) w in
    (Some sess, w).

(** The token that [handleInitialImpl] hands to [AcceptToken], and the
    original destination connection ID (server.go, l. 405-417). *)
Definition decode_token (s : baseServer) (hdr : wire.Header) : option Token * ConnectionID :=
  if bool_decide (0 < length (wire.Token hdr)) then
    match DecodeToken (tokenGenerator s) (wire.Token hdr) with
    | Ok c =>
      (Some {| IsRetryToken := tok_IsRetryToken c;
               RemoteAddr := tok_RemoteAddr c;
               SentTime := tok_SentTime c |},
       tok_OriginalDestConnectionID c)
    | Err _ => (None, [])
    end
  else (None, []).

(** The guard of server.go, l. 401. *)
Definition too_short_connection_ID (hdr : wire.Header) : bool :=
  bool_decide (length (wire.Token hdr) = 0)
  && (Z.of_nat (length (wire.DestConnectionID hdr)) <? MinConnectionIDLenInitial)%Z.

(** [handleInitialImpl] (server.go, l. 400-454).  The result is [None]
    when Go panics, which happens only when [config.AcceptToken] is the nil
    function. *)
Definition handleInitialImpl (p : receivedPacket) (hdr : wire.Header) (w : World)
    : option (option quicSession * option error * World) :=
  let s := server w in
  if too_short_connection_ID hdr
  then Some (None, Some (errors_New "too short connection ID"), w)
  else
    let '(token, origDestConnectionID) := decode_token s hdr in
    acceptToken ← AcceptToken (config s);
    if negb (acceptToken (now w) (remoteAddr p) token)
    then Some (None, None, emit (ev_go (go_sendRetry (remoteAddr p) hdr)) w)
    else if (MaxAcceptQueueSize <=? sessionQueueLen w)%Z
    then Some (None, None, emit (ev_go (go_sendServerBusy (remoteAddr p) hdr)) w)
    else
      match GenerateConnectionID (ConnectionIDLength (config s)) (rand w) with
      | (Err err, r) => Some (None, Some err, set_rand r w)
      | (Ok connID, r) =>
        let '(sess, w) :=
          createNewSession (remoteAddr p) origDestConnectionID
            (wire.DestConnectionID hdr) (wire.SrcConnectionID hdr) connID
            (wire.Version hdr) (set_rand r w) in
        let w := match sess with
                 | Some sess => emit (ev_handlePacket sess p) w
                 | None => w
                 end in
        Some (sess, None, w)
      end.

(** [handlePacketImpl] (server.go, l. 354-398).  The Boolean tells whether
    the packet was passed on to a session. *)
Definition handlePacketImpl (p : receivedPacket) (w : World) : option (bool * World) :=
  let s := server w in
  if (Z.of_nat (length (data p)) <? MinInitialPacketSize)%Z then Some (false, w)
  else
    match ParsePacket (data p) (ConnectionIDLength (config s)) with
    | Err _ => Some (false, w)
    | Ok hdr =>
      if negb (wire.IsLongHeader hdr) then Some (false, w)
      else if negb (IsSupportedVersion (Versions (config s)) (wire.Version hdr))
      then Some (false, emit (ev_go (go_sendVersionNegotiationPacket p hdr)) w)
      else if wire.IsLongHeader hdr && negb (bool_decide (wire.Type_ hdr = PacketTypeInitial))
      then Some (false, w)
      else
        '(sess, err, w) ← handleInitialImpl p hdr w;
        match err with
        | Some _ => Some (false, w)
        | None =>
          match sess with
          | None => Some (false, w)
          | Some _ => Some (true, w)
          end
        end
    end.

(** One iteration of the loop of [run] that receives [p] from
    [s.receivedPackets] (server.go, l. 199-202): the buffer is released
    unless the packet was passed on. *)
Definition run_packet (p : receivedPacket) (w : World) : option World :=
  '(passed_on, w) ← handlePacketImpl p w;
  Some (if negb passed_on then emit (ev_Release p) w else w).

(** [sendRetry] (server.go, l. 518-549).  The error that [conn.WriteTo]
    may return is only logged by the caller; the datagram is recorded and
    the function returns. *)
Definition sendRetry (s : baseServer) (remoteAddr : Addr) (hdr : wire.Header)
    (now : Z) (r : Rand) : outcome * Rand * list Datagram :=
  match NewRetryToken (tokenGenerator s) remoteAddr (wire.DestConnectionID hdr) now r with
  | (Err err, r) => (Returned (Some err), r, [])
  | (Ok token, r) =>
    match GenerateConnectionID (ConnectionIDLength (config s)) r with
    | (Err err, r) => (Returned (Some err), r, [])
    | (Ok connID, r) =>
      let replyHdr := {|
        wire.Header_ := {|
          wire.IsLongHeader := true;
          wire.Type_ := PacketTypeRetry;
          wire.Version := wire.Version hdr;
          wire.SrcConnectionID := connID;
          wire.DestConnectionID := wire.SrcConnectionID hdr;
          wire.Token := token;
          wire.Length := 0 |};
        wire.PacketNumberLen := PacketNumberLenInvalid;
        wire.PacketNumber := 0 |} in
      let buf : list byte := [] in
      match ExtendedHeader_Write replyHdr (wire.Version hdr) with
      | Err err => (Returned (Some err), r, [])
      | Ok written =>
        let buf := buf ++ written in
        let tag := GetRetryIntegrityTag buf (wire.DestConnectionID hdr) in
        let buf := buf ++ vec_to_list tag in
        (Returned None, r, [(buf, remoteAddr)])
      end
    end
  end.

(** The sealer of the Initial AEAD derived from the destination connection
    ID that the client chose, for packets sent by the server (l. 552). *)
Definition Initial_sealer (hdr : wire.Header) : LongHeaderSealer :=
  NewInitialAEAD (wire.DestConnectionID hdr) PerspectiveServer.

(** [sendServerBusy] (server.go, l. 551-591).  [buf] starts as the empty
    slice of a pooled buffer.  [sealer.Seal] is called with destination
    [raw[payloadOffset:payloadOffset]], so the ciphertext is written over
    the array from [payloadOffset] on, and [raw] is then resliced to the
    length of the buffer plus the overhead.  A slice expression with a
    negative bound and [&raw[0]] on an empty slice panic. *)
Definition sendServerBusy (s : baseServer) (remoteAddr : Addr) (hdr : wire.Header)
    : outcome * list Datagram :=
  let sealer := Initial_sealer hdr in
  let buf : list byte := [] in
  let ccf := {| IsApplicationError := false;
                ErrorCode := qerr.ServerBusy;
                ReasonPhrase := "" |} in
  let replyHdr := {|
    wire.Header_ := {|
      wire.IsLongHeader := true;
      wire.Type_ := PacketTypeInitial;
      wire.Version := wire.Version hdr;
      wire.SrcConnectionID := wire.DestConnectionID hdr;
      wire.DestConnectionID := wire.SrcConnectionID hdr;
      wire.Token := [];
      wire.Length := (4 + ConnectionCloseFrame_Length ccf (wire.Version hdr)
                      + Z.of_nat (Overhead sealer))%Z |};
    wire.PacketNumberLen := PacketNumberLen4;
    wire.PacketNumber := 0 |} in
  match ExtendedHeader_Write replyHdr (wire.Version hdr) with
  | Err err => (Returned (Some err), [])
  | Ok written =>
    let buf := buf ++ written in
    let payloadOffset := length buf in
    match ConnectionCloseFrame_Write ccf (wire.Version hdr) with
    | Err err => (Returned (Some err), [])
    | Ok written =>
      let buf := buf ++ written in
      let raw := buf in
      let sealed := Seal sealer (drop payloadOffset raw) (wire.PacketNumber replyHdr)
                      (take payloadOffset raw) in
      let array := take payloadOffset raw ++ sealed in
      let raw := take (length buf + Overhead sealer) array in
      let pnOffset :=
        (Z.of_nat payloadOffset - PacketNumberLen_int (wire.PacketNumberLen replyHdr))%Z in
      if (pnOffset <? 0)%Z then (Panicked, [])
      else
        let pnOffset := Z.to_nat pnOffset in
        match raw with
        | [] => (Panicked, [])
        | first :: _ =>
          let '(first, pn) :=
            EncryptHeader sealer
              (slice raw (pnOffset + 4) (pnOffset + 4 + 16))
              first
              (slice raw pnOffset payloadOffset) in
          let raw := write_at 0 [first] (write_at pnOffset pn raw) in
          (Returned None, [(raw, remoteAddr)])
        end
    end
  end.

(** [sendVersionNegotiationPacket] (server.go, l. 593-603): errors are
    only logged. *)
Definition sendVersionNegotiationPacket (s : baseServer) (p : receivedPacket)
    (hdr : wire.Header) : list Datagram :=
  match ComposeVersionNegotiation (wire.SrcConnectionID hdr) (wire.DestConnectionID hdr)
          (Versions (config s)) with
  | Err _ => []
  | Ok data => [(data, remoteAddr p)]
  end.

(** The body of a reply goroutine: what runs once a task scheduled by the
    intake task is executed (the closures of l. 419-423 and 429-433 call the
    send function and log its error).  The other tasks send nothing on
    behalf of the listener. *)
Definition run_reply (s : baseServer) (t : Task) (now : Z) (r : Rand)
    : outcome * Rand * list Datagram :=
  match t with
  | go_sendVersionNegotiationPacket p hdr =>
    (Returned None, r, sendVersionNegotiationPacket s p hdr)
  | go_sendRetry remoteAddr hdr => sendRetry s remoteAddr hdr now r
  | go_sendServerBusy remoteAddr hdr =>
    let '(o, sent) := sendServerBusy s remoteAddr hdr in (o, r, sent)
  | _ => (Returned None, r, [])
  end.


(** [p] is an Initial from an unknown connection ID: a datagram of at least
    1200 bytes that parses to the long header [hdr] of type Initial with a
    supported version; this is what reaches [handleInitialImpl]. *)
Definition unknown_Initial (p : receivedPacket) (w : World) (hdr : wire.Header) : Prop :=
  (MinInitialPacketSize ≤ Z.of_nat (length (data p)))%Z
  ∧ ParsePacket (data p) (ConnectionIDLength (config (server w))) = Ok hdr
  ∧ wire.IsLongHeader hdr = true
  ∧ IsSupportedVersion (Versions (config (server w))) (wire.Version hdr) = true
  ∧ wire.Type_ hdr = PacketTypeInitial.

(** The Initial [p] gets as far as the call of the configured
    [AcceptToken] (l. 418), which returns [verdict]. *)
Definition token_checked (p : receivedPacket) (w : World) (hdr : wire.Header)
    (verdict : bool) : Prop :=
  unknown_Initial p w hdr
  ∧ too_short_connection_ID hdr = false
  ∧ ∃ acceptToken, AcceptToken (config (server w)) = Some acceptToken
      ∧ acceptToken (now w) (remoteAddr p) (decode_token (server w) hdr).1 = verdict.

(** The first version of the list that is not valid, as the loop of
    [listen] finds it (server.go, l. 156-160). *)
Definition first_invalid_version (versions : list VersionNumber) : option VersionNumber :=
  head (filter (λ v, IsValidVersion v = false) versions).

(** [listen] (server.go, l. 151-187).  The result is [None] only for a
    [config] pointer that is not in the heap. *)
Definition listen (conn : nat) (tlsConf : option TLSConfig) (config : option loc)
    (acceptEarly : bool) (h : heap) (now : Z) (r : Rand)
    : option (result World * heap) :=
  match tlsConf with
  | None => Some (Err (errors_New "quic: tls.Config not set"), h)
  | Some tlsConf =>
    '(config, h) ← populateServerConfig config h;
    c ← h !! config;
    match first_invalid_version (Versions c) with
    | Some v => Some (Err (ErrInvalidVersion v), h)
    | None =>
      match AddConn conn (ConnectionIDLength c) (StatelessResetKey c) with
      | Err err => Some (Err err, h)
      | Ok sessionHandler =>
        match NewTokenGenerator r with
        | (Err err, _) => Some (Err err, h)
        | (Ok tokenGenerator, r) =>
          let s := {| acceptEarlySessions := acceptEarly;
                      tlsConf := tlsConf;
                      config := c;
                      conn := conn;
                      createdPacketConn := false;
                      tokenGenerator := tokenGenerator |} in
          Some (Ok {| server := s;
                      sessionHandler := sessionHandler;
                      sessionQueueLen := 0;
                      now := now;
                      rand := r;
                      sessions_made := 0;
                      trace := [ev_go go_run; ev_SetServer] |}, h)
        end
      end
    end
  end.

End server.

(** ** The accept queue and the life cycle of the listener *)

(** [int32] arithmetic wraps around. *)
Definition wrap32 (z : Z) : Z := ((z + 2 ^ 31) mod 2 ^ 32 - 2 ^ 31)%Z.

(** How far the goroutine [handleNewSession] of a session has come, and
    what [accept] has done with the session:
    - [waiting]: at the first [select] (l. 494 or l. 501);
    - [offered]: the counter has been incremented (l. 508) and the task
      offers the session on [s.sessionQueue] (l. 510);
    - [received]: a call of [accept] has received the session (l. 304) and
      has not yet decremented the counter (l. 305);
    - [accepted]: that call has decremented the counter and returned;
    - [withdrawing]: the second [select] has taken [sessCtx.Done()]
      (l. 512) and the counter is not yet decremented (l. 513);
    - [gone]: the task has returned without handing the session over. *)
Inductive progress :=
  | waiting
  | offered
  | received
  | accepted
  | withdrawing
  | gone.

#[global] Instance progress_eq_dec : EqDecision progress.
Proof. solve_decision. Defined.

(** Where the intake task [run] (server.go, l. 189-205) is: at the first
    [select], which only looks at the error channel; at the second one,
    which waits for the error channel or a packet; handling a packet it has
    received; or returned. *)
Inductive intake_pc :=
  | at_check
  | at_receive
  | handling (p : receivedPacket)
  | returned.

(** The cases of the [select] of [accept] (l. 301-309); the session queue
    case names the offering task it receives from. *)
Inductive accept_case :=
  | case_ctx_Done
  | case_sessionQueue (i : nat)
  | case_errorChan.

Section listener.
Context `{!protocol_pkg, !wire_pkg, !handshake_pkg, !multiplexer_pkg}.

(** The listener with its goroutines: the state that the intake task works
    on and where that task is, the fields guarded by [s.mutex], the error
    channel (closed or not), and one entry per [handleNewSession]
    goroutine. *)
Record Listener := {
  world : World;
  intake : intake_pc;
  closed : bool;
  serverError : option error;
  errorChan_closed : bool;
  handoff : list (quicSession * progress);
}.

(** The listener as [listen] returns it: [go s.run()] has been executed. *)
Definition new_listener (w : World) : Listener := {|
  world := w;
  intake := at_check;
  closed := false;
  serverError := None;
  errorChan_closed := false;
  handoff := [];
|}.

Definition set_world (w : World) (l : Listener) : Listener := {|
  world := w;
  intake := intake l;
  closed := closed l;
  serverError := serverError l;
  errorChan_closed := errorChan_closed l;
  handoff := handoff l;
|}.

Definition set_intake (pc : intake_pc) (l : Listener) : Listener := {|
  world := world l;
  intake := pc;
  closed := closed l;
  serverError := serverError l;
  errorChan_closed := errorChan_closed l;
  handoff := handoff l;
|}.

Definition set_handoff (h : list (quicSession * progress)) (l : Listener) : Listener := {|
  world := world l;
  intake := intake l;
  closed := closed l;
  serverError := serverError l;
  errorChan_closed := errorChan_closed l;
  handoff := h;
|}.

(** [atomic.AddInt32(&s.sessionQueueLen, delta)]. *)
Definition AddInt32 (delta : Z) (l : Listener) : Listener :=
  set_world (set_sessionQueueLen (wrap32 (sessionQueueLen (world l) + delta)) (world l)) l.

(** Task [i] moves from [from] to [to]; nothing happens (the step is not
    enabled) when it is elsewhere. *)
Definition move (i : nat) (from to : progress) (l : Listener) : option Listener :=
  '(sess, pc) ← handoff l !! i;
  if bool_decide (pc = from) then Some (set_handoff (<[i := (sess, to)]> (handoff l)) l)
  else None.

(** The sessions for which a [handleNewSession] goroutine was started. *)
Definition spawned_handoffs (tr : list Event) : list quicSession :=
  omap (λ e, match e with ev_go (go_handleNewSession sess) => Some sess | _ => None end) tr.

(** [Close] (server.go, l. 313-332), under the mutex. *)
Definition Close (l : Listener) : option error * Listener :=
  if closed l then (None, l)
  else
    let w := emit ev_CloseServer (world l) in
    let serverError :=
      match serverError l with
      | None => Some (errors_New "server closed")
      | Some e => Some e
      end in
    let '(err, w) :=
      if createdPacketConn (server w) then (Destroy, emit ev_Destroy w) else (None, w) in
    (err, {| world := w;
             intake := intake l;
             closed := true;
             serverError := serverError;
             errorChan_closed := true;
             handoff := handoff l |}).

(** [setCloseError] (server.go, l. 334-343), under the mutex. *)
Definition setCloseError (e : option error) (l : Listener) : Listener :=
  if closed l then l
  else {| world := world l;
          intake := intake l;
          closed := true;
          serverError := e;
          errorChan_closed := true;
          handoff := handoff l |}.

(** The first half of the session queue case of [accept]: the receive of
    l. 304 from the offering task [i]. *)
Definition accept_receive (i : nat) (l : Listener) : option Listener :=
  move i offered received l.

(** The second half: the decrement of l. 305. *)
Definition accept_decrement (i : nat) (l : Listener) : option Listener :=
  AddInt32 (-1) <$> move i received accepted l.

(** [accept] (server.go, l. 300-310), for the case [c] that its [select]
    takes.  [ctx] is [ctx.Err()]: [None] while the context is not done.
    The result is [None] when the case cannot proceed.  Go's [select]
    takes any one of the cases that can proceed. *)
Definition accept (ctx : option error) (c : accept_case) (l : Listener)
    : option (option quicSession * option error * Listener) :=
  match c with
  | case_ctx_Done =>
    match ctx with
    | Some err => Some (None, Some err, l)
    | None => None
    end
  | case_sessionQueue i =>
    '(sess, _) ← handoff l !! i;
    l ← accept_receive i l;
    l ← accept_decrement i l;
    Some (Some sess, None, l)
  | case_errorChan =>
    if errorChan_closed l then Some (None, serverError l, l) else None
  end.

Definition set_now (t : Z) (w : World) : World := {|
  server := server w;
  sessionHandler := sessionHandler w;
  sessionQueueLen := sessionQueueLen w;
  now := t;
  rand := rand w;
  sessions_made := sessions_made w;
  trace := trace w;
|}.

(** The atomic steps of the intake task. *)
Inductive run_step :=
  | check_errorChan                     (* l. 191-195: the first [select] *)
  | receive (p : receivedPacket)        (* l. 199: the second [select] takes [p] *)
  | return_on_errorChan                 (* l. 197: it takes the error channel *)
  | handle.                             (* l. 200-202 *)

(** [run] (server.go, l. 189-205), one atomic step at a time.  A packet
    that is in [s.receivedPackets] may be taken by the second [select] even
    when the error channel is closed as well.  Every
    [go s.handleNewSession(sess)] of an iteration is a new task, which
    starts at its first [select]. *)
Definition run (s : run_step) (l : Listener) : option Listener :=
  match s, intake l with
  | check_errorChan, at_check =>
    Some (set_intake (if errorChan_closed l then returned else at_receive) l)
  | receive p, at_receive => Some (set_intake (handling p) l)
  | return_on_errorChan, at_receive =>
    if errorChan_closed l then Some (set_intake returned l) else None
  | handle, handling p =>
    w ← run_packet p (world l);
    let new := drop (length (spawned_handoffs (trace (world l))))
                    (spawned_handoffs (trace w)) in
    Some (set_intake at_check
            (set_handoff (handoff l ++ ((λ sess, (sess, waiting)) <$> new))
               (set_world w l)))
  | _, _ => None
  end.

(** The atomic steps of a [handleNewSession] goroutine, apart from the
    hand-over itself, which is the receive of [accept]. *)
Inductive handoff_step :=
  | ready                 (* l. 495 or 502: the session is ready; then l. 508 *)
  | Done_while_waiting    (* l. 496 or 503: [sessCtx.Done()] at the first [select] *)
  | Done_while_offering   (* l. 512: [sessCtx.Done()] at the second [select] *)
  | decrement.            (* l. 513 *)

(** [handleNewSession] (server.go, l. 490-516) for the task [i], one atomic
    step at a time.  Which signal the first [select] waits for
    ([earlySessionReady] or [HandshakeComplete]) depends on
    [acceptEarlySessions]; either is the step [ready]. *)
Definition handleNewSession (i : nat) (s : handoff_step) (l : Listener) : option Listener :=
  match s with
  | ready => AddInt32 1 <$> move i waiting offered l
  | Done_while_waiting => move i waiting gone l
  | Done_while_offering => move i offered withdrawing l
  | decrement => AddInt32 (-1) <$> move i withdrawing gone l
  end.

(** The atomic steps of the goroutines around the listener. *)
Inductive Label :=
  | L_run (s : run_step)
  | L_clock (t : Z)                     (* time passes *)
  | L_handleNewSession (i : nat) (s : handoff_step)
  | L_accept_receive (i : nat)          (* [accept], l. 304 *)
  | L_accept_decrement (i : nat)        (* [accept], l. 305 *)
  | L_Close
  | L_setCloseError (e : option error).

Definition step (lab : Label) (l : Listener) : option Listener :=
  match lab with
  | L_run s => run s l
  | L_clock t =>
    if (now (world l) <=? t)%Z then Some (set_world (set_now t (world l)) l) else None
  | L_handleNewSession i s => handleNewSession i s l
  | L_accept_receive i => accept_receive i l
  | L_accept_decrement i => accept_decrement i l
  | L_Close => Some (Close l).2
  | L_setCloseError e => Some (setCloseError e l)
  end.

(** A run of the system: the steps taken one after the other. *)
Fixpoint steps (labs : list Label) (l : Listener) : option Listener :=
  match labs with
  | [] => Some l
  | lab :: labs => l ← step lab l; steps labs l
  end.

(** [serv.createdPacketConn = b]. *)
Definition set_createdPacketConn (b : bool) (w : World) : World := {|
  server := {| acceptEarlySessions := acceptEarlySessions (server w);
               tlsConf := tlsConf (server w);
               config := config (server w);
               conn := conn (server w);
               createdPacketConn := b;
               tokenGenerator := tokenGenerator (server w) |};
  sessionHandler := sessionHandler w;
  sessionQueueLen := sessionQueueLen w;
  now := now w;
  rand := rand w;
  sessions_made := sessions_made w;
  trace := trace w;
|}.

(** The states of a listener.  A listener starts as [listen] returns it:
    to its caller ([Listen], [ListenEarly]), or to [listenAddr], which sets
    [createdPacketConn] on the server that [listen] has made for the socket
    it opened, before anyone else has the listener (l. 122-126); the intake
    task never reads that field.  Then the goroutines take their steps. *)
Inductive reachable : Listener → Prop :=
  | reachable_listen conn tlsConf config acceptEarly h now r w h' :
      listen conn tlsConf config acceptEarly h now r = Some (Ok w, h') →
      reachable (new_listener w)
  | reachable_listenAddr conn tlsConf config acceptEarly h now r w h' :
      listen conn tlsConf config acceptEarly h now r = Some (Ok w, h') →
      reachable (new_listener (set_createdPacketConn true w))
  | reachable_step l lab l' :
      reachable l → step lab l = Some l' → reachable l'.

(** Whether a session counts as offered and neither consumed by [accept]
    nor withdrawn: its task has incremented the counter and the matching
    decrement (l. 305 or l. 513) has not been executed. *)
Definition in_queue (pc : progress) : bool :=
  match pc with
  | offered | received | withdrawing => true
  | _ => false
  end.

Definition queued (l : Listener) : nat :=
  length (filter (λ e, in_queue e.2 = true) (handoff l)).

End listener.

(** ** The client session cache (internal/handshake/client_session_cache.go) *)

Module binary.

(** [binary.BigEndian.PutUint32]: the four bytes written for [v]. *)
Definition BigEndian_PutUint32 (v : Z) : list byte :=
  [byte_of_Z (Z.shiftr v 24); byte_of_Z (Z.shiftr v 16);
   byte_of_Z (Z.shiftr v 8); byte_of_Z v].

(** [binary.BigEndian.Uint32] of a slice of at least four bytes (Go panics
    on a shorter one: [None]). *)
Definition BigEndian_Uint32 (b : list byte) : option Z :=
  match b with
  | b0 :: b1 :: b2 :: b3 :: _ =>
    Some (Z.lor (Z.lor (Z.lor (Z_of_byte b3) (Z.shiftl (Z_of_byte b2) 8))
                       (Z.shiftl (Z_of_byte b1) 16))
                (Z.shiftl (Z_of_byte b0) 24))
  | _ => None
  end.

End binary.

Definition clientSessionStateRevision : Z := 1.

Record nonceField := {
  Nonce : list byte;
  AppData : list byte;
  RTT : Z;   (* int64, in ns *)
}.

(** The values of an [int64]. *)
Definition int64 (z : Z) : Prop := (- 2 ^ 63 ≤ z < 2 ^ 63)%Z.

Definition wrap64 (z : Z) : Z := ((z + 2 ^ 63) mod 2 ^ 64 - 2 ^ 63)%Z.

(** [encoding/asn1] at the type [nonceField].  [Unmarshal] returns the
    value and the bytes that follow it.  The two equations are the contract
    of the Go library for a struct of two byte slices and an [int64]:
    marshalling succeeds, and unmarshalling the encoding gives the value
    back with nothing left over.  The library does not decode lengths of
    2^31 and more, so the second equation is for shorter encodings. *)
Class asn1_pkg := {
  asn1_Marshal : nonceField → result (list byte);
  asn1_Unmarshal : list byte → result (nonceField * list byte);
  asn1_Marshal_ok : ∀ nf, int64 (RTT nf) → ∃ data, asn1_Marshal nf = Ok data;
  asn1_Unmarshal_Marshal : ∀ nf data,
    int64 (RTT nf) → asn1_Marshal nf = Ok data → (Z.of_nat (length data) < 2 ^ 31)%Z →
    asn1_Unmarshal data = Ok (nf, []);
}.

(** [congestion.RTTStats], as far as the cache uses it. *)
Class congestion_pkg := {
  RTTStats : Type;
  SmoothedRTT : RTTStats → Z;               (* a [time.Duration] *)
  SetInitialRTT : Z → RTTStats → RTTStats;
}.

(** [tls.ClientSessionState], [qtls.ClientSessionState] and
    [clientSessionState] have the same fields (the source copies one onto
    the other byte by byte): the nonce and the fields that the cache does
    not look at. *)
Record ClientSessionState := {
  nonce : list byte;
  other_fields : list byte;
}.

Definition with_nonce (n : list byte) (s : ClientSessionState) : ClientSessionState :=
  {| nonce := n; other_fields := other_fields s |}.

Section client_session_cache.
Context `{!asn1_pkg, !congestion_pkg}.
(** The state of the wrapped [tls.ClientSessionCache] and the state that
    the two application callbacks work on. *)
Context {C A : Type}.

(** The interface [tls.ClientSessionCache]; a pointer to a session may be
    nil. *)
Record tls_ClientSessionCache := {
  tls_Get : string → C → option ClientSessionState * bool * C;
  tls_Put : string → option ClientSessionState → C → C;
}.

Record clientSessionCache := {
  ClientSessionCache : tls_ClientSessionCache;
  getAppData : A → list byte * A;
  setAppData : list byte → A → A;
}.

(** What the methods of the cache read and write: the wrapped cache, the
    RTT statistics, the application, and the standard output. *)
Record CacheState := {
  cache : C;
  rttStats : RTTStats;
  app : A;
  stdout : list Z;
}.

Definition Println (n : Z) (st : CacheState) : CacheState :=
  {| cache := cache st; rttStats := rttStats st; app := app st;
     stdout := stdout st ++ [n] |}.

(** [Get] (client_session_cache.go, l. 48-81). *)
Definition Get (c : clientSessionCache) (sessionKey : string) (st : CacheState)
    : option ClientSessionState * bool * CacheState :=
  let '(sess, ok, cache') := tls_Get (ClientSessionCache c) sessionKey (cache st) in
  let st := {| cache := cache'; rttStats := rttStats st; app := app st;
               stdout := stdout st |} in
  match sess with
  | None => (None, ok, st)
  | Some sess =>
    let session := sess in
    if bool_decide (length (nonce session) < 4) then (None, false, Println 1 st)
    else if bool_decide (binary.BigEndian_Uint32 (take 4 (nonce session))
                         ≠ Some clientSessionStateRevision)
    then (None, false, Println 2 st)
    else
      match asn1_Unmarshal (drop 4 (nonce session)) with
      | Err _ => (None, false, Println 3 st)
      | Ok (nf, rest) =>
        if bool_decide (length rest ≠ 0) then (None, false, Println 3 st)
        else
          let app' := setAppData c (AppData nf) (app st) in
          let session := with_nonce (Nonce nf) session in
          let rttStats' := SetInitialRTT (wrap64 (RTT nf * 1)) (rttStats st) in
          let qtlsSession := session in
          (Some qtlsSession, ok,
           {| cache := cache st; rttStats := rttStats'; app := app';
              stdout := stdout st |})
      end
  end.

(** The value that [Put] marshals (l. 96-100). *)
Definition Put_nonceField (c : clientSessionCache) (session : ClientSessionState)
    (st : CacheState) : nonceField :=
  {| Nonce := nonce session;
     AppData := (getAppData c (app st)).1;
     RTT := SmoothedRTT (rttStats st) |}.

(** [Put] (client_session_cache.go, l. 83-112); [None] when Go panics. *)
Definition Put (c : clientSessionCache) (sessionKey : string)
    (cs : option ClientSessionState) (st : CacheState) : option CacheState :=
  match cs with
  | None =>
    Some {| cache := tls_Put (ClientSessionCache c) sessionKey None (cache st);
            rttStats := rttStats st; app := app st; stdout := stdout st |}
  | Some cs =>
    let session := cs in
    let app' := (getAppData c (app st)).2 in
    match asn1_Marshal (Put_nonceField c session st) with
    | Err _ => None
    | Ok data =>
      let nonce := binary.BigEndian_PutUint32 clientSessionStateRevision ++ data in
      let session := with_nonce nonce session in
      let tlsSession := session in
      Some {| cache := tls_Put (ClientSessionCache c) sessionKey (Some tlsSession) (cache st);
              rttStats := rttStats st; app := app'; stdout := stdout st |}
    end
  end.

(** The side-channel format in the spec's words: a 4-byte big-endian
    revision tag of value 1, followed by the DER encoding [data]. *)
Definition spec_stored_nonce (data : list byte) : list byte :=
  [x00; x00; x00; x01] ++ data.

End client_session_cache.

(** ** A DER codec for [nonceField]

    The encoding that [encoding/asn1] produces for the struct: a SEQUENCE
    (tag [0x30]) of two OCTET STRINGs (tag [0x04]) and an INTEGER (tag
    [0x02]), every element with a definite length in its shortest form and
    the integer in its shortest two's-complement form.  The decoder makes
    the checks of the Go library: it refuses a length that is not in its
    shortest form or that is 2^31 or more, and an integer that is not in
    its shortest form or that is longer than 8 bytes; it accepts bytes after
    the last field of the SEQUENCE. *)

Module der.

(** The number whose big-endian base-256 digits are [bs]. *)
Definition from_digits (bs : list byte) : Z :=
  fold_left (λ acc b, (acc * 256 + Z_of_byte b)%Z) bs 0%Z.

(** The big-endian base-256 digits of a positive number, without leading
    zeros; [fuel] bounds the number of digits. *)
Fixpoint digits (fuel : nat) (n : Z) : list byte :=
  match fuel with
  | O => []
  | S fuel => if (n <=? 0)%Z then [] else digits fuel (n / 256) ++ [byte_of_Z n]
  end.

Definition encode_length (n : nat) : list byte :=
  let z := Z.of_nat n in
  if (z <? 128)%Z then [byte_of_Z z]
  else
    let ds := digits (S (Z.to_nat (Z.log2 z))) z in
    byte_of_Z (128 + Z.of_nat (length ds)) :: ds.

(** The loop over the length bytes of the long form. *)
Fixpoint parse_long_length (numBytes : nat) (bytes : list byte) (len : Z)
    : option (Z * list byte) :=
  match numBytes with
  | O => Some (len, bytes)
  | S numBytes =>
    match bytes with
    | [] => None                                  (* truncated tag or length *)
    | b :: bytes =>
      if (2 ^ 23 <=? len)%Z then None             (* length too large *)
      else
        let len := (len * 256 + Z_of_byte b)%Z in
        if (len =? 0)%Z then None                 (* superfluous leading zeros *)
        else parse_long_length numBytes bytes len
    end
  end.

Definition parse_length (bytes : list byte) : option (nat * list byte) :=
  match bytes with
  | [] => None
  | b :: bytes =>
    let v := Z_of_byte b in
    if (v <? 128)%Z then Some (Z.to_nat v, bytes)
    else
      let numBytes := (v - 128)%Z in
      if (numBytes =? 0)%Z then None              (* indefinite length *)
      else
        '(len, bytes) ← parse_long_length (Z.to_nat numBytes) bytes 0;
        if (len <? 128)%Z then None               (* non-minimal length *)
        else Some (Z.to_nat len, bytes)
  end.

(** The shortest two's-complement form of [i], most significant byte
    first; [fuel] bounds the number of bytes after the first. *)
Fixpoint encode_int (fuel : nat) (i : Z) : list byte :=
  match fuel with
  | O => [byte_of_Z i]
  | S fuel =>
    if (127 <? i)%Z || (i <? -128)%Z then encode_int fuel (i / 256) ++ [byte_of_Z i]
    else [byte_of_Z i]
  end.

(** The check that an integer is in its shortest form. *)
Definition checkInteger (bytes : list byte) : bool :=
  match bytes with
  | [] => false
  | b0 :: b1 :: _ =>
    negb ((bool_decide (b0 = x00) && (Z_of_byte b1 <? 128)%Z)
          || (bool_decide (b0 = xff) && (128 <=? Z_of_byte b1)%Z))
  | _ => true
  end.

Definition parseInt64 (bytes : list byte) : option Z :=
  if negb (checkInteger bytes) then None
  else if bool_decide (8 < length bytes) then None
  else
    let ret := from_digits bytes in
    let bits := (8 * Z.of_nat (length bytes))%Z in
    Some (if (ret <? 2 ^ (bits - 1))%Z then ret else (ret - 2 ^ bits)%Z).

(** An element: its tag, its length, its contents. *)
Definition element (tag : byte) (contents : list byte) : list byte :=
  tag :: encode_length (length contents) ++ contents.

(** The contents of the element with tag [tag] at the head of [bytes], and
    the bytes after it. *)
Definition parse_element (tag : byte) (bytes : list byte)
    : option (list byte * list byte) :=
  match bytes with
  | [] => None
  | t :: bytes =>
    if negb (bool_decide (t = tag)) then None
    else
      '(len, bytes) ← parse_length bytes;
      if bool_decide (length bytes < len) then None
      else Some (take len bytes, drop len bytes)
  end.

Definition Marshal (nf : nonceField) : result (list byte) :=
  Ok (element x30 (element x04 (Nonce nf)
                   ++ element x04 (AppData nf)
                   ++ element x02 (encode_int 7 (RTT nf)))).

Definition Unmarshal (bytes : list byte) : result (nonceField * list byte) :=
  match
    '(fields, rest) ← parse_element x30 bytes;
    '(nonce, fields) ← parse_element x04 fields;
    '(appData, fields) ← parse_element x04 fields;
    '(rtt, _) ← parse_element x02 fields;
    rtt ← parseInt64 rtt;
    Some ({| Nonce := nonce; AppData := appData; RTT := rtt |}, rest)
  with
  | Some r => Ok r
  | None => Err (errors_New "asn1: syntax or structure error")
  end.

End der.

(** ** The replies in the words of the spec *)

(** The header of a Retry as the spec describes it: long header, type
    Retry, the client's version, the server's fresh connection ID as source,
    the client's source connection ID as destination, and the token. *)
Definition spec_Retry_header (version : VersionNumber) (scid dcid : ConnectionID)
    (token : list byte) : wire.ExtendedHeader := {|
  wire.Header_ := {|
    wire.IsLongHeader := true;
    wire.Type_ := PacketTypeRetry;
    wire.Version := version;
    wire.SrcConnectionID := scid;
    wire.DestConnectionID := dcid;
    wire.Token := token;
    wire.Length := 0 |};
  wire.PacketNumberLen := PacketNumberLenInvalid;
  wire.PacketNumber := 0 |}.

(** The header of the server-busy reply as the spec describes it: a
    long-header Initial with packet number length 4; [length] is the value
    of the length field. *)
Definition spec_ServerBusy_header (version : VersionNumber) (scid dcid : ConnectionID)
    (length : Z) : wire.ExtendedHeader := {|
  wire.Header_ := {|
    wire.IsLongHeader := true;
    wire.Type_ := PacketTypeInitial;
    wire.Version := version;
    wire.SrcConnectionID := scid;
    wire.DestConnectionID := dcid;
    wire.Token := [];
    wire.Length := length |};
  wire.PacketNumberLen := PacketNumberLen4;
  wire.PacketNumber := 0 |}.

(** The single frame of the server-busy reply. *)
Definition spec_ServerBusy_frame : ConnectionCloseFrame :=
  {| IsApplicationError := false; ErrorCode := qerr.ServerBusy; ReasonPhrase := "" |}.

(** The server-busy packet as the spec describes it.  The written header
    is [first :: middle ++ pn], [pn] being the four packet number bytes, so
    [pn_offset] is [1 + length middle]; [frame] is the written frame.  The
    payload is sealed with the packet number 0 and the header as associated
    data; the sample is the 16 bytes from [pn_offset + 4] on, of the packet
    before header protection; header protection replaces the first byte and
    the packet number bytes. *)
Definition spec_ServerBusy_packet (sealer : LongHeaderSealer)
    (first : byte) (middle pn frame : list byte) : list byte :=
  let header := first :: middle ++ pn in
  let payload := Seal sealer frame 0 header in
  let pn_offset := 1 + length middle in
  let sample := take 16 (drop (pn_offset + 4) (header ++ payload)) in
  let '(first', pn') := EncryptHeader sealer sample first pn in
  first' :: middle ++ pn' ++ payload.

(** ** Notions for the further properties of the intake task

    What one packet adds to the trace, and who ends up with its buffer. *)

(** The reply goroutines among the events. *)
Definition reply_tasks (tr : list Event) : list Task :=
  omap (λ e, match e with
             | ev_go (go_sendVersionNegotiationPacket p hdr) =>
               Some (go_sendVersionNegotiationPacket p hdr)
             | ev_go (go_sendRetry remoteAddr hdr) => Some (go_sendRetry remoteAddr hdr)
             | ev_go (go_sendServerBusy remoteAddr hdr) =>
               Some (go_sendServerBusy remoteAddr hdr)
             | _ => None
             end) tr.

(** What becomes of the buffers of the packets: [p.buffer.Release()] of the
    intake loop (no owner), or [sess.handlePacket(p)], after which the
    session owns the buffer. *)
Definition buffer_owners (tr : list Event) : list (receivedPacket * option quicSession) :=
  omap (λ e, match e with
             | ev_Release p => Some (p, None)
             | ev_handlePacket sess p => Some (p, Some sess)
             | _ => None
             end) tr.

(** The events that [handlePacketImpl] can add to the trace for the packet
    [p], with the Boolean it returns: nothing; one reply goroutine, for [p]
    or for the address [p] came from; a session object whose first [Add]
    fails; or a session that is registered, started and given the packet. *)
Inductive packet_events (p : receivedPacket) : bool → list Event → Prop :=
  | pe_dropped : packet_events p false []
  | pe_reply t :
      match t with
      | go_sendVersionNegotiationPacket p' _ => p' = p
      | go_sendRetry a _ | go_sendServerBusy a _ => a = remoteAddr p
      | _ => False
      end →
      packet_events p false [ev_go t]
  | pe_duplicate sess :
      packet_events p false [ev_newSession sess; ev_Add (sess_clientDestConnID sess) sess false]
  | pe_session sess added :
      packet_events p true [ev_newSession sess;
                            ev_Add (sess_clientDestConnID sess) sess true;
                            ev_Add (sess_srcConnID sess) sess added;
                            ev_go (go_sess_run sess); ev_go (go_handleNewSession sess);
                            ev_handlePacket sess p].

(** The calls [s.sessionHandler.CloseServer()] and
    [s.sessionHandler.Destroy()] among the events. *)
Definition closing_calls (tr : list Event) : list Event :=
  omap (λ e, match e with
             | ev_CloseServer => Some ev_CloseServer
             | ev_Destroy => Some ev_Destroy
             | _ => None
             end) tr.

(** The packets that the second [select] of [run] takes along a run. *)
Definition packets_taken (labs : list Label) : list receivedPacket :=
  omap (λ lab, match lab with L_run (receive p) => Some p | _ => None end) labs.

(** Whether a hand-over task that is at [pc] can still get to [pc']. *)
Definition after (pc pc' : progress) : bool :=
  match pc, pc' with
  | waiting, _ => true
  | offered, waiting => false
  | offered, _ => true
  | received, (received | accepted) => true
  | accepted, accepted => true
  | withdrawing, (withdrawing | gone) => true
  | gone, gone => true
  | _, _ => false
  end.

(** How many packets the intake task can still take once the error channel
    is closed (one if it is at its second [select]), and how many sessions
    it can still create (one if it is there or has a packet in hand). *)
Definition budget (pc : intake_pc) : nat :=
  match pc with at_receive => 1 | _ => 0 end.

Definition session_budget (pc : intake_pc) : nat :=
  match pc with at_receive | handling _ => 1 | _ => 0 end.

Section listener_notions.
Context `{!protocol_pkg, !wire_pkg, !handshake_pkg, !multiplexer_pkg}.

(** The session [sess] is the one that [handleInitialImpl] creates for the
    packet [p] with the header [hdr]: [p] has at least 1200 bytes and
    parses to the long header [hdr] of an Initial of a supported version
    that passes the guard of l. 401, and [sess] is what [newSession] makes
    of the address of [p], the connection IDs and the version of [hdr], and
    a connection ID of the configured length (l. 437-449). *)
Definition session_of_Initial (s : baseServer) (sess : quicSession) (p : receivedPacket)
    (hdr : wire.Header) : Prop :=
  (MinInitialPacketSize ≤ Z.of_nat (length (data p)))%Z
  ∧ ParsePacket (data p) (ConnectionIDLength (config s)) = Ok hdr
  ∧ wire.IsLongHeader hdr = true
  ∧ IsSupportedVersion (Versions (config s)) (wire.Version hdr) = true
  ∧ wire.Type_ hdr = PacketTypeInitial
  ∧ too_short_connection_ID hdr = false
  ∧ Z.of_nat (length (sess_srcConnID sess)) = ConnectionIDLength (config s)
  ∧ sess = newSession s (sess_id sess) (remoteAddr p) (decode_token s hdr).2
             (wire.DestConnectionID hdr) (wire.SrcConnectionID hdr) (sess_srcConnID sess)
             (wire.Version hdr).

(** The sessions of the [handleNewSession] goroutines, in the order in
    which the goroutines were started. *)
Definition handoff_sessions (l : Listener) : list quicSession := (handoff l).*1.

(** [sess] was created for an Initial that the intake task has passed on
    to it. *)
Definition created_for_Initial (l : Listener) (sess : quicSession) : Prop :=
  ∃ p hdr, session_of_Initial (server (world l)) sess p hdr
           ∧ ev_handlePacket sess p ∈ trace (world l).

(** The hand-over tasks are those that the trace says were started; their
    sessions are different objects, each created for an Initial. *)
Definition coherent (l : Listener) : Prop :=
  handoff_sessions l = spawned_handoffs (trace (world l))
  ∧ Forall (λ sess, sess_id sess < sessions_made (world l) ∧ created_for_Initial l sess)
           (handoff_sessions l)
  ∧ NoDup (sess_id <$> handoff_sessions l).

(** The state in which [listen] leaves the trace and the count of session
    objects. *)
Definition initial_world (w : World) : Prop :=
  trace w = [ev_go go_run; ev_SetServer] ∧ sessions_made w = 0.

(** While the listener is open no error is stored and the session handler
    has not been told to close; the session handler is told at most once,
    by [CloseServer] followed by [Destroy] if the listener created the
    packet conn. *)
Definition closing_invariant (l : Listener) : Prop :=
  (closed l = false → serverError l = None ∧ closing_calls (trace (world l)) = [])
  ∧ (closing_calls (trace (world l)) = []
     ∨ closing_calls (trace (world l))
       = ev_CloseServer :: (if createdPacketConn (server (world l)) then [ev_Destroy] else [])).

(** The packets that the intake task has handled, in the order of the
    trace. *)
Definition handled (l : Listener) : list receivedPacket :=
  (buffer_owners (trace (world l))).*1.

End listener_notions.

(** ** Listening on an address (server.go, l. 97-128) *)

(** What server.go uses of package [net]: the first argument of both
    functions is the network; a socket is known by its identity. *)
Class net_pkg := {
  ResolveUDPAddr : string → string → result Addr;
  ListenUDP : string → Addr → result nat;
}.

Section listenAddr.
Context `{!protocol_pkg, !wire_pkg, !handshake_pkg, !multiplexer_pkg, !net_pkg}.

(** [listenAddr] (server.go, l. 113-128). *)
Definition listenAddr (addr : string) (tlsConf : option TLSConfig) (config : option loc)
    (acceptEarly : bool) (h : heap) (now : Z) (r : Rand)
    : option (result World * heap) :=
  match ResolveUDPAddr "udp" addr with
  | Err err => Some (Err err, h)
  | Ok udpAddr =>
    match ListenUDP "udp" udpAddr with
    | Err err => Some (Err err, h)
    | Ok conn =>
      '(serv, h) ← listen conn tlsConf config acceptEarly h now r;
      match serv with
      | Err err => Some (Err err, h)
      | Ok serv => Some (Ok (set_createdPacketConn true serv), h)
      end
    end
  end.

(** [ListenAddr] (l. 100-102) and [ListenAddrEarly] (l. 105-111).  The
    latter wraps the server in an [earlyServer], whose [Accept] (l. 93-95)
    is [accept], as is the [Accept] of the server itself (l. 296-298). *)
Definition ListenAddr (addr : string) (tlsConf : option TLSConfig) (config : option loc)
    : heap → Z → Rand → option (result World * heap) :=
  listenAddr addr tlsConf config false.

Definition ListenAddrEarly (addr : string) (tlsConf : option TLSConfig)
    (config : option loc) : heap → Z → Rand → option (result World * heap) :=
  listenAddr addr tlsConf config true.

(** [Listen] (l. 138-140) and [ListenEarly] (l. 143-149). *)
Definition Listen (conn : nat) (tlsConf : option TLSConfig) (config : option loc)
    : heap → Z → Rand → option (result World * heap) :=
  listen conn tlsConf config false.

Definition ListenEarly (conn : nat) (tlsConf : option TLSConfig) (config : option loc)
    : heap → Z → Rand → option (result World * heap) :=
  listen conn tlsConf config true.

End listenAddr.

(** ** The channel of received packets (server.go, l. 178, 199, 350-352) *)

Section channel.
Context `{!protocol_pkg, !wire_pkg, !handshake_pkg, !multiplexer_pkg}.

(** The listener behind the channel [s.receivedPackets], which [listen]
    makes with room for 1000 packets (l. 178). *)
Record Server := {
  listener : Listener;
  receivedPackets : list receivedPacket;
}.

(** [handlePacket] (server.go, l. 350-352): the send blocks while the
    channel is full ([None]: the step is not enabled). *)
Definition handlePacket (p : receivedPacket) (s : Server) : option Server :=
  if bool_decide (length (receivedPackets s) < 1000)
  then Some {| listener := listener s; receivedPackets := receivedPackets s ++ [p] |}
  else None.

(** The steps of the system with the channel: a call of [handlePacket];
    the receive of the intake task (l. 199), which takes the packet at the
    head of the channel; and the other steps of the listener. *)
Inductive ServerLabel :=
  | S_handlePacket (p : receivedPacket)
  | S_receive
  | S_step (lab : Label).

Definition server_step (lab : ServerLabel) (s : Server) : option Server :=
  match lab with
  | S_handlePacket p => handlePacket p s
  | S_receive =>
    match receivedPackets s with
    | p :: rest =>
      l ← run (receive p) (listener s);
      Some {| listener := l; receivedPackets := rest |}
    | [] => None
    end
  | S_step (L_run (receive _)) => None
  | S_step lab =>
    l ← step lab (listener s);
    Some {| listener := l; receivedPackets := receivedPackets s |}
  end.

Fixpoint server_steps (labs : list ServerLabel) (s : Server) : option Server :=
  match labs with
  | [] => Some s
  | lab :: labs => s ← server_step lab s; server_steps labs s
  end.

(** The packets that were given to [handlePacket], in the order of the
    calls. *)
Definition submitted (labs : list ServerLabel) : list receivedPacket :=
  omap (λ lab, match lab with S_handlePacket p => Some p | _ => None end) labs.

(** The packet that the intake task has taken from the channel and not yet
    handled. *)
Definition in_hand (pc : intake_pc) : list receivedPacket :=
  match pc with handling p => [p] | _ => [] end.

End channel.

(** ** A small concrete environment

    Instances of the interfaces on which the definitions above can be run:
    a parser that reads the header fields from the first four bytes of a
    datagram, writers that lay the fields out one after the other, and a
    sealer that appends a 16-byte tag which depends on the connection ID
    and the perspective it was made for. *)

Module example.

Definition protocol_inst : protocol_pkg := {|
  SupportedVersions := [1%Z];
  IsValidVersion := λ v, (v =? 1)%Z;
  DefaultMaxReceiveStreamFlowControlWindow := 6291456;
  DefaultMaxReceiveConnectionFlowControlWindow := 15728640;
  DefaultMaxIncomingStreams := 100;
  DefaultMaxIncomingUniStreams := 100;
|}.

(** Byte 0: [x00] is a parse error, [x01] a short header, [x02] an Initial,
    anything else a Handshake packet.  Byte 1: the version.  Byte 2: the
    byte that the 8-byte destination connection ID repeats.  Byte 3: the
    token ([x00]: none). *)
Definition parse (data : list byte) (len : Z) : result wire.Header :=
  match data with
  | x00 :: _ => Err (errors_New "malformed header")
  | t :: v :: d :: tok :: _ =>
    Ok {| wire.IsLongHeader := negb (bool_decide (t = x01));
          wire.Type_ := if bool_decide (t = x02) then PacketTypeInitial
                        else PacketTypeHandshake;
          wire.Version := Z_of_byte v;
          wire.SrcConnectionID := [xaa; xbb];
          wire.DestConnectionID := replicate 8 d;
          wire.Token := if bool_decide (tok = x00) then [] else [tok];
          wire.Length := 0 |}
  | _ => Err (errors_New "malformed header")
  end.

Definition write_header (h : wire.ExtendedHeader) (v : VersionNumber) : result (list byte) :=
  Ok (xc0 :: wire.DestConnectionID (wire.Header_ h)
          ++ wire.SrcConnectionID (wire.Header_ h)
          ++ wire.Token (wire.Header_ h)
          ++ replicate (Z.to_nat (PacketNumberLen_int (wire.PacketNumberLen h))) x00).

Definition wire_inst : wire_pkg := {|
  ParsePacket := parse;
  ExtendedHeader_Write := write_header;
  ConnectionCloseFrame_Length := λ _ _, 3%Z;
  ConnectionCloseFrame_Write := λ _ _, Ok [x1c; x02; x00];
  ComposeVersionNegotiation := λ dest src versions,
    Ok (x80 :: dest ++ src ++ (byte_of_Z <$> versions));
|}.

(** The tag repeats a byte that tells the keys apart: for the server the
    first byte of the connection ID that the keys are derived from, for the
    client [xff]. *)
Definition key_byte (connID : ConnectionID) (pers : Perspective) : byte :=
  match pers with
  | PerspectiveServer => default x00 (head connID)
  | PerspectiveClient => xff
  end.

Program Definition sealer_inst (connID : ConnectionID) (pers : Perspective)
    : LongHeaderSealer := {|
  Seal := λ pt pn ad, pt ++ replicate 16 (key_byte connID pers);
  Overhead := 16;
  EncryptHeader := λ sample b pn, (b, reverse pn);
|}.
Next Obligation. intros; simpl. rewrite length_app; simpl; lia. Qed.
Next Obligation. intros; simpl. by rewrite length_reverse. Qed.
Next Obligation. simpl; lia. Qed.

Definition handshake_inst : handshake_pkg := {|
  TokenGenerator := unit;
  NewTokenGenerator := λ r, (Ok (), r);
  DecodeToken := λ _ _, Err (errors_New "token decoding failed");
  NewRetryToken := λ _ _ dcid _ r, (Ok (x52 :: dcid), r);
  GetRetryIntegrityTag := λ _ _, vreplicate 16 x00;
  NewInitialAEAD := sealer_inst;
|}.

Definition multiplexer_inst : multiplexer_pkg := {|
  AddConn := λ _ _ _, Ok ∅;
  GetStatelessResetToken := λ _, vreplicate 16 x00;
  Destroy := None;
|}.

(** A datagram of 1200 bytes with the given first four bytes. *)
Definition datagram (t v d tok : byte) : list byte :=
  [t; v; d; tok] ++ replicate 1196 x00.

Definition packet (data : list byte) : receivedPacket :=
  {| remoteAddr := UDPAddr "192.0.2.1" 4433; rcvTime := 0; data := data; buffer := 0 |}.

(** An Initial of version 1 without token whose destination connection ID
    repeats the byte [d]. *)
Definition initial (d : byte) : receivedPacket := packet (datagram x02 x01 d x00).

(** A configuration that accepts every token, and one with the default. *)
Definition config_accept_all : Config := {|
  Versions := [];
  HandshakeTimeout := 0;
  MaxIdleTimeout := 0;
  AcceptToken := Some (λ _ _ _, true);
  KeepAlive := false;
  MaxReceiveStreamFlowControlWindow := 0;
  MaxReceiveConnectionFlowControlWindow := 0;
  MaxIncomingStreams := (-1);
  MaxIncomingUniStreams := 0;
  ConnectionIDLength := 0;
  StatelessResetKey := [];
  TokenStore := None;
  QuicTracer := None;
|}.

Definition tls_no_alpn : TLSConfig := {| NextProtos := [] |}.
Definition tls_h3 : TLSConfig := {| NextProtos := ["h3"] |}.

Definition heap0 : heap := {[ 1%positive := config_accept_all ]}.

(** A configuration with a version that is not valid. *)
Definition config_bad_version : Config := {|
  Versions := [1%Z; 7%Z];
  HandshakeTimeout := 0;
  MaxIdleTimeout := 0;
  AcceptToken := None;
  KeepAlive := false;
  MaxReceiveStreamFlowControlWindow := 0;
  MaxReceiveConnectionFlowControlWindow := 0;
  MaxIncomingStreams := 0;
  MaxIncomingUniStreams := 0;
  ConnectionIDLength := 0;
  StatelessResetKey := [];
  TokenStore := None;
  QuicTracer := None;
|}.

Definition heap_bad_version : heap := {[ 1%positive := config_bad_version ]}.

#[local] Existing Instances protocol_inst wire_inst handshake_inst multiplexer_inst.

(** The listener that [listen] returns for [config_accept_all] (after
    defaulting), with 12 bytes of randomness left. *)
Definition world0 : World := {|
  server := {|
    acceptEarlySessions := false;
    tlsConf := tls_no_alpn;
    config := set_ConnectionIDLength 4 (populateConfig_value config_accept_all);
    conn := 0;
    createdPacketConn := false;
    tokenGenerator := () |};
  sessionHandler := ∅;
  sessionQueueLen := 0;
  now := 0;
  rand := [x01; x02; x03; x04; x05; x06; x07; x08; x09; x0a; x0b; x0c];
  sessions_made := 0;
  trace := [ev_go go_run; ev_SetServer];
|}.

(** The same listener with the default [AcceptToken]. *)
Definition world_default : World := {|
  server := {|
    acceptEarlySessions := false;
    tlsConf := tls_h3;
    config := set_AcceptToken (Some defaultAcceptToken)
                (set_ConnectionIDLength 4 (populateConfig_value Config_zero));
    conn := 0;
    createdPacketConn := false;
    tokenGenerator := () |};
  sessionHandler := ∅;
  sessionQueueLen := 0;
  now := 0;
  rand := [x01; x02; x03; x04; x05; x06; x07; x08];
  sessions_made := 0;
  trace := [ev_go go_run; ev_SetServer];
|}.

(** The listener when the accept queue is full. *)
Definition world_busy : World := set_sessionQueueLen 32 world0.

(** What [parse] makes of [datagram t v d tok] for a long header. *)
Definition initial_hdr (d : byte) : wire.Header := {|
  wire.IsLongHeader := true;
  wire.Type_ := PacketTypeInitial;
  wire.Version := 1;
  wire.SrcConnectionID := [xaa; xbb];
  wire.DestConnectionID := replicate 8 d;
  wire.Token := [];
  wire.Length := 0 |}.

(** One iteration of the intake loop for the packet [p]. *)
Definition iteration (p : receivedPacket) : list Label :=
  [L_run check_errorChan; L_run (receive p); L_run handle].

(** 33 Initials with different destination connection IDs are handled;
    then the 33 sessions become ready and are offered. *)
Definition flood : list Label :=
  (seq 1 33 ≫= λ i, iteration (initial (byte_of_Z (Z.of_nat i))))
  ++ ((λ i, L_handleNewSession i ready) <$> seq 0 33).

(** The intake task is at its second [select] when [Close] is called;
    the [select] then takes an Initial, whose session becomes ready. *)
Definition late_Initial : list Label :=
  [L_run (receive (initial x11)); L_run handle; L_handleNewSession 0 ready].

(** The client session cache of the tests: the wrapped cache is a map, the
    RTT statistics are the smoothed RTT, and the two callbacks read from
    and write to a queue of byte strings each. *)
Definition congestion_inst : congestion_pkg := {|
  RTTStats := Z;
  SmoothedRTT := λ rtt, rtt;
  SetInitialRTT := λ t _, t;
|}.

Definition map_cache : @tls_ClientSessionCache (gmap string ClientSessionState) := {|
  tls_Get := λ key m, (m !! key, bool_decide (is_Some (m !! key)), m);
  tls_Put := λ key cs m,
    match cs with
    | Some cs => <[key := cs]> m
    | None => delete key m
    end;
|}.

Definition csc
    : @clientSessionCache (gmap string ClientSessionState)
        (list (list byte) * list (list byte)) := {|
  ClientSessionCache := map_cache;
  getAppData := λ '(get, set), (default [] (head get), (tail get, set));
  setAppData := λ b '(get, set), (get, set ++ [b]);
|}.

Definition foobar : list byte := [x66; x6f; x6f; x62; x61; x72].

End example.

(** An instance of package [net] for the environment above: every address
    but the empty one resolves to a UDP address of port 4433, and the
    socket that is opened has the identity 7. *)

Module example_net.

Definition net_inst : net_pkg := {|
  ResolveUDPAddr := λ network addr,
    if bool_decide (addr = "") then Err (errors_New "missing address")
    else Ok (UDPAddr addr 4433);
  ListenUDP := λ network udpAddr, Ok 7;
|}.

(** A Handshake packet of version 1, and the header it parses to. *)
Definition handshake_packet : receivedPacket :=
  example.packet (example.datagram x03 x01 x11 x00).

Definition handshake_hdr : wire.Header := {|
  wire.IsLongHeader := true;
  wire.Type_ := PacketTypeHandshake;
  wire.Version := 1;
  wire.SrcConnectionID := [xaa; xbb];
  wire.DestConnectionID := replicate 8 x11;
  wire.Token := [];
  wire.Length := 0 |}.

(** Two datagrams that are too short to be handled. *)
Definition short1 : receivedPacket := example.packet [x01].
Definition short2 : receivedPacket := example.packet [x02].

(** An Initial is handled and its session becomes ready. *)
Definition one_session_ready : list Label :=
  example.iteration (example.initial x11) ++ [L_handleNewSession 0 ready].

End example_net.

(** * Properties of the intake task *)

Section server_theorems.
Context `{!protocol_pkg, !wire_pkg, !handshake_pkg, !multiplexer_pkg}.

Lemma GenerateConnectionID_length len r connID r' :
  GenerateConnectionID len r = (Ok connID, r') →
  Z.of_nat (length connID) = len ∧ r = connID ++ r'.
Proof.
  unfold GenerateConnectionID.
  destruct (len <? 0)%Z eqn:Hneg; [done|].
  destruct (Z.of_nat (length r) <? len)%Z eqn:Hshort; [done|].
  intros [= <- <-].
  apply Z.ltb_ge in Hneg, Hshort.
  rewrite length_take, take_drop. split; [lia | done].
Qed.

(** What [handlePacketImpl] does with a packet that gets as far as
    [handleInitialImpl]. *)
Lemma handlePacketImpl_initial (p : receivedPacket) (w : World) (hdr : wire.Header) :
  unknown_Initial p w hdr →
  handlePacketImpl p w
  = '(sess, err, w) ← handleInitialImpl p hdr w;
    Some (match err, sess with None, Some _ => true | _, _ => false end, w).
Proof.
  intros (Hlen & Hparse & Hlong & Hvers & Htype). unfold handlePacketImpl.
  apply Z.ltb_ge in Hlen. rewrite Hlen, Hparse, Hlong, Hvers, Htype. simpl.
  destruct (handleInitialImpl p hdr w) as [[[sess err] w']|]; [|done]. simpl.
  by destruct err as [e|], sess as [s|].
Qed.

Lemma handleInitialImpl_token_checked (p : receivedPacket) (w : World) (hdr : wire.Header)
    (verdict : bool) :
  token_checked p w hdr verdict →
  handleInitialImpl p hdr w
  = if negb verdict
    then Some (None, None, emit (ev_go (go_sendRetry (remoteAddr p) hdr)) w)
    else if (MaxAcceptQueueSize <=? sessionQueueLen w)%Z
    then Some (None, None, emit (ev_go (go_sendServerBusy (remoteAddr p) hdr)) w)
    else
      match GenerateConnectionID (ConnectionIDLength (config (server w))) (rand w) with
      | (Err err, r) => Some (None, Some err, set_rand r w)
      | (Ok connID, r) =>
        let '(sess, w) :=
          createNewSession (remoteAddr p) (decode_token (server w) hdr).2
            (wire.DestConnectionID hdr) (wire.SrcConnectionID hdr) connID
            (wire.Version hdr) (set_rand r w) in
        Some (sess, None,
              match sess with
              | Some sess => emit (ev_handlePacket sess p) w
              | None => w
              end)
      end.
Proof.
  intros (_ & Hguard & f & Hfn & Hverdict). unfold handleInitialImpl.
  rewrite Hguard. destruct (decode_token (server w) hdr) as [tok orig].
  rewrite Hfn. simpl in *. rewrite Hverdict.
  destruct verdict; simpl; [|done].
  destruct (MaxAcceptQueueSize <=? sessionQueueLen w)%Z; [done|].
  destruct GenerateConnectionID as [[connID|err] r']; [|done].
  by destruct createNewSession.
Qed.

(** C5: a datagram from an unknown connection ID that is shorter than 1200
    bytes, or whose header does not parse, or that has a short header, is
    dropped: [handlePacketImpl] returns false and leaves the state as it is
    (no reply is scheduled, no session is made, nothing is registered), and
    the intake loop releases the buffer.  For the short datagram this does
    not depend on what the parser would say. *)
Theorem handlePacketImpl_drops (p : receivedPacket) (w : World) :
  (Z.of_nat (length (data p)) < MinInitialPacketSize)%Z
  ∨ (∃ err, ParsePacket (data p) (ConnectionIDLength (config (server w))) = Err err)
  ∨ (∃ hdr, ParsePacket (data p) (ConnectionIDLength (config (server w))) = Ok hdr
            ∧ wire.IsLongHeader hdr = false) →
  handlePacketImpl p w = Some (false, w)
  ∧ run_packet p w = Some (emit (ev_Release p) w).
Proof.
  intros Hcase.
  assert (handlePacketImpl p w = Some (false, w)) as Himpl.
  { unfold handlePacketImpl.
    destruct (Z.of_nat (length (data p)) <? MinInitialPacketSize)%Z eqn:Hlen; [done|].
    destruct Hcase as [Hsmall | [[err Herr] | (hdr & Hok & Hshort)]].
    - apply Z.ltb_ge in Hlen. lia.
    - by rewrite Herr.
    - by rewrite Hok, Hshort. }
  split; [done|]. unfold run_packet. by rewrite Himpl.
Qed.

(** C3: a long-header packet of at least 1200 bytes whose version is not
    among the configured versions creates no session; exactly one task is
    scheduled, which sends at most one datagram, to the source address of
    the packet: the Version Negotiation composed for the client's source
    connection ID as destination, the client's destination connection ID as
    source, and the configured versions, which do not contain the client's
    version. *)
Theorem unsupported_version_negotiated (p : receivedPacket) (w : World) (hdr : wire.Header) :
  (MinInitialPacketSize ≤ Z.of_nat (length (data p)))%Z →
  ParsePacket (data p) (ConnectionIDLength (config (server w))) = Ok hdr →
  wire.IsLongHeader hdr = true →
  IsSupportedVersion (Versions (config (server w))) (wire.Version hdr) = false →
  handlePacketImpl p w
    = Some (false, emit (ev_go (go_sendVersionNegotiationPacket p hdr)) w)
  ∧ (∀ now r,
      run_reply (server w) (go_sendVersionNegotiationPacket p hdr) now r
      = (Returned None, r,
         match ComposeVersionNegotiation (wire.SrcConnectionID hdr)
                 (wire.DestConnectionID hdr) (Versions (config (server w))) with
         | Ok data => [(data, remoteAddr p)]
         | Err _ => []
         end))
  ∧ wire.Version hdr ∉ Versions (config (server w)).
Proof.
  intros Hlen Hparse Hlong Hvers. split; [|split].
  - unfold handlePacketImpl.
    apply Z.ltb_ge in Hlen. rewrite Hlen, Hparse, Hlong, Hvers. done.
  - intros. simpl. unfold sendVersionNegotiationPacket.
    by destruct ComposeVersionNegotiation.
  - unfold IsSupportedVersion in Hvers. by apply bool_decide_eq_false in Hvers.
Qed.

(** C2: an Initial that reaches the token check and for which the
    configured [AcceptToken] returns false creates no session; exactly one
    task is scheduled, [sendRetry].  When minting the token, generating the
    connection ID and writing the header succeed, that task sends one
    datagram to the remote address: the written header of the spec's Retry
    (long header, type Retry, the client's version, the generated
    connection ID as source, the client's source connection ID as
    destination, the minted token, which is bound to the remote address and
    the client's destination connection ID), followed by the 16 bytes of
    the integrity tag computed over the written header with the client's
    original destination connection ID.  The generated connection ID has
    the configured length. *)
Theorem rejected_token_retried (p : receivedPacket) (w : World) (hdr : wire.Header)
    (now' : Z) (r r1 r2 : Rand) (token connID written : list byte) :
  token_checked p w hdr false →
  NewRetryToken (tokenGenerator (server w)) (remoteAddr p) (wire.DestConnectionID hdr) now' r
    = (Ok token, r1) →
  GenerateConnectionID (ConnectionIDLength (config (server w))) r1 = (Ok connID, r2) →
  ExtendedHeader_Write
    (spec_Retry_header (wire.Version hdr) connID (wire.SrcConnectionID hdr) token)
    (wire.Version hdr) = Ok written →
  handlePacketImpl p w = Some (false, emit (ev_go (go_sendRetry (remoteAddr p) hdr)) w)
  ∧ run_reply (server w) (go_sendRetry (remoteAddr p) hdr) now' r
    = (Returned None, r2,
       [(written ++ vec_to_list (GetRetryIntegrityTag written (wire.DestConnectionID hdr)),
         remoteAddr p)])
  ∧ Z.of_nat (length connID) = ConnectionIDLength (config (server w))
  ∧ length (vec_to_list (GetRetryIntegrityTag written (wire.DestConnectionID hdr))) = 16.
Proof.
  intros Hchecked Htoken Hgen Hwrite.
  split; [|split; [|split]].
  - rewrite (handlePacketImpl_initial p w hdr) by apply Hchecked.
    by rewrite (handleInitialImpl_token_checked p w hdr false).
  - simpl. unfold sendRetry. rewrite Htoken, Hgen.
    unfold spec_Retry_header in Hwrite. by rewrite Hwrite.
  - by apply GenerateConnectionID_length in Hgen as [? _].
  - apply length_vec_to_list.
Qed.

Lemma write_at_middle {A} (a b c d : list A) :
  length d = length b → write_at (length a) d (a ++ b ++ c) = a ++ d ++ c.
Proof.
  intros Hlen. unfold write_at.
  rewrite take_app_length. f_equal. f_equal.
  rewrite Hlen, drop_app_add', drop_app_length; done.
Qed.

(** The datagram of [sendServerBusy] is the packet of the spec. *)
Lemma sendServerBusy_packet (s : baseServer) (addr : Addr) (hdr : wire.Header)
    (first : byte) (middle pn frame : list byte) :
  ExtendedHeader_Write
    (spec_ServerBusy_header (wire.Version hdr) (wire.DestConnectionID hdr)
       (wire.SrcConnectionID hdr)
       (4 + ConnectionCloseFrame_Length spec_ServerBusy_frame (wire.Version hdr)
        + Z.of_nat (Overhead (Initial_sealer hdr))))
    (wire.Version hdr) = Ok (first :: middle ++ pn) →
  length pn = 4 →
  ConnectionCloseFrame_Write spec_ServerBusy_frame (wire.Version hdr) = Ok frame →
  sendServerBusy s addr hdr
  = (Returned None,
     [(spec_ServerBusy_packet (Initial_sealer hdr) first middle pn frame, addr)]).
Proof.
  intros Hhdr Hpn Hframe.
  unfold sendServerBusy. set (sealer := Initial_sealer hdr) in *.
  unfold spec_ServerBusy_header, spec_ServerBusy_frame in *.
  rewrite Hhdr, Hframe. cbn [wire.PacketNumber wire.PacketNumberLen PacketNumberLen_int].
  set (header := first :: middle ++ pn).
  change ([] ++ header) with header.
  rewrite drop_app_length, take_app_length.
  set (payload := Seal sealer frame 0 header).
  rewrite take_ge by (rewrite !length_app; unfold payload; rewrite Seal_length; lia).
  assert (length header = 1 + length middle + 4) as Hlen.
  { unfold header. simpl. rewrite length_app. lia. }
  destruct (Z.of_nat (length header) - 4 <? 0)%Z eqn:Hneg.
  { apply Z.ltb_lt in Hneg. lia. }
  replace (Z.to_nat (Z.of_nat (length header) - 4)) with (1 + length middle) by lia.
  unfold spec_ServerBusy_packet. fold header. fold payload.
  assert (slice (header ++ payload) (1 + length middle) (length header) = pn) as ->.
  { unfold slice, header. fold header. rewrite Hlen. unfold header.
    replace (1 + length middle + 4 - (1 + length middle)) with (length pn) by lia.
    change (first :: middle ++ pn) with ([first] ++ middle ++ pn).
    rewrite !app_assoc, <- (app_assoc _ pn payload).
    rewrite drop_app_length' by (rewrite length_app; simpl; lia).
    by rewrite take_app_length. }
  assert (slice (header ++ payload) (1 + length middle + 4) (1 + length middle + 4 + 16)
          = take 16 (drop (1 + length middle + 4) (header ++ payload))) as ->.
  { unfold slice. f_equal. lia. }
  unfold header at 1.
  change ((first :: middle ++ pn) ++ payload) with (first :: (middle ++ pn) ++ payload).
  cbv iota beta.
  destruct (EncryptHeader sealer _ first pn) as [first' pn'] eqn:Henc.
  assert (length pn' = length pn) as Hpn'.
  { pose proof (EncryptHeader_length sealer
      (take 16 (drop (1 + length middle + 4) (header ++ payload))) first pn) as Hl.
    by rewrite Henc in Hl. }
  do 3 f_equal.
  replace (header ++ payload) with (([first] ++ middle) ++ pn ++ payload)
    by (unfold header; simpl; by rewrite <- app_assoc).
  change (1 + length middle) with (length ([first] ++ middle)).
  rewrite write_at_middle by done.
  reflexivity.
Qed.

(** The sample of the spec's packet: the first 16 bytes of the sealed
    payload. *)
Lemma spec_ServerBusy_sample (sealer : LongHeaderSealer) (first : byte)
    (middle pn frame : list byte) :
  length pn = 4 →
  let header := first :: middle ++ pn in
  let payload := Seal sealer frame 0 header in
  take 16 (drop (1 + length middle + 4) (header ++ payload)) = take 16 payload
  ∧ length (take 16 payload) = 16.
Proof.
  intros Hpn header payload. split.
  - rewrite drop_app_length'; [done|].
    unfold header. simpl. rewrite length_app. lia.
  - rewrite length_take. unfold payload. rewrite Seal_length.
    pose proof (Overhead_sample sealer). lia.
Qed.

(** C4: an Initial that passes the token check while the counter of the
    accept queue, as the atomic load reads it, is at least
    [MaxAcceptQueueSize] creates no session; exactly one task is scheduled,
    [sendServerBusy].  When the header (with its four packet number bytes
    at the end) and the frame are written, that task sends one datagram to
    the remote address: the packet of the spec, a long-header Initial with
    packet number length 4 whose only frame is a CONNECTION_CLOSE with the
    code SERVER_BUSY, sealed with the Initial AEAD that [NewInitialAEAD]
    derives for the server from the client's destination connection ID, and
    header-protected by that sealer with the 16 sample bytes that start at
    [pn_offset + 4] (the first 16 bytes of the sealed payload). *)
Theorem full_queue_server_busy (p : receivedPacket) (w : World) (hdr : wire.Header)
    (first : byte) (middle pn frame : list byte) :
  token_checked p w hdr true →
  (MaxAcceptQueueSize ≤ sessionQueueLen w)%Z →
  ExtendedHeader_Write
    (spec_ServerBusy_header (wire.Version hdr) (wire.DestConnectionID hdr)
       (wire.SrcConnectionID hdr)
       (4 + ConnectionCloseFrame_Length spec_ServerBusy_frame (wire.Version hdr)
        + Z.of_nat (Overhead (NewInitialAEAD (wire.DestConnectionID hdr) PerspectiveServer))))
    (wire.Version hdr) = Ok (first :: middle ++ pn) →
  length pn = 4 →
  ConnectionCloseFrame_Write spec_ServerBusy_frame (wire.Version hdr) = Ok frame →
  let sealer := NewInitialAEAD (wire.DestConnectionID hdr) PerspectiveServer in
  let header := first :: middle ++ pn in
  let payload := Seal sealer frame 0 header in
  let sample := take 16 payload in
  handlePacketImpl p w
    = Some (false, emit (ev_go (go_sendServerBusy (remoteAddr p) hdr)) w)
  ∧ (∀ now r,
      run_reply (server w) (go_sendServerBusy (remoteAddr p) hdr) now r
      = (Returned None, r,
         [((EncryptHeader sealer sample first pn).1
             :: middle ++ (EncryptHeader sealer sample first pn).2 ++ payload,
           remoteAddr p)]))
  ∧ spec_ServerBusy_packet sealer first middle pn frame
    = (EncryptHeader sealer sample first pn).1
        :: middle ++ (EncryptHeader sealer sample first pn).2 ++ payload
  ∧ take 16 (drop (1 + length middle + 4) (header ++ payload)) = sample
  ∧ length sample = 16.
Proof.
  intros Hchecked Hfull Hhdr Hpn Hframe sealer header payload sample.
  change (NewInitialAEAD (wire.DestConnectionID hdr) PerspectiveServer)
    with (Initial_sealer hdr) in Hhdr, sealer.
  assert (take 16 (drop (1 + length middle + 4) (header ++ payload)) = sample
          ∧ length sample = 16) as [Hsample Hlen]
    by (by apply spec_ServerBusy_sample).
  assert (spec_ServerBusy_packet sealer first middle pn frame
          = (EncryptHeader sealer sample first pn).1
              :: middle ++ (EncryptHeader sealer sample first pn).2 ++ payload) as Hpacket.
  { unfold spec_ServerBusy_packet. fold header. fold payload. rewrite Hsample.
    by destruct (EncryptHeader sealer sample first pn). }
  split; [|split; [|done]].
  - rewrite (handlePacketImpl_initial p w hdr) by apply Hchecked.
    rewrite (handleInitialImpl_token_checked p w hdr true) by done.
    apply Z.leb_le in Hfull. simpl. by rewrite Hfull.
  - intros. simpl.
    rewrite (sendServerBusy_packet _ _ _ first middle pn frame) by done.
    fold sealer. by rewrite Hpacket.
Qed.

(** ** Session creation *)

Lemma createNewSession_fresh (remoteAddr : Addr) (orig cd dst src : ConnectionID)
    (v : VersionNumber) (w : World) :
  sessionHandler w !! cd = None →
  let sess := newSession (server w) (sessions_made w) remoteAddr orig cd dst src v in
  ∃ w', createNewSession remoteAddr orig cd dst src v w = (Some sess, w')
    ∧ server w' = server w ∧ sessionQueueLen w' = sessionQueueLen w
    ∧ now w' = now w ∧ rand w' = rand w
    ∧ trace w' = trace w ++ [ev_newSession sess; ev_Add cd sess true;
                             ev_Add src sess (Add src sess (<[cd := sess]> (sessionHandler w))).1;
                             ev_go (go_sess_run sess); ev_go (go_handleNewSession sess)]
    ∧ sessionHandler w' = (Add src sess (<[cd := sess]> (sessionHandler w))).2.
Proof.
  intros Hfresh sess. unfold createNewSession. fold sess.
  unfold Add at 1. cbn [sessionHandler emit incr_sessions_made set_sessionHandler].
  rewrite Hfresh. cbn [negb sessionHandler emit set_sessionHandler].
  destruct (Add src sess (<[cd:=sess]> (sessionHandler w))) as [added h] eqn:Hadd.
  eexists. split; [done|]. simpl. rewrite <- !app_assoc. done.
Qed.

Lemma createNewSession_duplicate (remoteAddr : Addr) (orig cd dst src : ConnectionID)
    (v : VersionNumber) (w : World) :
  is_Some (sessionHandler w !! cd) →
  let sess := newSession (server w) (sessions_made w) remoteAddr orig cd dst src v in
  ∃ w', createNewSession remoteAddr orig cd dst src v w = (None, w')
    ∧ server w' = server w ∧ sessionQueueLen w' = sessionQueueLen w
    ∧ now w' = now w ∧ rand w' = rand w
    ∧ trace w' = trace w ++ [ev_newSession sess; ev_Add cd sess false]
    ∧ sessionHandler w' = sessionHandler w.
Proof.
  intros [s0 Hdup] sess. unfold createNewSession. fold sess.
  unfold Add at 1. cbn [sessionHandler emit incr_sessions_made set_sessionHandler].
  rewrite Hdup. cbn [negb].
  eexists. split; [done|]. simpl. rewrite <- !app_assoc. done.
Qed.

Lemma Add_lookup_mono (id c : ConnectionID) (sess s : quicSession) (h : handlers) :
  h !! c = Some s → (Add id sess h).2 !! c = Some s.
Proof.
  intros Hc. unfold Add. destruct (h !! id) eqn:Hid; [done|]. simpl.
  rewrite lookup_insert_ne; [done|]. congruence.
Qed.

Lemma spawned_handoffs_app (tr1 tr2 : list Event) :
  spawned_handoffs (tr1 ++ tr2) = spawned_handoffs tr1 ++ spawned_handoffs tr2.
Proof. apply omap_app. Qed.

(** What every run of [handleInitialImpl] preserves, and what it changes
    according to its result. *)
Lemma handleInitialImpl_inv (p : receivedPacket) (hdr : wire.Header) (w : World)
    (sess : option quicSession) (err : option error) (w' : World) :
  handleInitialImpl p hdr w = Some (sess, err, w') →
  server w' = server w ∧ sessionQueueLen w' = sessionQueueLen w
  ∧ (∀ c s, sessionHandler w !! c = Some s → sessionHandler w' !! c = Some s)
  ∧ match sess with
    | Some sess =>
      err = None
      ∧ sessionHandler w !! wire.DestConnectionID hdr = None
      ∧ sessionHandler w' !! wire.DestConnectionID hdr = Some sess
      ∧ spawned_handoffs (trace w') = spawned_handoffs (trace w) ++ [sess]
    | None =>
      sessionHandler w' = sessionHandler w
      ∧ spawned_handoffs (trace w') = spawned_handoffs (trace w)
    end.
Proof.
  unfold handleInitialImpl.
  destruct (too_short_connection_ID hdr).
  { intros [= <- <- <-]. done. }
  destruct (decode_token (server w) hdr) as [tok orig].
  destruct (AcceptToken (config (server w))) as [f|]; [simpl|done].
  destruct (negb _).
  { intros [= <- <- <-]. simpl. rewrite spawned_handoffs_app. simpl.
    by rewrite app_nil_r. }
  destruct (MaxAcceptQueueSize <=? sessionQueueLen w)%Z.
  { intros [= <- <- <-]. simpl. rewrite spawned_handoffs_app. simpl.
    by rewrite app_nil_r. }
  destruct GenerateConnectionID as [[connID|e] r'].
  2:{ intros [= <- <- <-]. done. }
  destruct (sessionHandler w !! wire.DestConnectionID hdr) as [s0|] eqn:Hcd.
  - destruct (createNewSession_duplicate (remoteAddr p) orig (wire.DestConnectionID hdr)
                (wire.SrcConnectionID hdr) connID (wire.Version hdr) (set_rand r' w))
      as (w1 & -> & Hs & Hq & _ & _ & Htr & Hh); [by eexists|].
    intros [= <- <- <-]. simpl in *. rewrite Hs, Hq, Hh, Htr.
    rewrite spawned_handoffs_app. simpl. by rewrite app_nil_r.
  - destruct (createNewSession_fresh (remoteAddr p) orig (wire.DestConnectionID hdr)
                (wire.SrcConnectionID hdr) connID (wire.Version hdr) (set_rand r' w))
      as (w1 & -> & Hs & Hq & _ & _ & Htr & Hh); [done|].
    intros [= <- <- <-]. simpl in *. rewrite Hs, Hq, Hh, Htr.
    split; [done|]. split; [done|]. split; [|split; [done|split; [done|split]]].
    + intros c s Hc. apply Add_lookup_mono.
      rewrite lookup_insert_ne; [done|]. congruence.
    + apply Add_lookup_mono, lookup_insert_eq.
    + rewrite !spawned_handoffs_app. simpl. by rewrite app_nil_r.
Qed.

Lemma handlePacketImpl_inv (p : receivedPacket) (w : World) (b : bool) (w' : World) :
  handlePacketImpl p w = Some (b, w') →
  server w' = server w ∧ sessionQueueLen w' = sessionQueueLen w
  ∧ (∀ c s, sessionHandler w !! c = Some s → sessionHandler w' !! c = Some s)
  ∧ if b then
      ∃ hdr sess,
        ParsePacket (data p) (ConnectionIDLength (config (server w))) = Ok hdr
        ∧ sessionHandler w !! wire.DestConnectionID hdr = None
        ∧ sessionHandler w' !! wire.DestConnectionID hdr = Some sess
        ∧ spawned_handoffs (trace w') = spawned_handoffs (trace w) ++ [sess]
    else
      sessionHandler w' = sessionHandler w
      ∧ spawned_handoffs (trace w') = spawned_handoffs (trace w).
Proof.
  unfold handlePacketImpl.
  destruct (_ <? _)%Z; [by intros [= <- <-]|].
  destruct ParsePacket as [hdr|e] eqn:Hparse; [|by intros [= <- <-]].
  destruct (negb (wire.IsLongHeader hdr)); [by intros [= <- <-]|].
  destruct (negb (IsSupportedVersion _ _)).
  { intros [= <- <-]. simpl. rewrite spawned_handoffs_app. simpl.
    by rewrite app_nil_r. }
  destruct (_ && _); [by intros [= <- <-]|].
  destruct (handleInitialImpl p hdr w) as [[[sess err] w1]|] eqn:Hinit; [simpl|done].
  apply handleInitialImpl_inv in Hinit as (Hs & Hq & Hmono & Hres).
  destruct sess as [sess|].
  - destruct Hres as (-> & Hnone & Hsome & Hsp). intros [= <- <-].
    split; [done|]. split; [done|]. split; [done|]. by exists hdr, sess.
  - destruct err; intros [= <- <-]; done.
Qed.





End server_theorems.

(** * Properties of the configuration and of [listen] *)

Section listen_theorems.
Context `{!protocol_pkg, !wire_pkg, !handshake_pkg, !multiplexer_pkg}.

Lemma alloc_fresh (c : Config) (h : heap) :
  h !! (alloc c h).1 = None
  ∧ (alloc c h).2 !! (alloc c h).1 = Some c
  ∧ (∀ l, is_Some (h !! l) → (alloc c h).2 !! l = h !! l).
Proof.
  unfold alloc. simpl.
  assert (h !! fresh (dom h) = None) as Hfresh.
  { apply not_elem_of_dom, is_fresh. }
  split; [done|]. split; [apply lookup_insert_eq|].
  intros l [c0 Hl]. apply lookup_insert_ne. congruence.
Qed.

Lemma populateConfig_alloc (config : option loc) (h : heap) (c : Config) :
  pointee config h = Some c →
  ∃ l1 h1,
    populateConfig config h = Some (l1, h1)
    ∧ h1 !! l1 = Some (populateConfig_value c)
    ∧ h !! l1 = None
    ∧ (∀ l, is_Some (h !! l) → h1 !! l = h !! l).
Proof.
  intros Hc. unfold populateConfig. destruct config as [l|]; simpl in Hc.
  - rewrite Hc. simpl.
    destruct (alloc_fresh (populateConfig_value c) h) as (Hnew & Hval & Hold).
    destruct (alloc (populateConfig_value c) h) as [l1 h1]. by exists l1, h1.
  - injection Hc as <-.
    destruct (alloc_fresh Config_zero h) as (Hnew0 & Hval0 & Hold0).
    destruct (alloc Config_zero h) as [l0 h0]. simpl in *. rewrite Hval0. simpl.
    destruct (alloc_fresh (populateConfig_value Config_zero) h0) as (Hnew & Hval & Hold).
    destruct (alloc (populateConfig_value Config_zero) h0) as [l1 h1]. simpl in *.
    exists l1, h1. split; [done|]. split; [done|]. split.
    + destruct (h !! l1) eqn:Hl1; [|done].
      rewrite <- Hold0 in Hl1 by (by eexists). congruence.
    + intros l Hl. rewrite Hold, Hold0; [done..|]. by rewrite Hold0.
Qed.

(** The two assignments of [populateServerConfig], on the value. *)
Lemma populateServerConfig_alloc (config : option loc) (h : heap) (c : Config) :
  pointee config h = Some c →
  ∃ l1 h1 c',
    populateServerConfig config h = Some (l1, h1)
    ∧ h1 !! l1 = Some c'
    ∧ h !! l1 = None
    ∧ (∀ l, is_Some (h !! l) → h1 !! l = h !! l)
    ∧ ConnectionIDLength c'
      = (if bool_decide (ConnectionIDLength c = 0%Z) then DefaultConnectionIDLength
         else ConnectionIDLength c)
    ∧ AcceptToken c' = Some (default defaultAcceptToken (AcceptToken c))
    ∧ set_AcceptToken (AcceptToken c) (set_ConnectionIDLength (ConnectionIDLength c) c')
      = populateConfig_value c.
Proof.
  intros Hc. unfold populateServerConfig.
  destruct (populateConfig_alloc config h c Hc) as (l1 & h1 & -> & Hval & Hnew & Hold).
  simpl. rewrite Hval. simpl.
  set (v := populateConfig_value c) in *.
  assert (ConnectionIDLength v = ConnectionIDLength c) as Hlen by done.
  assert (AcceptToken v = AcceptToken c) as Hacc by done.
  assert (∀ l c1 (h2 : heap), is_Some (h !! l) → <[l1:=c1]> h2 !! l = h2 !! l) as Hne.
  { intros l c1 h2 [c0 Hl]. apply lookup_insert_ne. congruence. }
  destruct (bool_decide (ConnectionIDLength c = 0%Z)) eqn:Hzero.
  - rewrite lookup_insert_eq. simpl. rewrite ?Hacc.
    destruct (AcceptToken c) as [f|] eqn:Hf.
    + eexists _, _, _. split; [done|]. rewrite lookup_insert_eq.
      split; [done|]. split; [done|]. split; [|split; [done|split; [done|]]].
      * intros l Hl. rewrite Hne by done. by apply Hold.
      * destruct c; simpl in *. subst. done.
    + eexists _, _, _. split; [done|]. rewrite lookup_insert_eq.
      split; [done|]. split; [done|]. split; [|split; [done|split; [done|]]].
      * intros l Hl. rewrite !Hne by done. by apply Hold.
      * destruct c; simpl in *. subst. done.
  - rewrite Hval. simpl. rewrite ?Hacc.
    destruct (AcceptToken c) as [f|] eqn:Hf.
    + eexists _, _, _. split; [done|]. rewrite Hval.
      split; [done|]. split; [done|]. split; [done|].
      split; [done|]. split; [done|].
      destruct c; simpl in *. subst. done.
    + eexists _, _, _. split; [done|]. rewrite lookup_insert_eq.
      split; [done|]. split; [done|]. split; [|split; [done|split; [done|]]].
      * intros l Hl. rewrite !Hne by done. by apply Hold.
      * destruct c; simpl in *. subst. done.
Qed.

(** C9: for every configuration passed in (nil stands for the zero
    configuration) [populateServerConfig] returns a pointer to a new
    [Config]: the location was not in use, every [Config] that was in the
    heap, the caller's included, is left as it was, and the new value is
    defaulted as the spec says. *)
Theorem populateServerConfig_defaults (config : option loc) (h : heap) (c : Config) :
  pointee config h = Some c →
  ∃ l' h' c',
    populateServerConfig config h = Some (l', h')
    ∧ h' !! l' = Some c'
    ∧ h !! l' = None
    ∧ (∀ l, is_Some (h !! l) → h' !! l = h !! l)
    ∧ spec_defaulted c c'.
Proof.
  intros Hc.
  destruct (populateServerConfig_alloc config h c Hc)
    as (l1 & h1 & c' & Hrun & Hval & Hnew & Hold & Hlen & Hacc & Hrest).
  exists l1, h1, c'. split; [done|]. split; [done|]. split; [done|]. split; [done|].
  assert (∀ (P : Prop) `{!Decision P} {X} (a b : X),
            (P → (if bool_decide P then a else b) = a)
            ∧ (¬ P → (if bool_decide P then a else b) = b)) as Hif.
  { intros P ? X a b. split; intros HP.
    - by rewrite bool_decide_eq_true_2.
    - by rewrite bool_decide_eq_false_2. }
  pose proof (f_equal Versions Hrest) as Hv.
  pose proof (f_equal HandshakeTimeout Hrest) as Hh.
  pose proof (f_equal MaxIdleTimeout Hrest) as Hi.
  pose proof (f_equal MaxReceiveStreamFlowControlWindow Hrest) as Hs.
  pose proof (f_equal MaxReceiveConnectionFlowControlWindow Hrest) as Hcw.
  pose proof (f_equal MaxIncomingStreams Hrest) as Hm.
  pose proof (f_equal MaxIncomingUniStreams Hrest) as Hu.
  pose proof (f_equal KeepAlive Hrest) as Hk.
  pose proof (f_equal StatelessResetKey Hrest) as Hk1.
  pose proof (f_equal TokenStore Hrest) as Hk2.
  pose proof (f_equal QuicTracer Hrest) as Hk3.
  simpl in Hv, Hh, Hi, Hs, Hcw, Hm, Hu, Hk, Hk1, Hk2, Hk3.
  unfold spec_defaulted.
  rewrite Hv, Hh, Hi, Hs, Hcw, Hm, Hu, Hk, Hk1, Hk2, Hk3, Hlen, Hacc.
  repeat split.
  - intros ->. done.
  - intros Hne. apply Hif. by destruct (Versions c).
  - intros ->. done.
  - intros Hne. by apply Hif.
  - intros ->. done.
  - intros Hne. by apply Hif.
  - intros ->. done.
  - intros Hne. by apply Hif.
  - intros ->. done.
  - intros Hne. by apply Hif.
  - intros ->. done.
  - intros Hne. by apply Hif.
  - intros ->. done.
  - intros f ->. done.
  - intros Hneg. rewrite bool_decide_eq_false_2 by lia.
    apply Z.ltb_lt in Hneg. by rewrite Hneg.
  - intros ->. done.
  - intros Hpos. rewrite bool_decide_eq_false_2 by lia.
    assert ((MaxIncomingStreams c <? 0)%Z = false) as -> by (apply Z.ltb_ge; lia). done.
  - intros Hneg. rewrite bool_decide_eq_false_2 by lia.
    apply Z.ltb_lt in Hneg. by rewrite Hneg.
  - intros ->. done.
  - intros Hpos. rewrite bool_decide_eq_false_2 by lia.
    assert ((MaxIncomingUniStreams c <? 0)%Z = false) as -> by (apply Z.ltb_ge; lia). done.
Qed.


Lemma first_invalid_version_Some (versions : list VersionNumber) (v : VersionNumber) :
  first_invalid_version versions = Some v → v ∈ versions ∧ IsValidVersion v = false.
Proof.
  unfold first_invalid_version. intros Hhead.
  apply head_Some_elem_of in Hhead. by apply list_elem_of_filter in Hhead as [? ?].
Qed.

Lemma first_invalid_version_None (versions : list VersionNumber) :
  first_invalid_version versions = None →
  Forall (λ v, IsValidVersion v = true) versions.
Proof.
  unfold first_invalid_version. intros Hhead.
  apply head_None in Hhead. apply Forall_forall. intros v Hv.
  destruct (IsValidVersion v) eqn:Hvalid; [done|].
  assert (v ∈ filter (λ v, IsValidVersion v = false) versions) as Hin
    by (by apply list_elem_of_filter).
  rewrite Hhead in Hin. by apply not_elem_of_nil in Hin.
Qed.

(** C8, as the code has it: [listen] returns the error "quic: tls.Config
    not set" for a nil [tls.Config], and for a non-nil one it returns an
    error that names a version when some version of the defaulted
    configuration [c'] is not valid.  A listener is returned only for a
    non-nil [tls.Config] and a configuration all of whose versions are
    valid; it has an empty accept queue and its intake task has been
    started.  [listen] does not look at [NextProtos]. *)
Theorem listen_checks_configuration (conn : nat) (tls : option TLSConfig)
    (cfg : option loc) (acceptEarly : bool) (h : heap) (now : Z) (r : Rand)
    (c : Config) :
  pointee cfg h = Some c →
  ∃ res h' l1 h1 c',
    listen conn tls cfg acceptEarly h now r = Some (res, h')
    ∧ populateServerConfig cfg h = Some (l1, h1) ∧ h1 !! l1 = Some c'
    ∧ (tls = None → res = Err (errors_New "quic: tls.Config not set"))
    ∧ (tls ≠ None → (∃ v, v ∈ Versions c' ∧ IsValidVersion v = false) →
       ∃ v, res = Err (ErrInvalidVersion v) ∧ v ∈ Versions c' ∧ IsValidVersion v = false)
    ∧ (∀ w, res = Ok w →
       ∃ tls', tls = Some tls'
         ∧ tlsConf (server w) = tls'
         ∧ config (server w) = c'
         ∧ Forall (λ v, IsValidVersion v = true) (Versions c')
         ∧ trace w = [ev_go go_run; ev_SetServer]
         ∧ sessionQueueLen w = 0%Z).
Proof.
  intros Hc. unfold listen.
  destruct (populateServerConfig_alloc cfg h c Hc)
    as (l1 & h1 & c' & Hrun & Hval & _).
  destruct tls as [tls'|].
  2:{ eexists _, _, l1, h1, c'. by repeat split. }
  rewrite Hrun. simpl. rewrite Hval. simpl.
  destruct (first_invalid_version (Versions c')) as [v|] eqn:Hfirst.
  { apply first_invalid_version_Some in Hfirst as [? ?].
    eexists _, _, l1, h1, c'. repeat split; try done. intros _ _. by exists v. }
  pose proof (first_invalid_version_None _ Hfirst) as Hall.
  assert (¬ ∃ v, v ∈ Versions c' ∧ IsValidVersion v = false) as Hno.
  { intros (v & Hin & Hinv). rewrite Forall_forall in Hall.
    specialize (Hall v Hin). congruence. }
  destruct AddConn as [sh|e].
  2:{ eexists _, _, l1, h1, c'. repeat split; try done. }
  destruct (NewTokenGenerator r) as [[tg|e] r'].
  2:{ eexists _, _, l1, h1, c'. repeat split; try done. }
  eexists _, _, l1, h1, c'. repeat split; try done.
  intros w [= <-]. exists tls'. by repeat split.
Qed.

End listen_theorems.

(** * Properties of the accept queue and of the life cycle *)

Section listener_theorems.
Context `{!protocol_pkg, !wire_pkg, !handshake_pkg, !multiplexer_pkg}.

Lemma wrap32_add (a d : Z) : wrap32 (wrap32 a + d) = wrap32 (a + d).
Proof.
  unfold wrap32. f_equal.
  replace ((a + 2 ^ 31) mod 2 ^ 32 - 2 ^ 31 + d + 2 ^ 31)%Z
    with ((a + 2 ^ 31) mod 2 ^ 32 + d)%Z by lia.
  rewrite Zplus_mod_idemp_l. f_equal. lia.
Qed.

Lemma wrap32_small (a : Z) : (- 2 ^ 31 ≤ a < 2 ^ 31)%Z → wrap32 a = a.
Proof. intros Ha. unfold wrap32. rewrite Z.mod_small; lia. Qed.

(** Replacing one entry of the queue changes the number of queued sessions
    by the difference of the two entries. *)
Lemma queued_insert (hs : list (quicSession * progress)) (i : nat)
    (sess : quicSession) (from to : progress) :
  hs !! i = Some (sess, from) →
  length (filter (λ e, in_queue e.2 = true) (<[i := (sess, to)]> hs))
  + (if in_queue from then 1 else 0)
  = length (filter (λ e, in_queue e.2 = true) hs) + (if in_queue to then 1 else 0).
Proof.
  revert i. induction hs as [|[s pc] hs IH]; intros i Hi; [done|].
  destruct i as [|i]; simpl in *.
  - injection Hi as -> ->. rewrite !filter_cons. simpl.
    destruct (in_queue from), (in_queue to); simpl;
      repeat (case_decide; try done); simpl; lia.
  - specialize (IH i Hi). rewrite !filter_cons. simpl.
    case_decide; simpl; lia.
Qed.

Lemma move_inv (i : nat) (from to : progress) (l l' : Listener) :
  move i from to l = Some l' →
  world l' = world l ∧ closed l' = closed l ∧ serverError l' = serverError l
  ∧ errorChan_closed l' = errorChan_closed l
  ∧ queued l' + (if in_queue from then 1 else 0)
    = queued l + (if in_queue to then 1 else 0).
Proof.
  unfold move. destruct (handoff l !! i) as [[sess pc]|] eqn:Hi; [simpl|done].
  case_bool_decide as Hpc; [|done]. subst pc. intros [= <-].
  repeat split. unfold queued. simpl. by apply queued_insert.
Qed.

Lemma run_packet_inv (p : receivedPacket) (w w' : World) :
  run_packet p w = Some w' →
  sessionQueueLen w' = sessionQueueLen w.
Proof.
  unfold run_packet.
  destruct (handlePacketImpl p w) as [[b w1]|] eqn:Hp; [simpl|done].
  apply handlePacketImpl_inv in Hp as (_ & Hq & _). intros [= <-]. by destruct b.
Qed.

Lemma queued_app_waiting (hs : list (quicSession * progress)) (new : list quicSession) :
  length (filter (λ e, in_queue e.2 = true) (hs ++ ((λ sess, (sess, waiting)) <$> new)))
  = length (filter (λ e, in_queue e.2 = true) hs).
Proof.
  rewrite filter_app, length_app.
  assert (filter (λ e : quicSession * progress, in_queue e.2 = true)
            ((λ sess, (sess, waiting)) <$> new) = []) as ->; [|simpl; lia].
  induction new as [|s new IH]; [done|].
  rewrite fmap_cons, filter_cons_False; done.
Qed.

(** The counter follows the queue along every step. *)
Lemma step_counter (lab : Label) (l l' : Listener) :
  step lab l = Some l' →
  sessionQueueLen (world l) = wrap32 (Z.of_nat (queued l)) →
  sessionQueueLen (world l') = wrap32 (Z.of_nat (queued l')).
Proof.
  intros Hstep Hinv. destruct lab as [s|t|i s|i|i| |e]; simpl in Hstep.
  - unfold run in Hstep.
    destruct s as [|q| |]; destruct (intake l) as [| |p|]; try done.
    + by injection Hstep as <-.
    + by injection Hstep as <-.
    + destruct (errorChan_closed l); [|done]. by injection Hstep as <-.
    + destruct (run_packet p (world l)) as [w|] eqn:Hp; [simpl in Hstep|done].
      injection Hstep as <-. apply run_packet_inv in Hp.
      unfold queued. simpl. rewrite queued_app_waiting. by rewrite Hp.
  - destruct (_ <=? _)%Z; [|done]. by injection Hstep as <-.
  - destruct s; simpl in Hstep.
    + destruct (move i waiting offered l) as [l1|] eqn:Hm; [|done].
      injection Hstep as <-. apply move_inv in Hm as (Hw & _ & _ & _ & Hq).
      simpl in *. rewrite Hw, Hinv, wrap32_add. f_equal. unfold queued in *. simpl. lia.
    + apply move_inv in Hstep as (Hw & _ & _ & _ & Hq). simpl in Hq.
      rewrite Hw, Hinv. f_equal. lia.
    + apply move_inv in Hstep as (Hw & _ & _ & _ & Hq). simpl in Hq.
      rewrite Hw, Hinv. f_equal. lia.
    + destruct (move i withdrawing gone l) as [l1|] eqn:Hm; [|done].
      injection Hstep as <-. apply move_inv in Hm as (Hw & _ & _ & _ & Hq).
      simpl in *. rewrite Hw, Hinv, wrap32_add. f_equal. unfold queued in *. simpl. lia.
  - apply move_inv in Hstep as (Hw & _ & _ & _ & Hq). simpl in Hq.
    rewrite Hw, Hinv. f_equal. lia.
  - unfold accept_decrement in Hstep.
    destruct (move i received accepted l) as [l1|] eqn:Hm; [|done].
    injection Hstep as <-. apply move_inv in Hm as (Hw & _ & _ & _ & Hq).
    simpl in *. rewrite Hw, Hinv, wrap32_add. f_equal. unfold queued in *. simpl. lia.
  - injection Hstep as <-. unfold Close.
    destruct (closed l); [done|].
    by destruct (createdPacketConn _).
  - injection Hstep as <-. unfold setCloseError. by destruct (closed l).
Qed.

Lemma listen_Ok_inv conn tls cfg acceptEarly h now r w h' :
  listen conn tls cfg acceptEarly h now r = Some (Ok w, h') →
  sessionQueueLen w = 0%Z ∧ trace w = [ev_go go_run; ev_SetServer].
Proof.
  unfold listen. destruct tls as [tls'|]; [|done].
  destruct populateServerConfig as [[l1 h1]|]; [simpl|done].
  destruct (h1 !! l1) as [c'|]; [simpl|done].
  destruct first_invalid_version; [done|].
  destruct AddConn; [|done].
  destruct NewTokenGenerator as [[tg|e] r']; [|done].
  by intros [= <- <-].
Qed.

Lemma handlePacketImpl_admits_below_max (p : receivedPacket) (w w' : World) :
  handlePacketImpl p w = Some (true, w') →
  (sessionQueueLen w < MaxAcceptQueueSize)%Z.
Proof.
  unfold handlePacketImpl.
  destruct (_ <? _)%Z; [done|].
  destruct ParsePacket as [hdr|e]; [|done].
  destruct (negb (wire.IsLongHeader hdr)); [done|].
  destruct (negb (IsSupportedVersion _ _)); [done|].
  destruct (_ && _); [done|].
  unfold handleInitialImpl.
  destruct (too_short_connection_ID hdr); [done|].
  destruct (decode_token (server w) hdr) as [tok orig].
  destruct (AcceptToken (config (server w))) as [f|]; [simpl|done].
  destruct (negb _); [done|].
  destruct (MaxAcceptQueueSize <=? sessionQueueLen w)%Z eqn:Hq; [done|].
  intros _. by apply Z.leb_gt in Hq.
Qed.

(** C6, as the code has it: in every reachable state the counter, an
    [int32], is the number of sessions that have been offered on the
    session queue (their task has incremented the counter) and that are
    neither consumed by [accept] nor withdrawn (the matching decrement of
    l. 305 or l. 513 has not been executed); and a session is created only
    when the counter that the intake task loads is below
    [MaxAcceptQueueSize]. *)
Theorem counter_tracks_queue (l : Listener) :
  reachable l →
  sessionQueueLen (world l) = wrap32 (Z.of_nat (queued l))
  ∧ ((Z.of_nat (queued l) < 2 ^ 31)%Z → sessionQueueLen (world l) = Z.of_nat (queued l))
  ∧ (∀ p w', handlePacketImpl p (world l) = Some (true, w') →
       (sessionQueueLen (world l) < MaxAcceptQueueSize)%Z).
Proof.
  intros Hreach.
  assert (sessionQueueLen (world l) = wrap32 (Z.of_nat (queued l))) as Hinv.
  { induction Hreach as [conn tls cfg acceptEarly h now r w h' Hlisten
                          |conn tls cfg acceptEarly h now r w h' Hlisten
                          |l lab l' _ IH Hstep].
    - apply listen_Ok_inv in Hlisten as [Hzero _]. simpl. by rewrite Hzero.
    - apply listen_Ok_inv in Hlisten as [Hzero _]. simpl. by rewrite Hzero.
    - by apply (step_counter lab l l'). }
  split; [done|]. split.
  - intros Hsmall. rewrite Hinv. apply wrap32_small. lia.
  - intros p w'. apply handlePacketImpl_admits_below_max.
Qed.


(** ** The life cycle *)

Lemma Close_inv (l : Listener) :
  closed (Close l).2 = true
  ∧ handoff (Close l).2 = handoff l
  ∧ (closed l = true → (Close l).2 = l)
  ∧ (closed l = false →
     errorChan_closed (Close l).2 = true
     ∧ serverError (Close l).2
       = Some (default (errors_New "server closed") (serverError l))).
Proof.
  unfold Close. destruct (closed l) eqn:Hclosed; [done|].
  destruct (createdPacketConn _); simpl; by destruct (serverError l).
Qed.

(** Every step keeps the error channel closed exactly when the listener
    is closed, and a closed listener stays closed with the same error. *)
Lemma step_lifecycle (lab : Label) (l l' : Listener) :
  step lab l = Some l' →
  (closed l = errorChan_closed l → closed l' = errorChan_closed l')
  ∧ (closed l = true → closed l' = true ∧ serverError l' = serverError l).
Proof.
  intros Hstep. destruct lab as [s|t|i s|i|i| |e]; simpl in Hstep.
  - unfold run in Hstep.
    destruct s as [|q| |]; destruct (intake l) as [| |p|]; try done.
    + by injection Hstep as <-.
    + by injection Hstep as <-.
    + destruct (errorChan_closed l) eqn:Hch; [|done].
      injection Hstep as <-. simpl. by rewrite Hch.
    + destruct (run_packet p (world l)) as [w|]; [simpl in Hstep|done].
      by injection Hstep as <-.
  - destruct (_ <=? _)%Z; [|done]. by injection Hstep as <-.
  - destruct s; simpl in Hstep.
    + destruct (move i waiting offered l) as [l1|] eqn:Hm; [|done].
      injection Hstep as <-. apply move_inv in Hm as (_ & Hc & He & Hch & _).
      simpl. by rewrite Hc, He, Hch.
    + apply move_inv in Hstep as (_ & Hc & He & Hch & _). by rewrite Hc, He, Hch.
    + apply move_inv in Hstep as (_ & Hc & He & Hch & _). by rewrite Hc, He, Hch.
    + destruct (move i withdrawing gone l) as [l1|] eqn:Hm; [|done].
      injection Hstep as <-. apply move_inv in Hm as (_ & Hc & He & Hch & _).
      simpl. by rewrite Hc, He, Hch.
  - apply move_inv in Hstep as (_ & Hc & He & Hch & _). by rewrite Hc, He, Hch.
  - unfold accept_decrement in Hstep.
    destruct (move i received accepted l) as [l1|] eqn:Hm; [|done].
    injection Hstep as <-. apply move_inv in Hm as (_ & Hc & He & Hch & _).
    simpl. by rewrite Hc, He, Hch.
  - injection Hstep as <-.
    destruct (Close_inv l) as (Hc & _ & Hsame & Hnew).
    destruct (closed l) eqn:Hclosed.
    + rewrite Hsame by done. by rewrite Hclosed.
    + destruct Hnew as [Hch _]; [done|]. by rewrite Hc, Hch.
  - injection Hstep as <-. unfold setCloseError.
    destruct (closed l) eqn:Hclosed; [by rewrite Hclosed|done].
Qed.

Lemma reachable_errorChan (l : Listener) :
  reachable l → closed l = errorChan_closed l.
Proof.
  induction 1 as [| | l lab l' _ IH Hstep]; [done..|].
  by apply (step_lifecycle lab l l').
Qed.

Lemma reachable_steps (labs : list Label) (l l' : Listener) :
  reachable l → steps labs l = Some l' → reachable l'.
Proof.
  revert l. induction labs as [|lab labs IH]; intros l Hreach; simpl.
  { by intros [= <-]. }
  destruct (step lab l) as [l1|] eqn:Hstep; [simpl|done].
  apply IH. by eapply reachable_step.
Qed.

Lemma steps_closed (labs : list Label) (l l' : Listener) :
  steps labs l = Some l' → closed l = true →
  closed l' = true ∧ serverError l' = serverError l.
Proof.
  revert l. induction labs as [|lab labs IH]; intros l; simpl.
  { by intros [= <-]. }
  destruct (step lab l) as [l1|] eqn:Hstep; [simpl|done].
  intros Hrest Hclosed. apply step_lifecycle in Hstep as [_ Hkeep].
  destruct (Hkeep Hclosed) as [Hc1 He1]. rewrite <- He1. by apply IH.
Qed.

(** C7, as the code has it: once [Close] has returned, the listener stays
    closed, its error channel is closed and the stored [serverError] does
    not change any more ([Close] has set it to "server closed" unless an
    error was stored before).  From then on the error channel case of the
    [select] of [accept] can always proceed, so no call blocks; whenever a
    call returns through that case it returns no session and the stored
    [serverError]; and a call whose context is not done, made while no
    session is on offer, can only return that way. *)
Theorem accept_after_Close (l : Listener) (err : option error) (l1 : Listener)
    (labs : list Label) (l2 : Listener) :
  reachable l →
  Close l = (err, l1) →
  steps labs l1 = Some l2 →
  closed l2 = true ∧ errorChan_closed l2 = true ∧ serverError l2 = serverError l1
  ∧ (closed l = false →
     serverError l1 = Some (default (errors_New "server closed") (serverError l)))
  ∧ (∀ ctx, accept ctx case_errorChan l2 = Some (None, serverError l1, l2))
  ∧ (∀ ctx c sess e l3,
       accept ctx c l2 = Some (sess, e, l3) →
       (c = case_errorChan → sess = None ∧ e = serverError l1 ∧ l3 = l2)
       ∧ (ctx = None →
          (∀ i s, handoff l2 !! i ≠ Some (s, offered)) →
          c = case_errorChan)).
Proof.
  intros Hreach HClose Hsteps.
  assert (l1 = (Close l).2) as Hl1 by (by rewrite HClose).
  destruct (Close_inv l) as (Hc1 & _ & Hsame & Hnew). rewrite <- Hl1 in *.
  assert (reachable l1) as Hreach1.
  { apply (reachable_step l L_Close). done. simpl. by rewrite Hl1. }
  pose proof (reachable_steps labs l1 l2 Hreach1 Hsteps) as Hreach2.
  destruct (steps_closed labs l1 l2 Hsteps Hc1) as [Hc2 He2].
  pose proof (reachable_errorChan l2 Hreach2) as Hch2. rewrite Hc2 in Hch2.
  split; [done|]. split; [done|]. split; [done|]. split.
  { intros Hopen. by destruct (Hnew Hopen). }
  split.
  { intros ctx. simpl. by rewrite <- Hch2, He2. }
  intros ctx c sess e l3 Haccept. split.
  - intros ->. simpl in Haccept. rewrite <- Hch2 in Haccept.
    injection Haccept as <- <- <-. by rewrite He2.
  - intros -> Hnone. destruct c as [|i|]; [done| |done].
    simpl in Haccept.
    destruct (handoff l2 !! i) as [[s pc]|] eqn:Hi; [simpl in Haccept|done].
    unfold accept_receive, move in Haccept. rewrite Hi in Haccept. simpl in Haccept.
    case_bool_decide as Hpc; [|done]. subst pc. by destruct (Hnone i s).
Qed.

End listener_theorems.

(** * The DER codec round-trips *)

Module der_facts.
Import der.

Lemma Z_of_byte_range (b : byte) : (0 ≤ Z_of_byte b < 256)%Z.
Proof.
  unfold Z_of_byte. pose proof (Byte.to_N_bounded b). lia.
Qed.

Lemma Z_of_byte_of_Z (z : Z) : Z_of_byte (byte_of_Z z) = (z mod 256)%Z.
Proof.
  unfold Z_of_byte, byte_of_Z.
  pose proof (Z.mod_pos_bound z 256 ltac:(lia)) as Hrange.
  destruct (Byte.of_N (Z.to_N (z mod 256))) as [b|] eqn:Hb.
  - apply Byte.to_of_N in Hb. rewrite Hb. lia.
  - apply Byte.of_N_None_iff in Hb. lia.
Qed.

Lemma byte_of_Z_of_byte (b : byte) : byte_of_Z (Z_of_byte b) = b.
Proof.
  unfold Z_of_byte, byte_of_Z.
  pose proof (Byte.to_N_bounded b).
  rewrite Z.mod_small by lia. rewrite N2Z.id. by rewrite Byte.of_to_N.
Qed.

Lemma from_digits_snoc (bs : list byte) (b : byte) :
  from_digits (bs ++ [b]) = (from_digits bs * 256 + Z_of_byte b)%Z.
Proof. unfold from_digits. by rewrite fold_left_app. Qed.

Lemma from_digits_range (bs : list byte) :
  (0 ≤ from_digits bs < 256 ^ Z.of_nat (length bs))%Z.
Proof.
  induction bs as [|b bs IH] using rev_ind; [by vm_compute|].
  rewrite from_digits_snoc, length_app. simpl.
  replace (Z.of_nat (length bs + 1)) with (Z.succ (Z.of_nat (length bs))) by lia.
  rewrite Z.pow_succ_r by lia. pose proof (Z_of_byte_range b). lia.
Qed.


(** *** Lengths *)

Lemma digits_value (fuel : nat) (n : Z) :
  (0 ≤ n < 2 ^ Z.of_nat fuel)%Z → from_digits (digits fuel n) = n.
Proof.
  revert n. induction fuel as [|fuel IH]; intros n Hn.
  - simpl in *. assert (n = 0%Z) as -> by lia. done.
  - simpl. destruct (n <=? 0)%Z eqn:Hz.
    + apply Z.leb_le in Hz. assert (n = 0%Z) as -> by lia. done.
    + apply Z.leb_gt in Hz. rewrite from_digits_snoc, Z_of_byte_of_Z, IH.
      * pose proof (Z.div_mod n 256 ltac:(lia)). lia.
      * rewrite Nat2Z.inj_succ, Z.pow_succ_r in Hn by lia.
        split; [apply Z.div_pos; lia|].
        apply Z.div_lt_upper_bound; lia.
Qed.

Lemma digits_length (fuel : nat) (n : Z) (k : nat) :
  (n < 256 ^ Z.of_nat k)%Z → length (digits fuel n) ≤ k.
Proof.
  revert n k. induction fuel as [|fuel IH]; intros n k Hn; [simpl; lia|].
  simpl. destruct (n <=? 0)%Z eqn:Hz; [simpl; lia|].
  apply Z.leb_gt in Hz. rewrite length_app. simpl.
  destruct k as [|k]; [simpl in Hn; lia|].
  assert (length (digits fuel (n / 256)) ≤ k); [|lia].
  apply IH. rewrite Nat2Z.inj_succ, Z.pow_succ_r in Hn by lia.
  apply Z.div_lt_upper_bound; lia.
Qed.

Lemma parse_long_length_app (k1 k2 : nat) (l1 l2 : list byte) (acc v : Z) :
  parse_long_length k1 (l1 ++ l2) acc = Some (v, l2) →
  length l1 = k1 →
  parse_long_length (k1 + k2) (l1 ++ l2) acc = parse_long_length k2 l2 v.
Proof.
  revert l1 acc. induction k1 as [|k1 IH]; intros l1 acc Hparse Hlen.
  - destruct l1; [|done]. simpl in *. by injection Hparse as ->.
  - destruct l1 as [|b l1]; [done|]. simpl in *.
    destruct (2 ^ 23 <=? acc)%Z; [done|].
    destruct (acc * 256 + Z_of_byte b =? 0)%Z; [done|].
    apply IH; [done|lia].
Qed.

Lemma parse_digits (fuel : nat) (n : Z) (rest : list byte) :
  (0 < n < 2 ^ 31)%Z → (n < 2 ^ Z.of_nat fuel)%Z →
  parse_long_length (length (digits fuel n)) (digits fuel n ++ rest) 0 = Some (n, rest).
Proof.
  revert n rest. induction fuel as [|fuel IH]; intros n rest Hn Hfuel; [simpl in Hfuel; lia|].
  simpl. destruct (n <=? 0)%Z eqn:Hz; [apply Z.leb_le in Hz; lia|].
  assert (n / 256 < 2 ^ Z.of_nat fuel)%Z as Hfuel'.
  { rewrite Nat2Z.inj_succ, Z.pow_succ_r in Hfuel by lia.
    apply Z.div_lt_upper_bound; lia. }
  assert (0 ≤ n / 256 < 2 ^ 23)%Z as Hhigh.
  { split; [apply Z.div_pos; lia|]. apply Z.div_lt_upper_bound; lia. }
  pose proof (Z.div_mod n 256 ltac:(lia)) as Hdm.
  assert (parse_long_length 1 ([byte_of_Z n] ++ rest) (n / 256) = Some (n, rest)) as Hlast.
  { simpl. destruct (2 ^ 23 <=? n / 256)%Z eqn:Hbig; [apply Z.leb_le in Hbig; lia|].
    rewrite Z_of_byte_of_Z.
    replace (n / 256 * 256 + n mod 256)%Z with n by lia.
    destruct (n =? 0)%Z eqn:Hn0; [apply Z.eqb_eq in Hn0; lia|]. done. }
  rewrite length_app, <- app_assoc. simpl length.
  destruct (decide (n / 256 = 0)%Z) as [Hzero|Hpos].
  - rewrite Hzero. assert (digits fuel 0 = []) as -> by (by destruct fuel).
    simpl app. simpl length. rewrite Hzero in Hlast. exact Hlast.
  - rewrite (parse_long_length_app _ 1 _ _ 0 (n / 256)); [exact Hlast| |done].
    apply IH; lia.
Qed.

Lemma parse_length_encode (n : nat) (rest : list byte) :
  (Z.of_nat n < 2 ^ 31)%Z →
  parse_length (encode_length n ++ rest) = Some (n, rest).
Proof.
  intros Hn. unfold encode_length.
  destruct (Z.of_nat n <? 128)%Z eqn:Hshort.
  - apply Z.ltb_lt in Hshort. simpl. rewrite Z_of_byte_of_Z, Z.mod_small by lia.
    assert ((Z.of_nat n <? 128)%Z = true) as -> by (apply Z.ltb_lt; lia).
    by rewrite Nat2Z.id.
  - apply Z.ltb_ge in Hshort.
    set (fuel := S (Z.to_nat (Z.log2 (Z.of_nat n)))).
    assert (Z.of_nat n < 2 ^ Z.of_nat fuel)%Z as Hfuel.
    { unfold fuel. rewrite Nat2Z.inj_succ, Z2Nat.id by apply Z.log2_nonneg.
      apply Z.log2_spec. lia. }
    pose proof (digits_length fuel (Z.of_nat n) 4
                  ltac:(change (Z.of_nat 4) with 4%Z; lia)) as Hlen.
    assert (0 < length (digits fuel (Z.of_nat n))) as Hlen0.
    { destruct (digits fuel (Z.of_nat n)) eqn:Hd; [|simpl; lia].
      pose proof (digits_value fuel (Z.of_nat n) ltac:(lia)) as Hv.
      rewrite Hd in Hv. change (from_digits []) with 0%Z in Hv. lia. }
    set (ds := digits fuel (Z.of_nat n)) in *.
    rewrite <- app_comm_cons. unfold parse_length.
    rewrite Z_of_byte_of_Z, Z.mod_small by lia.
    assert ((128 + Z.of_nat (length ds) <? 128)%Z = false) as -> by (apply Z.ltb_ge; lia).
    replace (128 + Z.of_nat (length ds) - 128)%Z with (Z.of_nat (length ds)) by lia.
    assert ((Z.of_nat (length ds) =? 0)%Z = false) as -> by (apply Z.eqb_neq; lia).
    rewrite Nat2Z.id. unfold ds. rewrite parse_digits by lia. simpl.
    assert ((Z.of_nat n <? 128)%Z = false) as -> by (apply Z.ltb_ge; lia).
    by rewrite Nat2Z.id.
Qed.

Lemma encode_length_length (n : nat) :
  (Z.of_nat n < 2 ^ 31)%Z → length (encode_length n) ≤ 5.
Proof.
  intros Hn. unfold encode_length. destruct (_ <? _)%Z; [simpl; lia|].
  pose proof (digits_length (S (Z.to_nat (Z.log2 (Z.of_nat n)))) (Z.of_nat n) 4
                ltac:(change (Z.of_nat 4) with 4%Z; lia)).
  cbn [length]. lia.
Qed.

Lemma parse_element_encode (tag : byte) (contents rest : list byte) :
  (Z.of_nat (length contents) < 2 ^ 31)%Z →
  parse_element tag (element tag contents ++ rest) = Some (contents, rest).
Proof.
  intros Hlen. unfold element. rewrite <- app_comm_cons. unfold parse_element.
  rewrite bool_decide_eq_true_2 by done. cbn [negb].
  rewrite <- app_assoc, parse_length_encode by done. simpl.
  rewrite bool_decide_eq_false_2 by (rewrite length_app; lia).
  by rewrite take_app_length, drop_app_length.
Qed.


(** *** Integers *)

Lemma checkInteger_snoc (bs : list byte) (b : byte) :
  2 ≤ length bs → checkInteger (bs ++ [b]) = checkInteger bs.
Proof. destruct bs as [|b0 [|b1 bs]]; simpl; [lia..|done]. Qed.

Lemma byte_of_Z_eq (z : Z) (b : byte) : byte_of_Z z = b → (z mod 256)%Z = Z_of_byte b.
Proof. intros <-. by rewrite Z_of_byte_of_Z. Qed.

Lemma encode_int_spec (fuel : nat) (i : Z) :
  (- 2 ^ (8 * Z.of_nat (S fuel) - 1) ≤ i < 2 ^ (8 * Z.of_nat (S fuel) - 1))%Z →
  let bs := encode_int fuel i in
  1 ≤ length bs ≤ S fuel
  ∧ from_digits bs = (i mod 2 ^ (8 * Z.of_nat (length bs)))%Z
  ∧ (- 2 ^ (8 * Z.of_nat (length bs) - 1) ≤ i < 2 ^ (8 * Z.of_nat (length bs) - 1))%Z
  ∧ checkInteger bs = true.
Proof.
  assert (∀ j, (-128 ≤ j < 128)%Z →
            1 ≤ length [byte_of_Z j] ≤ 1
            ∧ from_digits [byte_of_Z j] = (j mod 2 ^ (8 * Z.of_nat (length [byte_of_Z j])))%Z
            ∧ (- 2 ^ (8 * Z.of_nat (length [byte_of_Z j]) - 1) ≤ j
               < 2 ^ (8 * Z.of_nat (length [byte_of_Z j]) - 1))%Z
            ∧ checkInteger [byte_of_Z j] = true) as Hone.
  { intros j Hj. simpl length. change (8 * Z.of_nat 1)%Z with 8%Z.
    split; [lia|]. split; [|split; [lia|done]].
    unfold from_digits. simpl. by rewrite Z_of_byte_of_Z. }
  revert i. induction fuel as [|fuel IH]; intros i Hi; cbv zeta.
  { simpl encode_int. change (8 * Z.of_nat 1 - 1)%Z with 7%Z in Hi.
    destruct (Hone i) as (? & ? & ? & ?); [lia|]. done. }
  simpl encode_int.
  destruct ((127 <? i)%Z || (i <? -128)%Z) eqn:Hcond.
  2:{ apply orb_false_iff in Hcond as [H1 H2].
      apply Z.ltb_ge in H1, H2.
      destruct (Hone i) as (? & ? & ? & ?); [lia|]. simpl in *. repeat split; try done; lia. }
  assert ((127 < i)%Z ∨ (i < -128)%Z) as Hout.
  { apply orb_true_iff in Hcond as [H|H]; apply Z.ltb_lt in H; tauto. }
  pose proof (Z.div_mod i 256 ltac:(lia)) as Hdm.
  pose proof (Z.mod_pos_bound i 256 ltac:(lia)) as Hmod.
  assert (- 2 ^ (8 * Z.of_nat (S fuel) - 1) ≤ i / 256 < 2 ^ (8 * Z.of_nat (S fuel) - 1))%Z
    as Hi'.
  { replace (8 * Z.of_nat (S (S fuel)) - 1)%Z with (8 + (8 * Z.of_nat (S fuel) - 1))%Z
      in Hi by lia.
    rewrite Z.pow_add_r in Hi by lia. change (2 ^ 8)%Z with 256%Z in Hi.
    split.
    - apply Z.div_le_lower_bound; lia.
    - apply Z.div_lt_upper_bound; lia. }
  destruct (IH (i / 256)%Z Hi') as (Hlen & Hval & Hrange & Hcheck). cbv zeta in *.
  set (bs := encode_int fuel (i / 256)) in *.
  rewrite length_app. simpl length.
  replace (8 * Z.of_nat (length bs + 1))%Z with (8 + 8 * Z.of_nat (length bs))%Z by lia.
  replace (8 + 8 * Z.of_nat (length bs) - 1)%Z with (8 + (8 * Z.of_nat (length bs) - 1))%Z
    by lia.
  rewrite !Z.pow_add_r by lia. change (2 ^ 8)%Z with 256%Z.
  split; [lia|]. split; [|split].
  - rewrite from_digits_snoc, Hval, Z_of_byte_of_Z.
    rewrite Z.rem_mul_r by lia. lia.
  - lia.
  - destruct (decide (2 ≤ length bs)) as [Hlong|Hshort].
    { by rewrite checkInteger_snoc. }
    destruct bs as [|b0 [|b1 bs']] eqn:Hbs; simpl in Hlen, Hshort; try lia.
    simpl length in *. change (8 * Z.of_nat 1)%Z with 8%Z in *.
    change (2 ^ 8)%Z with 256%Z in Hval. change (2 ^ (8 - 1))%Z with 128%Z in Hrange.
    assert (Z_of_byte b0 = ((i / 256) mod 256)%Z) as Hb0.
    { unfold from_digits in Hval. simpl in Hval. done. }
    simpl. rewrite Z_of_byte_of_Z.
    apply negb_true_iff, orb_false_iff. split; apply andb_false_iff.
    + destruct (decide (b0 = x00)) as [->|Hne].
      * right. apply Z.ltb_ge. change (Z_of_byte x00) with 0%Z in Hb0.
        assert (i / 256 = 0)%Z as Hq.
        { destruct (decide (0 ≤ i / 256)%Z).
          - rewrite Z.mod_small in Hb0; lia.
          - assert ((i / 256) mod 256 = i / 256 + 256)%Z; [|lia].
            symmetry. apply (Z.mod_unique_pos _ _ (-1)); lia. }
        rewrite Z.mod_small; lia.
      * left. by apply bool_decide_eq_false.
    + destruct (decide (b0 = xff)) as [->|Hne].
      * right. apply Z.leb_gt. change (Z_of_byte xff) with 255%Z in Hb0.
        assert (i / 256 = -1)%Z as Hq.
        { destruct (decide (0 ≤ i / 256)%Z).
          - rewrite Z.mod_small in Hb0; lia.
          - assert ((i / 256) mod 256 = i / 256 + 256)%Z; [|lia].
            symmetry. apply (Z.mod_unique_pos _ _ (-1)); lia. }
        assert (i mod 256 = i + 256)%Z; [|lia].
        symmetry. apply (Z.mod_unique_pos _ _ (-1)); lia.
      * left. by apply bool_decide_eq_false.
Qed.

Lemma parseInt64_encode (i : Z) :
  int64 i → parseInt64 (encode_int 7 i) = Some i ∧ length (encode_int 7 i) ≤ 8.
Proof.
  intros Hi. unfold int64 in Hi.
  destruct (encode_int_spec 7 i) as (Hlen & Hval & Hrange & Hcheck).
  { change (8 * Z.of_nat 8 - 1)%Z with 63%Z. lia. }
  split; [|lia]. unfold parseInt64. rewrite Hcheck. simpl negb. cbv iota.
  rewrite bool_decide_eq_false_2 by lia. f_equal. rewrite Hval.
  set (bits := (8 * Z.of_nat (length (encode_int 7 i)))%Z) in *.
  assert (0 < bits)%Z by lia.
  assert (2 ^ bits = 2 * 2 ^ (bits - 1))%Z as Hpow.
  { rewrite <- Z.pow_succ_r by lia. f_equal. lia. }
  assert (0 < 2 ^ (bits - 1))%Z by (apply Z.pow_pos_nonneg; lia).
  destruct (decide (0 ≤ i)%Z).
  - rewrite Z.mod_small by lia.
    assert ((i <? 2 ^ (bits - 1))%Z = true) as -> by (apply Z.ltb_lt; lia). done.
  - assert (i mod 2 ^ bits = i + 2 ^ bits)%Z as ->.
    { symmetry. apply (Z.mod_unique_pos _ _ (-1)); lia. }
    assert ((i + 2 ^ bits <? 2 ^ (bits - 1))%Z = false) as -> by (apply Z.ltb_ge; lia).
    lia.
Qed.

(** *** The struct *)

Lemma element_length (tag : byte) (contents : list byte) :
  length contents < length (element tag contents).
Proof. unfold element. simpl. rewrite length_app. lia. Qed.

Lemma Unmarshal_Marshal (nf : nonceField) (data : list byte) :
  int64 (RTT nf) → Marshal nf = Ok data → (Z.of_nat (length data) < 2 ^ 31)%Z →
  Unmarshal data = Ok (nf, []).
Proof.
  intros Hrtt Hm Hlen.
  assert (data = element x30 (element x04 (Nonce nf) ++ element x04 (AppData nf)
                              ++ element x02 (encode_int 7 (RTT nf)))) as ->
    by (unfold Marshal in Hm; congruence).
  clear Hm. unfold Unmarshal.
  set (e3 := element x02 (encode_int 7 (RTT nf))) in *.
  set (fields := element x04 (Nonce nf) ++ element x04 (AppData nf) ++ e3) in *.
  pose proof (element_length x30 fields) as Hl0.
  pose proof (element_length x04 (Nonce nf)) as Hl1.
  pose proof (element_length x04 (AppData nf)) as Hl2.
  assert (length fields
          = length (element x04 (Nonce nf)) + length (element x04 (AppData nf)) + length e3)
    as Hfields by (unfold fields; rewrite !length_app; lia).
  destruct (parseInt64_encode (RTT nf) Hrtt) as [Hint Hintlen].
  rewrite <- (app_nil_r (element x30 fields)).
  rewrite parse_element_encode by lia.
  cbv beta iota delta [mbind option_bind]. unfold fields.
  rewrite parse_element_encode by lia.
  cbv beta iota delta [mbind option_bind].
  rewrite parse_element_encode by lia.
  cbv beta iota delta [mbind option_bind].
  unfold e3. rewrite <- (app_nil_r (element x02 _)).
  rewrite parse_element_encode by lia.
  cbv beta iota delta [mbind option_bind]. rewrite Hint.
  by destruct nf.
Qed.

End der_facts.

(** The codec is an instance of the interface. *)
Definition der_asn1 : asn1_pkg := {|
  asn1_Marshal := der.Marshal;
  asn1_Unmarshal := der.Unmarshal;
  asn1_Marshal_ok := λ nf _, ex_intro _ _ eq_refl;
  asn1_Unmarshal_Marshal := der_facts.Unmarshal_Marshal;
|}.

(** The encoding of an empty nonce, the application data "foobar" and an
    RTT of 0. *)
Example Marshal_foobar :
  der.Marshal {| Nonce := []; AppData := example.foobar; RTT := 0 |}
  = Ok [x30; x0d; x04; x00; x04; x06; x66; x6f; x6f; x62; x61; x72; x02; x01; x00].
Proof. reflexivity. Qed.

(** An RTT of 10 s, in nanoseconds, takes five bytes. *)
Example encode_int_10s :
  der.encode_int 7 10000000000 = [x02; x54; x0b; xe4; x00]
  ∧ der.parseInt64 [x02; x54; x0b; xe4; x00] = Some 10000000000%Z.
Proof. split; reflexivity. Qed.

(** * Properties of the client session cache *)

Section client_session_cache_theorems.
Context `{!asn1_pkg, !congestion_pkg}.
Context {C A : Type}.

Lemma wrap64_int64 (z : Z) : int64 z → wrap64 (z * 1) = z.
Proof.
  unfold int64, wrap64. intros Hz. rewrite Z.mul_1_r, Z.mod_small; lia.
Qed.

Lemma Uint32_revision (data : list byte) :
  binary.BigEndian_Uint32 (take 4 (spec_stored_nonce data)) = Some clientSessionStateRevision.
Proof. reflexivity. Qed.

Lemma PutUint32_revision :
  binary.BigEndian_PutUint32 clientSessionStateRevision = [x00; x00; x00; x01].
Proof. reflexivity. Qed.

(** C10: [Put] stores the session with its nonce replaced by the 4-byte
    big-endian revision tag 1 followed by the DER encoding [data] of the
    original nonce, the application data and the smoothed RTT.  When the
    wrapped cache returns that entry, [Get] returns the session with its
    original nonce, with the flag of the wrapped cache, hands the stored
    application data to [setAppData] and sets the initial RTT to the stored
    RTT.  [Get] returns [(nil, false)], and neither calls [setAppData] nor
    sets the RTT, for an entry whose nonce is shorter than 4 bytes, whose
    revision tag is not the current revision, or whose payload does not
    decode to a value with no bytes left over. *)
Theorem session_cache_round_trip (c : @clientSessionCache C A) (sessionKey : string)
    (cs : ClientSessionState) (st : CacheState) :
  (int64 (SmoothedRTT (rttStats st)) →
   ∃ data,
     asn1_Marshal (Put_nonceField c cs st) = Ok data
     ∧ Put c sessionKey (Some cs) st
       = Some {| cache := tls_Put (ClientSessionCache c) sessionKey
                            (Some (with_nonce (spec_stored_nonce data) cs)) (cache st);
                 rttStats := rttStats st;
                 app := (getAppData c (app st)).2;
                 stdout := stdout st |}
     ∧ ((Z.of_nat (length data) < 2 ^ 31)%Z →
        ∀ key' st' ok cache',
          tls_Get (ClientSessionCache c) key' (cache st')
          = (Some (with_nonce (spec_stored_nonce data) cs), ok, cache') →
          Get c key' st'
          = (Some cs, ok,
             {| cache := cache';
                rttStats := SetInitialRTT (SmoothedRTT (rttStats st)) (rttStats st');
                app := setAppData c (getAppData c (app st)).1 (app st');
                stdout := stdout st' |})))
  ∧ (∀ key' st' sess ok cache',
       tls_Get (ClientSessionCache c) key' (cache st') = (Some sess, ok, cache') →
       length (nonce sess) < 4
       ∨ binary.BigEndian_Uint32 (take 4 (nonce sess)) ≠ Some clientSessionStateRevision
       ∨ (∀ nf, asn1_Unmarshal (drop 4 (nonce sess)) ≠ Ok (nf, [])) →
       ∃ st'', Get c key' st' = (None, false, st'')
         ∧ cache st'' = cache' ∧ rttStats st'' = rttStats st' ∧ app st'' = app st').
Proof.
  split.
  - intros Hrtt.
    destruct (asn1_Marshal_ok (Put_nonceField c cs st) Hrtt) as [data Hdata].
    exists data. split; [done|]. split.
    + unfold Put. rewrite Hdata. by rewrite PutUint32_revision.
    + intros Hlen key' st' ok cache' Hget. unfold Get. rewrite Hget.
      cbn [nonce with_nonce].
      rewrite bool_decide_eq_false_2
        by (unfold spec_stored_nonce; rewrite length_app; simpl; lia).
      rewrite Uint32_revision.
      rewrite bool_decide_eq_false_2 by (intros Hne; by apply Hne).
      change (drop 4 (spec_stored_nonce data)) with data.
      rewrite (asn1_Unmarshal_Marshal (Put_nonceField c cs st) data Hrtt Hdata Hlen).
      rewrite bool_decide_eq_false_2 by (intros Hne; by apply Hne).
      cbn [Put_nonceField AppData Nonce RTT cache rttStats app stdout other_fields].
      rewrite wrap64_int64 by done. by destruct cs.
  - intros key' st' sess ok cache' Hget Hbad. unfold Get. rewrite Hget.
    destruct (bool_decide (length (nonce sess) < 4)) eqn:Hshort.
    { by eexists. }
    apply bool_decide_eq_false in Hshort.
    destruct (bool_decide (binary.BigEndian_Uint32 (take 4 (nonce sess))
                           ≠ Some clientSessionStateRevision)) eqn:Hrev.
    { by eexists. }
    apply bool_decide_eq_false in Hrev.
    destruct Hbad as [Hbad | [Hbad | Hbad]]; [done..|].
    destruct (asn1_Unmarshal (drop 4 (nonce sess))) as [[nf rest]|e] eqn:Hun.
    2:{ by eexists. }
    destruct (bool_decide (length rest ≠ 0)) eqn:Hrest.
    { by eexists. }
    apply bool_decide_eq_false in Hrest.
    assert (rest = []) as -> by (destruct rest; [done|]; exfalso; apply Hrest; done).
    by destruct (Hbad nf).
Qed.

End client_session_cache_theorems.

(** * Further properties of the intake task *)

Section intake_facts.
Context `{!protocol_pkg, !wire_pkg, !handshake_pkg, !multiplexer_pkg}.

Lemma createNewSession_events (remoteAddr : Addr) (orig cd dst src : ConnectionID)
    (v : VersionNumber) (w : World) :
  let sess := newSession (server w) (sessions_made w) remoteAddr orig cd dst src v in
  ∃ res w', createNewSession remoteAddr orig cd dst src v w = (res, w')
    ∧ sessions_made w' = S (sessions_made w)
    ∧ ((res = None ∧ is_Some (sessionHandler w !! cd)
        ∧ trace w' = trace w ++ [ev_newSession sess; ev_Add cd sess false])
       ∨ (res = Some sess ∧ sessionHandler w !! cd = None
          ∧ ∃ added, trace w' = trace w ++ [ev_newSession sess; ev_Add cd sess true;
                                            ev_Add src sess added;
                                            ev_go (go_sess_run sess);
                                            ev_go (go_handleNewSession sess)])).
Proof.
  intros sess. unfold createNewSession. fold sess.
  unfold Add at 1. cbn [sessionHandler emit incr_sessions_made set_sessionHandler].
  destruct (sessionHandler w !! cd) as [s0|] eqn:Hcd; cbn [negb].
  - eexists _, _. split; [done|]. split; [done|]. left.
    split; [done|]. split; [by eexists|]. simpl. by rewrite <- !app_assoc.
  - cbn [sessionHandler emit set_sessionHandler].
    destruct (Add src sess (<[cd:=sess]> (sessionHandler w))) as [added h] eqn:Hadd.
    eexists _, _. split; [done|]. split; [done|]. right.
    split; [done|]. split; [done|]. exists added. simpl. by rewrite <- !app_assoc.
Qed.

Lemma handlePacketImpl_events (p : receivedPacket) (w : World) (b : bool) (w' : World) :
  handlePacketImpl p w = Some (b, w') →
  ∃ evs, trace w' = trace w ++ evs ∧ packet_events p b evs
    ∧ sessions_made w ≤ sessions_made w'
    ∧ (∀ sess, b = true → spawned_handoffs evs = [sess] →
         sess_id sess = sessions_made w ∧ sessions_made w' = S (sessions_made w)
         ∧ ∃ hdr, session_of_Initial (server w) sess p hdr).
Proof.
  unfold handlePacketImpl.
  destruct (_ <? _)%Z eqn:Hlen.
  { intros [= <- <-]. exists []. rewrite app_nil_r. split; [done|]. split; [constructor|done]. }
  destruct ParsePacket as [hdr|e] eqn:Hparse.
  2:{ intros [= <- <-]. exists []. rewrite app_nil_r. split; [done|]. split; [constructor|done]. }
  destruct (negb (wire.IsLongHeader hdr)) eqn:Hlong.
  { intros [= <- <-]. exists []. rewrite app_nil_r. split; [done|]. split; [constructor|done]. }
  destruct (negb (IsSupportedVersion _ _)) eqn:Hvers.
  { intros [= <- <-]. eexists. split; [done|]. split; [by apply pe_reply|done]. }
  destruct (_ && _) eqn:Htype.
  { intros [= <- <-]. exists []. rewrite app_nil_r. split; [done|]. split; [constructor|done]. }
  unfold handleInitialImpl.
  destruct (too_short_connection_ID hdr) eqn:Hshort.
  { intros [= <- <-]. exists []. rewrite app_nil_r. split; [done|]. split; [constructor|done]. }
  destruct (decode_token (server w) hdr) as [tok orig] eqn:Htok.
  destruct (AcceptToken (config (server w))) as [f|]; [simpl|done].
  destruct (negb (f _ _ _)).
  { intros [= <- <-]. eexists. split; [done|]. split; [by apply pe_reply|done]. }
  destruct (MaxAcceptQueueSize <=? sessionQueueLen w)%Z.
  { intros [= <- <-]. eexists. split; [done|]. split; [by apply pe_reply|done]. }
  destruct GenerateConnectionID as [[connID|e] r'] eqn:Hgen.
  2:{ intros [= <- <-]. exists []. rewrite app_nil_r. split; [done|]. split; [constructor|done]. }
  destruct (createNewSession_events (remoteAddr p) orig (wire.DestConnectionID hdr)
              (wire.SrcConnectionID hdr) connID (wire.Version hdr) (set_rand r' w))
    as (res & w1 & -> & Hmade & [(-> & _ & Htr) | (-> & _ & added & Htr)]).
  - intros [= <- <-]. eexists. split; [exact Htr|]. split; [constructor|].
    simpl in *. split; [lia|done].
  - intros [= <- <-]. eexists. split.
    { simpl. rewrite Htr. rewrite <- app_assoc. reflexivity. }
    split.
    { simpl. apply (pe_session p (newSession _ _ _ _ _ _ _ _) added). }
    simpl in *. split; [lia|]. intros sess _ [= <-]. split; [done|]. split; [done|].
    exists hdr. apply negb_false_iff in Hlong, Hvers.
    apply Z.ltb_ge in Hlen. rewrite Hlong in Htype. simpl in Htype.
    apply negb_false_iff, bool_decide_eq_true in Htype.
    apply GenerateConnectionID_length in Hgen as [Hgl _].
    unfold session_of_Initial. simpl. rewrite Htok. done.
Qed.

Lemma buffer_owners_app (tr1 tr2 : list Event) :
  buffer_owners (tr1 ++ tr2) = buffer_owners tr1 ++ buffer_owners tr2.
Proof. apply omap_app. Qed.

Lemma run_packet_buffer (p : receivedPacket) (w w' : World) :
  run_packet p w = Some w' →
  ∃ evs owner, trace w' = trace w ++ evs ∧ buffer_owners evs = [(p, owner)]
    ∧ match owner with
      | None => spawned_handoffs evs = [] ∧ sessionHandler w' = sessionHandler w
      | Some sess => spawned_handoffs evs = [sess]
                     ∧ sessionHandler w' !! sess_clientDestConnID sess = Some sess
      end.
Proof.
  unfold run_packet.
  destruct (handlePacketImpl p w) as [[b w1]|] eqn:Himpl; [simpl|done].
  intros [= <-].
  destruct (handlePacketImpl_events p w b w1 Himpl) as (evs & Htr & Hevs & _ & Horigin).
  pose proof Himpl as Hinv.
  apply handlePacketImpl_inv in Hinv as (_ & _ & _ & Hres).
  destruct Hevs as [|t Ht|sess|sess added]; simpl.
  - exists [ev_Release p], None. rewrite Htr, app_nil_r. split; [done|]. split; [done|].
    by destruct Hres.
  - exists [ev_go t; ev_Release p], None. rewrite Htr, <- app_assoc. split; [done|].
    destruct Hres as [? _].
    destruct t as [|p' hdr|a hdr|a hdr| |]; done.
  - eexists _, None. rewrite Htr, <- app_assoc. split; [done|]. split; [done|].
    by destruct Hres.
  - eexists _, (Some sess). split; [exact Htr|]. split; [done|]. split; [done|].
    destruct Hres as (hdr & sess' & Hparse & Hnone & Hsome & Hsp).
    rewrite Htr, spawned_handoffs_app in Hsp. apply app_inv_head in Hsp.
    simpl in Hsp. injection Hsp as <-.
    destruct (Horigin sess eq_refl eq_refl)
      as (_ & _ & hdr' & _ & Hparse' & _ & _ & _ & _ & _ & Hsess).
    assert (hdr' = hdr) as -> by congruence.
    assert (sess_clientDestConnID sess = wire.DestConnectionID hdr) as ->
      by (by rewrite Hsess).
    exact Hsome.
Qed.

Lemma sendRetry_sent (s : baseServer) (a : Addr) (hdr : wire.Header) (now : Z) (r : Rand) :
  length (sendRetry s a hdr now r).2 ≤ 1
  ∧ ∀ d a', (d, a') ∈ (sendRetry s a hdr now r).2 → a' = a.
Proof.
  unfold sendRetry.
  destruct NewRetryToken as [[token|e] r1]; [|simpl; split; [lia|by intros ?? ?%elem_of_nil]].
  destruct GenerateConnectionID as [[connID|e] r2];
    [|simpl; split; [lia|by intros ?? ?%elem_of_nil]].
  destruct ExtendedHeader_Write as [written|e];
    [|simpl; split; [lia|by intros ?? ?%elem_of_nil]].
  simpl. split; [lia|]. intros d a' Hin. apply list_elem_of_singleton in Hin. congruence.
Qed.

Lemma sendServerBusy_sent (s : baseServer) (a : Addr) (hdr : wire.Header) :
  length (sendServerBusy s a hdr).2 ≤ 1
  ∧ ∀ d a', (d, a') ∈ (sendServerBusy s a hdr).2 → a' = a.
Proof.
  unfold sendServerBusy.
  destruct ExtendedHeader_Write as [written|e];
    [|simpl; split; [lia|by intros ?? ?%elem_of_nil]].
  destruct ConnectionCloseFrame_Write as [frame|e];
    [|simpl; split; [lia|by intros ?? ?%elem_of_nil]].
  cbv zeta.
  destruct (_ <? 0)%Z; [simpl; split; [lia|by intros ?? ?%elem_of_nil]|].
  destruct (take _ _) as [|first rest]; [simpl; split; [lia|by intros ?? ?%elem_of_nil]|].
  destruct EncryptHeader as [first' pn'].
  simpl. split; [lia|]. intros d a' Hin. apply list_elem_of_singleton in Hin. congruence.
Qed.

Lemma sendVersionNegotiationPacket_sent (s : baseServer) (p : receivedPacket)
    (hdr : wire.Header) :
  length (sendVersionNegotiationPacket s p hdr) ≤ 1
  ∧ ∀ d a', (d, a') ∈ sendVersionNegotiationPacket s p hdr → a' = remoteAddr p.
Proof.
  unfold sendVersionNegotiationPacket.
  destruct ComposeVersionNegotiation as [data|e];
    [|simpl; split; [lia|by intros ?? ?%elem_of_nil]].
  simpl. split; [lia|]. intros d a' Hin. apply list_elem_of_singleton in Hin. congruence.
Qed.

(** X3: [handlePacketImpl] starts at most one reply goroutine per packet,
    and none when it creates a session; when it starts one, no
    [handleNewSession] goroutine is started and nothing is registered.
    Whatever the clock and the random source, a reply goroutine sends at
    most one datagram, and it sends it to the address the packet came
    from. *)
Theorem one_reply_to_the_source (p : receivedPacket) (w : World) (b : bool) (w' : World) :
  handlePacketImpl p w = Some (b, w') →
  ∃ evs, trace w' = trace w ++ evs
    ∧ length (reply_tasks evs) ≤ 1
    ∧ (reply_tasks evs ≠ [] →
       b = false ∧ spawned_handoffs evs = [] ∧ sessionHandler w' = sessionHandler w)
    ∧ ∀ t now r, t ∈ reply_tasks evs →
        length (run_reply (server w) t now r).2 ≤ 1
        ∧ ∀ d a, (d, a) ∈ (run_reply (server w) t now r).2 → a = remoteAddr p.
Proof.
  intros Himpl.
  destruct (handlePacketImpl_events p w b w' Himpl) as (evs & Htr & Hevs).
  apply handlePacketImpl_inv in Himpl as (_ & _ & _ & Hres).
  exists evs. split; [exact Htr|].
  destruct Hevs as (Hevs & _).
  destruct Hevs as [|t Ht|sess|sess added].
  - simpl. split; [lia|]. split; [done|]. by intros t now r ?%elem_of_nil.
  - destruct t as [|p' hdr|a hdr|a hdr| |]; try done; subst; simpl.
    + split; [lia|]. split; [by destruct Hres|].
      intros t now r ->%list_elem_of_singleton. simpl.
      apply sendVersionNegotiationPacket_sent.
    + split; [lia|]. split; [by destruct Hres|].
      intros t now r ->%list_elem_of_singleton. simpl. apply sendRetry_sent.
    + split; [lia|]. split; [by destruct Hres|].
      intros t now r ->%list_elem_of_singleton. simpl.
      pose proof (sendServerBusy_sent (server w) (remoteAddr p) hdr) as Hsent.
      by destruct sendServerBusy.
  - simpl. split; [lia|]. split; [done|]. by intros t now r ?%elem_of_nil.
  - simpl. split; [lia|]. split; [done|]. by intros t now r ?%elem_of_nil.
Qed.

(** X4: in every iteration of the intake loop the buffer of the packet is
    either released by the loop or handed to exactly one session, never
    both and never neither.  It is handed over exactly when a session was
    created for the packet, which is then registered under the client's
    destination connection ID; otherwise it is released and the handler map
    is left as it was. *)
Theorem buffer_released_or_handed_over (p : receivedPacket) (w w' : World) :
  run_packet p w = Some w' →
  ∃ evs, trace w' = trace w ++ evs
    ∧ ((buffer_owners evs = [(p, None)] ∧ spawned_handoffs evs = []
        ∧ sessionHandler w' = sessionHandler w)
       ∨ ∃ sess, buffer_owners evs = [(p, Some sess)] ∧ spawned_handoffs evs = [sess]
           ∧ sessionHandler w' !! sess_clientDestConnID sess = Some sess).
Proof.
  intros Hrun.
  apply run_packet_buffer in Hrun as (evs & owner & Htr & Hown & Hres).
  exists evs. split; [done|]. destruct owner as [sess|].
  - right. exists sess. by destruct Hres.
  - left. by destruct Hres.
Qed.

(** X2: a reply goroutine is started only for its cause.  Whatever reply
    task [handlePacketImpl] starts for a packet, the packet has at least
    1200 bytes and a long header, no session is created, and: a Version
    Negotiation is for a version that is not configured; a Retry is for an
    Initial whose token the configured [AcceptToken] rejected; a server-busy
    reply is for an Initial whose token was accepted while the counter of
    the accept queue was at least [MaxAcceptQueueSize].  The task is for the
    packet itself or for the address it came from, and for the header that
    the packet parses to. *)
Theorem reply_only_for_its_cause (p : receivedPacket) (w : World) (b : bool) (w' : World)
    (t : Task) :
  handlePacketImpl p w = Some (b, w') →
  t ∈ reply_tasks (drop (length (trace w)) (trace w')) →
  b = false
  ∧ ∃ hdr,
      (MinInitialPacketSize ≤ Z.of_nat (length (data p)))%Z
      ∧ ParsePacket (data p) (ConnectionIDLength (config (server w))) = Ok hdr
      ∧ wire.IsLongHeader hdr = true
      ∧ match t with
        | go_sendVersionNegotiationPacket p' hdr' =>
          p' = p ∧ hdr' = hdr
          ∧ wire.Version hdr ∉ Versions (config (server w))
        | go_sendRetry a hdr' =>
          a = remoteAddr p ∧ hdr' = hdr ∧ token_checked p w hdr false
        | go_sendServerBusy a hdr' =>
          a = remoteAddr p ∧ hdr' = hdr ∧ token_checked p w hdr true
          ∧ (MaxAcceptQueueSize ≤ sessionQueueLen w)%Z
        | _ => False
        end.
Proof.
  unfold handlePacketImpl.
  destruct (_ <? _)%Z eqn:Hlen.
  { intros [= <- <-]. rewrite drop_all. by intros ?%elem_of_nil. }
  apply Z.ltb_ge in Hlen.
  destruct ParsePacket as [hdr|e] eqn:Hparse.
  2:{ intros [= <- <-]. rewrite drop_all. by intros ?%elem_of_nil. }
  destruct (negb (wire.IsLongHeader hdr)) eqn:Hlong.
  { intros [= <- <-]. rewrite drop_all. by intros ?%elem_of_nil. }
  apply negb_false_iff in Hlong.
  destruct (negb (IsSupportedVersion _ _)) eqn:Hvers.
  { intros [= <- <-]. simpl. rewrite drop_app_length. simpl.
    intros ->%list_elem_of_singleton. split; [done|]. exists hdr.
    repeat (split; [done|]).
    apply negb_true_iff in Hvers. unfold IsSupportedVersion in Hvers.
    by apply bool_decide_eq_false in Hvers. }
  apply negb_false_iff in Hvers.
  destruct (_ && _) eqn:Htype.
  { intros [= <- <-]. rewrite drop_all. by intros ?%elem_of_nil. }
  rewrite Hlong in Htype. simpl in Htype.
  apply negb_false_iff, bool_decide_eq_true in Htype.
  assert (unknown_Initial p w hdr) as Hunknown by done.
  unfold handleInitialImpl.
  destruct (too_short_connection_ID hdr) eqn:Hshort.
  { intros [= <- <-]. rewrite drop_all. by intros ?%elem_of_nil. }
  destruct (decode_token (server w) hdr) as [tok orig] eqn:Htok.
  destruct (AcceptToken (config (server w))) as [f|] eqn:Hf; [simpl|done].
  destruct (f (now w) (remoteAddr p) tok) eqn:Hverdict; simpl.
  2:{ intros [= <- <-]. simpl. rewrite drop_app_length. simpl.
      intros ->%list_elem_of_singleton. split; [done|]. exists hdr.
      repeat (split; [done|]). exists f. rewrite Htok. done. }
  destruct (MaxAcceptQueueSize <=? sessionQueueLen w)%Z eqn:Hfull.
  { intros [= <- <-]. simpl. rewrite drop_app_length. simpl.
    intros ->%list_elem_of_singleton. split; [done|]. exists hdr.
    repeat (split; [done|]). split; [|by apply Z.leb_le].
    repeat (split; [done|]). exists f. rewrite Htok. done. }
  destruct GenerateConnectionID as [[connID|e] r'] eqn:Hgen.
  2:{ intros [= <- <-]. simpl. rewrite drop_all. by intros ?%elem_of_nil. }
  destruct (createNewSession_events (remoteAddr p) orig (wire.DestConnectionID hdr)
              (wire.SrcConnectionID hdr) connID (wire.Version hdr) (set_rand r' w))
    as (res & w1 & -> & _ & [(-> & _ & Htr) | (-> & _ & added & Htr)]).
  - intros [= <- <-]. rewrite Htr. simpl. rewrite drop_app_length. simpl.
    by intros ?%elem_of_nil.
  - intros [= <- <-]. simpl. rewrite Htr. simpl. rewrite <- app_assoc, drop_app_length. simpl.
    by intros ?%elem_of_nil.
Qed.

(** X1: a long-header packet of at least 1200 bytes with a supported
    version is dropped without any reply when it is not an Initial
    (l. 375-381), when it is an Initial without token whose destination
    connection ID is shorter than 8 bytes (l. 401-403), or when no
    connection ID can be generated for it (l. 437-440): [handlePacketImpl]
    returns false, nothing is added to the trace, no session object is
    made, nothing is registered, and the intake loop releases the buffer. *)
Theorem dropped_without_reply (p : receivedPacket) (w : World) (hdr : wire.Header) :
  (MinInitialPacketSize ≤ Z.of_nat (length (data p)))%Z →
  ParsePacket (data p) (ConnectionIDLength (config (server w))) = Ok hdr →
  wire.IsLongHeader hdr = true →
  IsSupportedVersion (Versions (config (server w))) (wire.Version hdr) = true →
  wire.Type_ hdr ≠ PacketTypeInitial
  ∨ (wire.Token hdr = []
     ∧ (Z.of_nat (length (wire.DestConnectionID hdr)) < MinConnectionIDLenInitial)%Z)
  ∨ (token_checked p w hdr true ∧ (sessionQueueLen w < MaxAcceptQueueSize)%Z
     ∧ ∃ e, (GenerateConnectionID (ConnectionIDLength (config (server w))) (rand w)).1
            = Err e) →
  ∃ w', handlePacketImpl p w = Some (false, w')
    ∧ run_packet p w = Some (emit (ev_Release p) w')
    ∧ trace w' = trace w
    ∧ sessionHandler w' = sessionHandler w
    ∧ sessions_made w' = sessions_made w.
Proof.
  intros Hlen Hparse Hlong Hvers Hcase.
  assert (∃ w', handlePacketImpl p w = Some (false, w')
            ∧ trace w' = trace w ∧ sessionHandler w' = sessionHandler w
            ∧ sessions_made w' = sessions_made w) as (w' & Himpl & ? & ? & ?).
  { destruct Hcase as [Htype | [[Htok Hcid] | (Hchecked & Hqueue & e & Hgen)]].
    - exists w. split; [|done]. unfold handlePacketImpl.
      apply Z.ltb_ge in Hlen. rewrite Hlen, Hparse, Hlong, Hvers. simpl.
      by rewrite bool_decide_eq_false_2.
    - exists w. split; [|done]. unfold handlePacketImpl.
      apply Z.ltb_ge in Hlen. rewrite Hlen, Hparse, Hlong, Hvers. simpl.
      destruct (negb (bool_decide (wire.Type_ hdr = PacketTypeInitial))); [done|].
      unfold handleInitialImpl, too_short_connection_ID. rewrite Htok. simpl.
      apply Z.ltb_lt in Hcid. by rewrite Hcid.
    - rewrite (handlePacketImpl_initial p w hdr) by apply Hchecked.
      rewrite (handleInitialImpl_token_checked p w hdr true) by done.
      apply Z.leb_gt in Hqueue. simpl. rewrite Hqueue.
      destruct GenerateConnectionID as [[connID|e'] r']; [done|]. simpl.
      by eexists. }
  exists w'. split; [done|]. split; [|done]. unfold run_packet. by rewrite Himpl.
Qed.

End intake_facts.

(** * Further properties of the listener and its goroutines *)

Section listener_facts.
Context `{!protocol_pkg, !wire_pkg, !handshake_pkg, !multiplexer_pkg}.

Lemma closing_calls_app (tr1 tr2 : list Event) :
  closing_calls (tr1 ++ tr2) = closing_calls tr1 ++ closing_calls tr2.
Proof. apply omap_app. Qed.

Lemma packet_events_quiet (p : receivedPacket) (b : bool) (evs : list Event) :
  packet_events p b evs →
  closing_calls evs = []
  ∧ (if b then ∃ sess, spawned_handoffs evs = [sess] ∧ ev_handlePacket sess p ∈ evs
     else spawned_handoffs evs = []).
Proof.
  destruct 1 as [|t Ht|sess|sess added]; simpl; try done.
  - by destruct t.
  - split; [done|]. exists sess. split; [done|]. set_solver.
Qed.

(** What one iteration of the intake loop does to the state. *)
Lemma run_packet_events (p : receivedPacket) (w w' : World) :
  run_packet p w = Some w' →
  server w' = server w
  ∧ sessions_made w ≤ sessions_made w'
  ∧ ∃ evs, trace w' = trace w ++ evs
      ∧ closing_calls evs = []
      ∧ (spawned_handoffs evs = []
         ∨ ∃ sess, spawned_handoffs evs = [sess]
             ∧ sess_id sess = sessions_made w
             ∧ sessions_made w' = S (sessions_made w)
             ∧ ev_handlePacket sess p ∈ evs
             ∧ ∃ hdr, session_of_Initial (server w) sess p hdr).
Proof.
  unfold run_packet.
  destruct (handlePacketImpl p w) as [[b w1]|] eqn:Himpl; [simpl|done].
  intros [= <-].
  destruct (handlePacketImpl_events p w b w1 Himpl) as (evs & Htr & Hevs & Hmade & Horigin).
  apply handlePacketImpl_inv in Himpl as (Hserver & _).
  apply packet_events_quiet in Hevs as [Hquiet Hsp].
  destruct b; simpl.
  - split; [done|]. split; [done|]. exists evs. split; [done|]. split; [done|]. right.
    destruct Hsp as (sess & Hsp & Hin). exists sess.
    destruct (Horigin sess eq_refl Hsp) as (? & ? & ?). done.
  - split; [done|]. split; [done|]. exists (evs ++ [ev_Release p]).
    rewrite Htr, <- app_assoc. split; [done|].
    rewrite closing_calls_app, spawned_handoffs_app, Hquiet, Hsp. split; [done|]. by left.
Qed.

Lemma move_handoff (i : nat) (from to : progress) (l l' : Listener) :
  move i from to l = Some l' →
  world l' = world l ∧ intake l' = intake l
  ∧ ∃ sess, handoff l !! i = Some (sess, from)
            ∧ handoff l' = <[i := (sess, to)]> (handoff l)
            ∧ handoff_sessions l' = handoff_sessions l.
Proof.
  unfold move. destruct (handoff l !! i) as [[sess pc]|] eqn:Hi; [simpl|done].
  case_bool_decide as Hpc; [|done]. subst pc. intros [= <-].
  split; [done|]. split; [done|]. exists sess. split; [done|]. split; [done|].
  unfold handoff_sessions. simpl. rewrite list_fmap_insert. simpl.
  apply list_insert_id. by rewrite list_lookup_fmap, Hi.
Qed.


Lemma after_refl (pc : progress) : after pc pc = true.
Proof. by destruct pc. Qed.

Lemma after_trans (a b c : progress) : after a b = true → after b c = true → after a c = true.
Proof. by destruct a, b, c. Qed.

Lemma insert_lookup_after (hs : list (quicSession * progress)) (i : nat)
    (sess : quicSession) (from to : progress) :
  hs !! i = Some (sess, from) → after from to = true →
  ∀ j s pc, hs !! j = Some (s, pc) →
    ∃ pc', <[i := (sess, to)]> hs !! j = Some (s, pc') ∧ after pc pc' = true.
Proof.
  intros Hi Hafter j s pc Hj. destruct (decide (i = j)) as [->|Hne].
  - rewrite list_lookup_insert_eq by (by eapply lookup_lt_Some).
    assert (s = sess ∧ pc = from) as [-> ->] by (split; congruence).
    by exists to.
  - rewrite list_lookup_insert_ne by done. exists pc. split; [done|apply after_refl].
Qed.

(** What a step of the system does to the server, the trace and the
    hand-over tasks. *)
Lemma step_structure (lab : Label) (l l' : Listener) :
  step lab l = Some l' →
  server (world l') = server (world l)
  ∧ sessions_made (world l) ≤ sessions_made (world l')
  ∧ (∀ j s pc, handoff l !! j = Some (s, pc) →
       ∃ pc', handoff l' !! j = Some (s, pc') ∧ after pc pc' = true)
  ∧ ∃ evs, trace (world l') = trace (world l) ++ evs
      ∧ handoff_sessions l' = handoff_sessions l ++ spawned_handoffs evs
      ∧ (spawned_handoffs evs = []
         ∨ ∃ sess p, spawned_handoffs evs = [sess]
             ∧ sess_id sess = sessions_made (world l)
             ∧ sessions_made (world l') = S (sessions_made (world l))
             ∧ ev_handlePacket sess p ∈ evs
             ∧ ∃ hdr, session_of_Initial (server (world l)) sess p hdr)
      ∧ ((closing_calls evs = [] ∧ (closed l = false → lab ≠ L_Close))
         ∨ (lab = L_Close ∧ closed l = false ∧ closed l' = true
            ∧ closing_calls evs
              = ev_CloseServer
                :: (if createdPacketConn (server (world l)) then [ev_Destroy] else []))).
Proof.
  assert (∀ l' : Listener,
    world l' = world l → handoff l' = handoff l →
    server (world l') = server (world l)
    ∧ sessions_made (world l) ≤ sessions_made (world l')
    ∧ (∀ j s pc, handoff l !! j = Some (s, pc) →
         ∃ pc', handoff l' !! j = Some (s, pc') ∧ after pc pc' = true)
    ∧ ∃ evs, trace (world l') = trace (world l) ++ evs
        ∧ handoff_sessions l' = handoff_sessions l ++ spawned_handoffs evs
        ∧ (spawned_handoffs evs = []
           ∨ ∃ sess p, spawned_handoffs evs = [sess]
               ∧ sess_id sess = sessions_made (world l)
               ∧ sessions_made (world l') = S (sessions_made (world l))
               ∧ ev_handlePacket sess p ∈ evs
               ∧ ∃ hdr, session_of_Initial (server (world l)) sess p hdr)
        ∧ closing_calls evs = []) as Hsame.
  { intros l1 Hw Hh. rewrite Hw. split; [done|]. split; [done|]. split.
    - intros j s pc Hj. exists pc. rewrite Hh. split; [done|apply after_refl].
    - exists []. rewrite !app_nil_r. unfold handoff_sessions. rewrite Hh.
      split; [done|]. split; [done|]. split; [by left|done]. }
  assert (∀ i from to (l1 l2 : Listener),
    move i from to l = Some l1 → after from to = true →
    server (world l2) = server (world l1) → sessions_made (world l2) = sessions_made (world l1) →
    trace (world l2) = trace (world l1) → handoff l2 = handoff l1 →
    server (world l2) = server (world l)
    ∧ sessions_made (world l) ≤ sessions_made (world l2)
    ∧ (∀ j s pc, handoff l !! j = Some (s, pc) →
         ∃ pc', handoff l2 !! j = Some (s, pc') ∧ after pc pc' = true)
    ∧ ∃ evs, trace (world l2) = trace (world l) ++ evs
        ∧ handoff_sessions l2 = handoff_sessions l ++ spawned_handoffs evs
        ∧ (spawned_handoffs evs = []
           ∨ ∃ sess p, spawned_handoffs evs = [sess]
               ∧ sess_id sess = sessions_made (world l)
               ∧ sessions_made (world l2) = S (sessions_made (world l))
               ∧ ev_handlePacket sess p ∈ evs
               ∧ ∃ hdr, session_of_Initial (server (world l)) sess p hdr)
        ∧ closing_calls evs = []) as Hmove.
  { intros i from to l1 l2 Hm Hafter Hs Hmade Htr Hh.
    apply move_handoff in Hm as (Hw & _ & sess & Hi & Hins & Hsess).
    rewrite Hs, Hmade, Htr, Hw. split; [done|]. split; [done|]. split.
    - rewrite Hh, Hins. by apply insert_lookup_after with from.
    - exists []. rewrite !app_nil_r. unfold handoff_sessions in *. rewrite Hh.
      split; [done|]. split; [done|]. split; [by left|done]. }
  intros Hstep. destruct lab as [s|t|i s|i|i| |e]; simpl in Hstep.
  - unfold run in Hstep.
    destruct s as [|q| |]; destruct (intake l) as [| |p|] eqn:Hpc; try done.
    + injection Hstep as <-.
      destruct (Hsame (set_intake (if errorChan_closed l then returned else at_receive) l))
        as (? & ? & ? & evs & ? & ? & ? & ?); [done..|].
      repeat (split; [done|]). exists evs. repeat (split; [done|]). left. done.
    + injection Hstep as <-.
      destruct (Hsame (set_intake (handling q) l))
        as (? & ? & ? & evs & ? & ? & ? & ?); [done..|].
      repeat (split; [done|]). exists evs. repeat (split; [done|]). left. done.
    + destruct (errorChan_closed l); [|done]. injection Hstep as <-.
      destruct (Hsame (set_intake returned l))
        as (? & ? & ? & evs & ? & ? & ? & ?); [done..|].
      repeat (split; [done|]). exists evs. repeat (split; [done|]). left. done.
    + destruct (run_packet p (world l)) as [w|] eqn:Hp; [simpl in Hstep|done].
      injection Hstep as <-.
      apply run_packet_events in Hp as (Hs & Hmade & evs & Htr & Hquiet & Hsp).
      cbn [world set_intake set_handoff set_world handoff].
      split; [done|]. split; [done|].
      assert (drop (length (spawned_handoffs (trace (world l)))) (spawned_handoffs (trace w))
              = spawned_handoffs evs) as ->.
      { by rewrite Htr, spawned_handoffs_app, drop_app_length. }
      split.
      { intros j s pc Hj. exists pc. split; [|apply after_refl].
        rewrite lookup_app_l; [done|]. by eapply lookup_lt_Some. }
      exists evs. split; [done|]. split.
      { unfold handoff_sessions. cbn [handoff set_intake set_handoff].
        rewrite fmap_app. f_equal. rewrite <- list_fmap_compose.
        by rewrite <- (list_fmap_id (spawned_handoffs evs)) at 2. }
      split; [|by left].
      destruct Hsp as [Hnone | (sess & Hone & Hid & Hmade' & Hin & hdr & Hsess)]; [by left|].
      right. exists sess, p. repeat (split; [done|]). by exists hdr.
  - destruct (_ <=? _)%Z; [|done]. injection Hstep as <-.
    split; [done|]. split; [done|]. split.
    { intros j s pc Hj. exists pc. split; [done|apply after_refl]. }
    exists []. rewrite !app_nil_r. split; [done|]. split; [done|]. split; [by left|].
    left. done.
  - destruct s; simpl in Hstep.
    + destruct (move i waiting offered l) as [l1|] eqn:Hm; [|done]. injection Hstep as <-.
      destruct (Hmove i waiting offered l1 (AddInt32 1 l1) Hm)
        as (? & ? & ? & evs & ? & ? & ? & ?); [done..|].
      repeat (split; [done|]). exists evs. repeat (split; [done|]). left. done.
    + destruct (Hmove i waiting gone l' l' Hstep)
        as (? & ? & ? & evs & ? & ? & ? & ?); [done..|].
      repeat (split; [done|]). exists evs. repeat (split; [done|]). left. done.
    + destruct (Hmove i offered withdrawing l' l' Hstep)
        as (? & ? & ? & evs & ? & ? & ? & ?); [done..|].
      repeat (split; [done|]). exists evs. repeat (split; [done|]). left. done.
    + destruct (move i withdrawing gone l) as [l1|] eqn:Hm; [|done]. injection Hstep as <-.
      destruct (Hmove i withdrawing gone l1 (AddInt32 (-1) l1) Hm)
        as (? & ? & ? & evs & ? & ? & ? & ?); [done..|].
      repeat (split; [done|]). exists evs. repeat (split; [done|]). left. done.
  - destruct (Hmove i offered received l' l' Hstep)
      as (? & ? & ? & evs & ? & ? & ? & ?); [done..|].
    repeat (split; [done|]). exists evs. repeat (split; [done|]). left. done.
  - unfold accept_decrement in Hstep.
    destruct (move i received accepted l) as [l1|] eqn:Hm; [|done]. injection Hstep as <-.
    destruct (Hmove i received accepted l1 (AddInt32 (-1) l1) Hm)
      as (? & ? & ? & evs & ? & ? & ? & ?); [done..|].
    repeat (split; [done|]). exists evs. repeat (split; [done|]). left. done.
  - injection Hstep as <-. unfold Close.
    destruct (closed l) eqn:Hclosed.
    { destruct (Hsame l) as (? & ? & ? & evs & ? & ? & ? & ?); [done..|].
      repeat (split; [done|]). exists evs. repeat (split; [done|]). left. done. }
    cbn [server emit].
    destruct (createdPacketConn (server (world l))) eqn:Hconn; cbn [snd world handoff].
    + split; [done|]. split; [done|]. split.
      { intros j s pc Hj. exists pc. split; [done|apply after_refl]. }
      exists [ev_CloseServer; ev_Destroy]. split; [simpl; by rewrite <- app_assoc|].
      split; [unfold handoff_sessions; simpl; by rewrite app_nil_r|].
      split; [by left|]. right. done.
    + split; [done|]. split; [done|]. split.
      { intros j s pc Hj. exists pc. split; [done|apply after_refl]. }
      exists [ev_CloseServer]. split; [done|].
      split; [unfold handoff_sessions; simpl; by rewrite app_nil_r|].
      split; [by left|]. right. done.
  - injection Hstep as <-. unfold setCloseError.
    destruct (closed l) eqn:Hclosed.
    + destruct (Hsame l) as (? & ? & ? & evs & ? & ? & ? & ?); [done..|].
      repeat (split; [done|]). exists evs. repeat (split; [done|]). left. done.
    + destruct (Hsame {| world := world l; intake := intake l; closed := true;
                         serverError := e; errorChan_closed := true;
                         handoff := handoff l |})
        as (? & ? & ? & evs & ? & ? & ? & ?); [done..|].
      repeat (split; [done|]). exists evs. repeat (split; [done|]). left. done.
Qed.

Lemma populateServerConfig_AcceptToken (cfg : option loc) (h : heap) (l1 : loc) (h1 : heap)
    (c : Config) :
  populateServerConfig cfg h = Some (l1, h1) → h1 !! l1 = Some c →
  is_Some (AcceptToken c).
Proof.
  unfold populateServerConfig.
  destruct (populateConfig cfg h) as [[l0 h0]|]; [simpl|done].
  destruct (h0 !! l0) as [c0|] eqn:Hc0; [simpl|done].
  set (h2 := if bool_decide (ConnectionIDLength c0 = 0%Z) then _ else _).
  destruct (h2 !! l0) as [c2|] eqn:Hc2; [simpl|done].
  destruct (AcceptToken c2) as [f|] eqn:Hf.
  - intros [= <- <-] Hc. assert (c = c2) as -> by congruence. by rewrite Hf.
  - intros [= <- <-]. rewrite lookup_insert_eq. intros [= <-]. by eexists.
Qed.

Lemma listen_server pconn tls cfg acceptEarly h now r w h' :
  listen pconn tls cfg acceptEarly h now r = Some (Ok w, h') →
  is_Some (AcceptToken (config (server w)))
  ∧ createdPacketConn (server w) = false
  ∧ acceptEarlySessions (server w) = acceptEarly
  ∧ conn (server w) = pconn
  ∧ sessions_made w = 0.
Proof.
  unfold listen. destruct tls as [tls'|]; [|done].
  destruct populateServerConfig as [[l1 h1]|] eqn:Hpop; [simpl|done].
  destruct (h1 !! l1) as [c'|] eqn:Hc; [simpl|done].
  destruct first_invalid_version; [done|].
  destruct AddConn; [|done].
  destruct NewTokenGenerator as [[tg|e] r']; [|done].
  intros [= <- <-]. simpl. split; [|done].
  by eapply populateServerConfig_AcceptToken.
Qed.

Lemma steps_server (labs : list Label) (l l' : Listener) :
  steps labs l = Some l' → server (world l') = server (world l).
Proof.
  revert l. induction labs as [|lab labs IH]; intros l; simpl.
  { by intros [= <-]. }
  destruct (step lab l) as [l1|] eqn:Hstep; [simpl|done].
  intros Hrest. apply step_structure in Hstep as (Hs & _). rewrite <- Hs. by apply IH.
Qed.

Lemma reachable_server (l : Listener) :
  reachable l → is_Some (AcceptToken (config (server (world l)))).
Proof.
  induction 1 as [conn tls cfg acceptEarly h now r w h' Hlisten
                 |conn tls cfg acceptEarly h now r w h' Hlisten
                 |l lab l' _ IH Hstep].
  - by apply listen_server in Hlisten as (? & _).
  - by apply listen_server in Hlisten as (? & _).
  - apply step_structure in Hstep as (Hs & _). by rewrite Hs.
Qed.

Lemma handlePacketImpl_is_Some (p : receivedPacket) (w : World) :
  is_Some (AcceptToken (config (server w))) → is_Some (handlePacketImpl p w).
Proof.
  intros [f Hf]. unfold handlePacketImpl.
  destruct (_ <? _)%Z; [by eexists|].
  destruct ParsePacket as [hdr|e]; [|by eexists].
  destruct (negb (wire.IsLongHeader hdr)); [by eexists|].
  destruct (negb (IsSupportedVersion _ _)); [by eexists|].
  destruct (_ && _); [by eexists|].
  unfold handleInitialImpl.
  destruct (too_short_connection_ID hdr); [by eexists|].
  destruct (decode_token (server w) hdr) as [tok orig]. rewrite Hf. simpl.
  destruct (negb (f _ _ _)); [by eexists|].
  destruct (MaxAcceptQueueSize <=? sessionQueueLen w)%Z; [by eexists|].
  destruct GenerateConnectionID as [[connID|e] r']; [|by eexists].
  destruct createNewSession as [[sess|] w1]; by eexists.
Qed.

(** X5: in every reachable state of a listener, whether [listen] returned
    it to its caller or [listenAddr] made it, the configured [AcceptToken]
    is a function (the default one if the caller left it nil), so
    [handlePacketImpl] does not panic on any packet, and the step of the
    intake task that handles a packet can always be taken. *)
Theorem intake_never_panics (l : Listener) (p : receivedPacket) :
  reachable l →
  (∃ f, AcceptToken (config (server (world l))) = Some f)
  ∧ (∃ b w', handlePacketImpl p (world l) = Some (b, w'))
  ∧ (intake l = handling p → ∃ l', run handle l = Some l').
Proof.
  intros Hreach. apply reachable_server in Hreach as Hf.
  split; [exact Hf|].
  destruct (handlePacketImpl_is_Some p (world l) Hf) as [[b w'] Himpl].
  split; [by exists b, w'|].
  intros Hpc. unfold run. rewrite Hpc. unfold run_packet. rewrite Himpl. simpl.
  by eexists.
Qed.

(** ** The intake task after the error channel has been closed *)

Lemma step_errorChan_closed (lab : Label) (l l' : Listener) :
  step lab l = Some l' → errorChan_closed l = true → errorChan_closed l' = true.
Proof.
  intros Hstep Hch. destruct lab as [s|t|i s|i|i| |e]; simpl in Hstep.
  - unfold run in Hstep.
    destruct s as [|q| |]; destruct (intake l) as [| |p|]; try done.
    + by injection Hstep as <-.
    + by injection Hstep as <-.
    + rewrite Hch in Hstep. by injection Hstep as <-.
    + destruct (run_packet p (world l)) as [w|]; [simpl in Hstep|done].
      by injection Hstep as <-.
  - destruct (_ <=? _)%Z; [|done]. by injection Hstep as <-.
  - destruct s; simpl in Hstep.
    + destruct (move i waiting offered l) as [l1|] eqn:Hm; [|done].
      injection Hstep as <-. apply move_inv in Hm as (_ & _ & _ & Hch1 & _).
      simpl. by rewrite Hch1.
    + apply move_inv in Hstep as (_ & _ & _ & Hch1 & _). by rewrite Hch1.
    + apply move_inv in Hstep as (_ & _ & _ & Hch1 & _). by rewrite Hch1.
    + destruct (move i withdrawing gone l) as [l1|] eqn:Hm; [|done].
      injection Hstep as <-. apply move_inv in Hm as (_ & _ & _ & Hch1 & _).
      simpl. by rewrite Hch1.
  - apply move_inv in Hstep as (_ & _ & _ & Hch1 & _). by rewrite Hch1.
  - unfold accept_decrement in Hstep.
    destruct (move i received accepted l) as [l1|] eqn:Hm; [|done].
    injection Hstep as <-. apply move_inv in Hm as (_ & _ & _ & Hch1 & _).
    simpl. by rewrite Hch1.
  - injection Hstep as <-. unfold Close. destruct (closed l); [done|].
    by destruct (createdPacketConn _).
  - injection Hstep as <-. unfold setCloseError. by destruct (closed l).
Qed.

Lemma step_intake (lab : Label) (l l' : Listener) :
  step lab l = Some l' → errorChan_closed l = true →
  length (packets_taken [lab]) + budget (intake l') ≤ budget (intake l)
  ∧ length (handoff l') + session_budget (intake l')
    ≤ length (handoff l) + session_budget (intake l)
  ∧ (intake l = returned → intake l' = returned).
Proof.
  assert (∀ i from to (l1 : Listener),
    move i from to l = Some l1 →
    intake l1 = intake l ∧ length (handoff l1) = length (handoff l)) as Hmove.
  { intros i from to l1 Hm. apply move_handoff in Hm as (_ & Hpc & sess & _ & Hh & _).
    split; [done|]. by rewrite Hh, length_insert. }
  intros Hstep Hch. destruct lab as [s|t|i s|i|i| |e]; simpl in Hstep.
  - unfold run in Hstep.
    destruct s as [|q| |]; destruct (intake l) as [| |p|]; try done.
    + injection Hstep as <-. simpl. rewrite Hch. simpl. split; [lia|]. split; [lia|done].
    + injection Hstep as <-. simpl. split; [lia|]. split; [lia|done].
    + rewrite Hch in Hstep. injection Hstep as <-. simpl. split; [lia|]. split; [lia|done].
    + destruct (run_packet p (world l)) as [w|] eqn:Hp; [simpl in Hstep|done].
      injection Hstep as <-. simpl. split; [lia|]. split; [|done].
      apply run_packet_events in Hp as (_ & _ & evs & Htr & _ & Hsp).
      rewrite Htr, spawned_handoffs_app, drop_app_length, length_app, length_fmap.
      destruct Hsp as [-> | (sess & -> & _)]; simpl; lia.
  - destruct (_ <=? _)%Z; [|done]. injection Hstep as <-. simpl.
    split; [lia|]. split; [lia|done].
  - destruct s; simpl in Hstep.
    + destruct (move i waiting offered l) as [l1|] eqn:Hm; [|done].
      injection Hstep as <-. apply Hmove in Hm as [Hpc Hlen].
      simpl. rewrite Hpc, Hlen. split; [lia|]. split; [lia|done].
    + apply Hmove in Hstep as [Hpc Hlen]. simpl. rewrite Hpc, Hlen.
      split; [lia|]. split; [lia|done].
    + apply Hmove in Hstep as [Hpc Hlen]. simpl. rewrite Hpc, Hlen.
      split; [lia|]. split; [lia|done].
    + destruct (move i withdrawing gone l) as [l1|] eqn:Hm; [|done].
      injection Hstep as <-. apply Hmove in Hm as [Hpc Hlen].
      simpl. rewrite Hpc, Hlen. split; [lia|]. split; [lia|done].
  - apply Hmove in Hstep as [Hpc Hlen]. simpl. rewrite Hpc, Hlen.
    split; [lia|]. split; [lia|done].
  - unfold accept_decrement in Hstep.
    destruct (move i received accepted l) as [l1|] eqn:Hm; [|done].
    injection Hstep as <-. apply Hmove in Hm as [Hpc Hlen].
    simpl. rewrite Hpc, Hlen. split; [lia|]. split; [lia|done].
  - injection Hstep as <-. unfold Close.
    destruct (closed l); [simpl; split; [lia|]; split; [lia|done]|].
    destruct (createdPacketConn _); simpl; (split; [lia|]; split; [lia|done]).
  - injection Hstep as <-. unfold setCloseError.
    destruct (closed l); simpl; (split; [lia|]; split; [lia|done]).
Qed.

(** X6: once the error channel is closed, the intake task takes at most
    one more packet from [s.receivedPackets], and only if it was already at
    its second [select]; at most one more session is created, and none if
    the task was at the top of its loop or had returned; a task that has
    returned stays so and takes no further step. *)
Theorem intake_stops_after_close (labs : list Label) (l l' : Listener) :
  errorChan_closed l = true →
  steps labs l = Some l' →
  length (packets_taken labs) ≤ 1
  ∧ (intake l ≠ at_receive → packets_taken labs = [])
  ∧ length (handoff l') ≤ S (length (handoff l))
  ∧ (intake l = at_check ∨ intake l = returned → length (handoff l') = length (handoff l))
  ∧ (intake l = returned → intake l' = returned)
  ∧ (intake l' = returned → ∀ s, run s l' = None).
Proof.
  intros Hch Hsteps.
  assert (length (packets_taken labs) + budget (intake l') ≤ budget (intake l)
          ∧ length (handoff l') + session_budget (intake l')
            ≤ length (handoff l) + session_budget (intake l)
          ∧ length (handoff l) ≤ length (handoff l')
          ∧ (intake l = returned → intake l' = returned)) as (Hbudget & Hsess & Hmono & Hret).
  { revert l Hch Hsteps. induction labs as [|lab labs IH]; intros l Hch.
    { intros [= <-]. simpl. split; [lia|]. split; [lia|]. split; [lia|done]. }
    assert (packets_taken (lab :: labs) = packets_taken [lab] ++ packets_taken labs) as ->
      by apply (omap_app _ [lab] labs).
    cbn [steps].
    destruct (step lab l) as [l1|] eqn:Hstep; [|done]. intros Hrest.
    change (steps labs l1 = Some l') in Hrest.
    pose proof (step_errorChan_closed lab l l1 Hstep Hch) as Hch1.
    destruct (step_intake lab l l1 Hstep Hch) as (Hb1 & Hs1 & Hr1).
    destruct (IH l1 Hch1 Hrest) as (Hb & Hs & Hm & Hr).
    apply step_structure in Hstep as (_ & _ & _ & evs & _ & Hh & _).
    apply (f_equal length) in Hh. unfold handoff_sessions in Hh.
    rewrite length_app, !length_fmap in Hh.
    rewrite length_app. split; [lia|]. split; [lia|]. split; [lia|]. auto. }
  split; [destruct (intake l); simpl in Hbudget; lia|].
  split.
  { intros Hpc. apply length_zero_iff_nil.
    destruct (intake l); simpl in Hbudget; try lia. done. }
  split; [destruct (intake l); simpl in Hsess; lia|].
  split.
  { intros [Hpc | Hpc]; rewrite Hpc in Hsess; simpl in Hsess; lia. }
  split; [done|].
  intros Hpc s. unfold run. rewrite Hpc. by destruct s.
Qed.

Lemma initial_world_coherent (w : World) : initial_world w → coherent (new_listener w).
Proof.
  intros [Htr Hmade]. unfold coherent, handoff_sessions. simpl. rewrite Htr. simpl.
  split; [done|]. split; [constructor|constructor].
Qed.

Lemma step_coherent (lab : Label) (l l' : Listener) :
  step lab l = Some l' → coherent l → coherent l'.
Proof.
  intros Hstep (Hsp & Hall & Hnodup).
  apply step_structure in Hstep as (Hs & Hmade & _ & evs & Htr & Hh & Hnew & _).
  unfold coherent. rewrite Hh, Htr, spawned_handoffs_app, Hsp.
  split; [done|].
  assert (Forall (λ sess, sess_id sess < sessions_made (world l') ∧ created_for_Initial l' sess)
            (spawned_handoffs (trace (world l)))) as Hold.
  { rewrite <- Hsp. eapply Forall_impl; [exact Hall|]. simpl.
    intros sess [Hid (p & hdr & Horigin & Hin)]. split; [lia|].
    exists p, hdr. rewrite Hs, Htr. split; [done|]. apply elem_of_app. by left. }
  destruct Hnew as [-> | (sess & p & -> & Hid & Hmade' & Hin & hdr & Horigin)].
  { rewrite !app_nil_r. split; [done|]. by rewrite <- Hsp. }
  split.
  - apply Forall_app. split; [done|]. apply Forall_singleton. split; [lia|].
    exists p, hdr. rewrite Hs, Htr. split; [done|]. apply elem_of_app. by right.
  - rewrite fmap_app. apply NoDup_app. split; [by rewrite <- Hsp|]. split.
    + intros id Hin1 Hin2. simpl in Hin2. apply list_elem_of_singleton in Hin2. subst id.
      apply list_elem_of_fmap in Hin1 as (s1 & Heq & Hs1).
      rewrite <- Hsp in Hs1. rewrite Forall_forall in Hall.
      destruct (Hall s1 Hs1) as [Hlt _]. lia.
    + simpl. apply NoDup_singleton.
Qed.

Lemma reachable_coherent (l : Listener) : reachable l → coherent l.
Proof.
  induction 1 as [pconn tls cfg acceptEarly h now r w h' Hlisten
                 |pconn tls cfg acceptEarly h now r w h' Hlisten
                 |l lab l' _ IH Hstep].
  - apply initial_world_coherent. split.
    + by apply listen_Ok_inv in Hlisten as [_ ?].
    + by apply listen_server in Hlisten as (_ & _ & _ & _ & ?).
  - apply initial_world_coherent. split.
    + by apply listen_Ok_inv in Hlisten as [_ ?].
    + by apply listen_server in Hlisten as (_ & _ & _ & _ & ?).
  - by apply (step_coherent lab l l').
Qed.

Lemma steps_after (labs : list Label) (l l' : Listener) (i : nat) (sess : quicSession)
    (pc : progress) :
  steps labs l = Some l' → handoff l !! i = Some (sess, pc) →
  ∃ pc', handoff l' !! i = Some (sess, pc') ∧ after pc pc' = true.
Proof.
  revert l pc. induction labs as [|lab labs IH]; intros l pc; simpl.
  { intros [= <-] Hi. exists pc. split; [done|apply after_refl]. }
  destruct (step lab l) as [l1|] eqn:Hstep; [simpl|done].
  intros Hrest Hi. apply step_structure in Hstep as (_ & _ & Hafter & _).
  destruct (Hafter i sess pc Hi) as (pc1 & Hi1 & Ha1).
  destruct (IH l1 pc1 Hrest Hi1) as (pc' & Hi' & Ha').
  exists pc'. split; [done|]. by apply after_trans with pc1.
Qed.

(** What a return of [accept] with a session means. *)
Lemma accept_session_inv (ctx : option error) (c : accept_case) (l : Listener)
    (sess : quicSession) (e : option error) (l' : Listener) :
  accept ctx c l = Some (Some sess, e, l') →
  ∃ i, c = case_sessionQueue i ∧ e = None
    ∧ handoff l !! i = Some (sess, offered)
    ∧ steps [L_accept_receive i; L_accept_decrement i] l = Some l'
    ∧ handoff l' = <[i := (sess, accepted)]> (handoff l)
    ∧ sessionQueueLen (world l') = wrap32 (sessionQueueLen (world l) - 1).
Proof.
  destruct c as [|i|]; simpl.
  - by destruct ctx.
  - destruct (handoff l !! i) as [[s pc]|] eqn:Hi; [simpl|done].
    destruct (accept_receive i l) as [l1|] eqn:Hrecv; [simpl|done].
    destruct (accept_decrement i l1) as [l2|] eqn:Hdec; [simpl|done].
    intros [= -> <- <-]. exists i. split; [done|]. split; [done|].
    unfold accept_decrement in Hdec.
    destruct (move i received accepted l1) as [l3|] eqn:Hm; [simpl in Hdec|done].
    injection Hdec as <-.
    pose proof Hrecv as Hrecv'. pose proof Hm as Hm'.
    apply move_handoff in Hrecv' as (Hw1 & _ & s1 & Hi1 & Hh1 & _).
    apply move_handoff in Hm' as (Hw3 & _ & s3 & Hi3 & Hh3 & _).
    assert (s1 = sess) as -> by congruence.
    assert (s3 = sess) as ->.
    { rewrite Hh1, list_lookup_insert_eq in Hi3 by (by eapply lookup_lt_Some). congruence. }
    split; [done|]. split.
    { cbn [steps step]. rewrite Hrecv. cbn [mbind option_bind].
      unfold accept_decrement. by rewrite Hm. }
    split.
    { cbn [handoff AddInt32 set_world]. by rewrite Hh3, Hh1, list_insert_insert_eq. }
    cbn [world AddInt32 set_world sessionQueueLen set_sessionQueueLen].
    by rewrite Hw3, Hw1.
  - by destruct (errorChan_closed l).
Qed.

(** A session whose task is no longer waiting or offering is not returned
    by [accept] any more. *)
Lemma left_queue_never_returned (l : Listener) (i : nat) (sess : quicSession) (pc : progress)
    (labs : list Label) (l2 : Listener) :
  reachable l →
  handoff l !! i = Some (sess, pc) → pc ≠ waiting → pc ≠ offered →
  steps labs l = Some l2 →
  ∀ ctx c sess' e l3, accept ctx c l2 = Some (Some sess', e, l3) →
    sess_id sess' ≠ sess_id sess.
Proof.
  intros Hreach Hi Hw Ho Hsteps ctx c sess' e l3 Haccept.
  pose proof (reachable_steps labs l l2 Hreach Hsteps) as Hreach2.
  apply reachable_coherent in Hreach2 as (_ & _ & Hnodup).
  destruct (steps_after labs l l2 i sess pc Hsteps Hi) as (pc2 & Hi2 & Hafter).
  apply accept_session_inv in Haccept as (j & _ & _ & Hj & _).
  assert (i ≠ j) as Hne.
  { intros ->. assert (pc2 = offered) as -> by congruence. by destruct pc. }
  intros Heq. apply Hne.
  apply (NoDup_lookup _ i j (sess_id sess) Hnodup).
  - unfold handoff_sessions. by rewrite !list_lookup_fmap, Hi2.
  - unfold handoff_sessions. rewrite !list_lookup_fmap, Hj. simpl. by rewrite Heq.
Qed.

(** X8: [accept] returns a session at most once.  After a call of
    [accept] has returned the session of the hand-over task [i], that task
    stays at its end, the session queue case for it cannot be taken again,
    and no later call of [accept] returns that session (the sessions of
    different tasks are different objects). *)
Theorem accept_returns_session_once (l : Listener) (ctx : option error) (i : nat)
    (sess : quicSession) (e : option error) (l1 : Listener) (labs : list Label)
    (l2 : Listener) :
  reachable l →
  accept ctx (case_sessionQueue i) l = Some (Some sess, e, l1) →
  steps labs l1 = Some l2 →
  handoff l2 !! i = Some (sess, accepted)
  ∧ (∀ ctx', accept ctx' (case_sessionQueue i) l2 = None)
  ∧ (∀ ctx' c sess' e' l3, accept ctx' c l2 = Some (Some sess', e', l3) →
       sess_id sess' ≠ sess_id sess ∧ sess' ≠ sess).
Proof.
  intros Hreach Haccept Hsteps.
  apply accept_session_inv in Haccept as (j & [= <-] & _ & Hi & Hsteps1 & Hh1 & _).
  pose proof (reachable_steps _ l l1 Hreach Hsteps1) as Hreach1.
  assert (handoff l1 !! i = Some (sess, accepted)) as Hi1.
  { rewrite Hh1. apply list_lookup_insert_eq. by eapply lookup_lt_Some. }
  destruct (steps_after labs l1 l2 i sess accepted Hsteps Hi1) as (pc2 & Hi2 & Hafter).
  assert (pc2 = accepted) as -> by (by destruct pc2).
  split; [done|]. split.
  - intros ctx'. simpl. rewrite Hi2. simpl. unfold accept_receive, move. rewrite Hi2. done.
  - intros ctx' c sess' e' l3 Haccept'.
    assert (sess_id sess' ≠ sess_id sess) as Hne
      by (by eapply (left_queue_never_returned l1 i sess accepted labs l2)).
    split; [done|]. congruence.
Qed.

(** X9: a session whose context is done before the hand-over is not passed
    to [accept] (the comment of l. 514).  Once [handleNewSession] has taken
    the [sessCtx.Done()] case of its first or of its second [select], no
    call of [accept] returns that session, whatever happens afterwards. *)
Theorem closed_session_not_accepted (l : Listener) (i : nat) (s : handoff_step)
    (sess : quicSession) (pc : progress) (l1 : Listener) (labs : list Label) (l2 : Listener) :
  reachable l →
  handoff l !! i = Some (sess, pc) →
  s = Done_while_waiting ∨ s = Done_while_offering →
  handleNewSession i s l = Some l1 →
  steps labs l1 = Some l2 →
  (∀ ctx', accept ctx' (case_sessionQueue i) l2 = None)
  ∧ (∀ ctx' c sess' e' l3, accept ctx' c l2 = Some (Some sess', e', l3) →
       sess_id sess' ≠ sess_id sess ∧ sess' ≠ sess).
Proof.
  intros Hreach Hi Hs Hdone Hsteps.
  assert (reachable l1) as Hreach1 by (by apply (reachable_step l (L_handleNewSession i s))).
  assert (∃ pc1, handoff l1 !! i = Some (sess, pc1) ∧ pc1 ≠ waiting ∧ pc1 ≠ offered)
    as (pc1 & Hi1 & Hw1 & Ho1).
  { destruct Hs as [-> | ->]; simpl in Hdone;
      apply move_handoff in Hdone as (_ & _ & s1 & Hi' & Hh1 & _);
      assert (s1 = sess) as -> by congruence;
      eexists; (split; [rewrite Hh1; apply list_lookup_insert_eq; by eapply lookup_lt_Some|done]). }
  destruct (steps_after labs l1 l2 i sess pc1 Hsteps Hi1) as (pc2 & Hi2 & Hafter).
  split.
  - intros ctx'. simpl. rewrite Hi2. simpl. unfold accept_receive, move. rewrite Hi2. simpl.
    rewrite bool_decide_eq_false_2; [done|]. intros ->. by destruct pc1.
  - intros ctx' c sess' e' l3 Haccept'.
    assert (sess_id sess' ≠ sess_id sess) as Hne
      by (by eapply (left_queue_never_returned l1 i sess pc1 labs l2)).
    split; [done|]. congruence.
Qed.


(** ** Closing *)

Lemma step_closed (lab : Label) (l l' : Listener) :
  step lab l = Some l' →
  (closed l = true → closed l' = true ∧ serverError l' = serverError l)
  ∧ (closed l = false → serverError l = None →
     closed l' = false ∧ serverError l' = None
     ∨ closed l' = true ∧ (lab = L_Close ∨ ∃ e, lab = L_setCloseError e)).
Proof.
  intros Hstep. split; [by apply (step_lifecycle lab l l')|].
  intros Hopen Herr. destruct lab as [s|t|i s|i|i| |e]; simpl in Hstep.
  - unfold run in Hstep.
    destruct s as [|q| |]; destruct (intake l) as [| |p|]; try done.
    + injection Hstep as <-. by left.
    + injection Hstep as <-. by left.
    + destruct (errorChan_closed l); [|done]. injection Hstep as <-. by left.
    + destruct (run_packet p (world l)) as [w|]; [simpl in Hstep|done].
      injection Hstep as <-. by left.
  - destruct (_ <=? _)%Z; [|done]. injection Hstep as <-. by left.
  - left. destruct s; simpl in Hstep.
    + destruct (move i waiting offered l) as [l1|] eqn:Hm; [|done].
      injection Hstep as <-. apply move_inv in Hm as (_ & Hc & He & _).
      simpl. by rewrite Hc, He.
    + apply move_inv in Hstep as (_ & Hc & He & _). by rewrite Hc, He.
    + apply move_inv in Hstep as (_ & Hc & He & _). by rewrite Hc, He.
    + destruct (move i withdrawing gone l) as [l1|] eqn:Hm; [|done].
      injection Hstep as <-. apply move_inv in Hm as (_ & Hc & He & _).
      simpl. by rewrite Hc, He.
  - left. apply move_inv in Hstep as (_ & Hc & He & _). by rewrite Hc, He.
  - left. unfold accept_decrement in Hstep.
    destruct (move i received accepted l) as [l1|] eqn:Hm; [|done].
    injection Hstep as <-. apply move_inv in Hm as (_ & Hc & He & _).
    simpl. by rewrite Hc, He.
  - injection Hstep as <-. right. split; [apply Close_inv|by left].
  - injection Hstep as <-. right. unfold setCloseError. rewrite Hopen. simpl.
    split; [done|]. right. by exists e.
Qed.

Lemma step_closing_invariant (lab : Label) (l l' : Listener) :
  step lab l = Some l' → closing_invariant l → closing_invariant l'.
Proof.
  intros Hstep [Hopen Hcalls].
  pose proof (step_closed lab l l' Hstep) as [Hkeep Hnew].
  apply step_structure in Hstep as (Hs & _ & _ & evs & Htr & _ & _ & Hclosing).
  unfold closing_invariant. rewrite Htr, closing_calls_app, Hs.
  destruct (closed l) eqn:Hclosed.
  - destruct (Hkeep eq_refl) as [Hc' _]. rewrite Hc'.
    destruct Hclosing as [[-> _] | (_ & ? & _)]; [|done].
    rewrite app_nil_r. split; [done|exact Hcalls].
  - destruct (Hopen eq_refl) as [Herr Hnone]. rewrite Hnone. simpl.
    destruct Hclosing as [[-> Hlab] | (-> & _ & Hc' & ->)].
    + split; [|by left].
      destruct (Hnew eq_refl Herr) as [[_ Herr'] | [Hc' _]]; [done|]. by rewrite Hc'.
    + rewrite Hc'. split; [done|by right].
Qed.

Lemma steps_closing_invariant (labs : list Label) (l l' : Listener) :
  steps labs l = Some l' → closing_invariant l → closing_invariant l'.
Proof.
  revert l. induction labs as [|lab labs IH]; intros l; simpl.
  { by intros [= <-]. }
  destruct (step lab l) as [l1|] eqn:Hstep; [simpl|done].
  intros Hrest Hinv. apply (IH l1 Hrest). by apply (step_closing_invariant lab l l1).
Qed.

(** X11: however often and in whatever order [Close] and [setCloseError]
    are called along a run, the session handler is told to close at most
    once: its calls [CloseServer] and [Destroy] are either absent from the
    trace, or they are exactly one [CloseServer], followed by one [Destroy]
    if the listener created the packet conn, and then the listener is
    closed.  On a closed listener [Close] returns nil and changes nothing.
    On an open one no error is stored yet, so [Close] stores the error
    server closed, makes those calls, and returns the result of [Destroy] if
    the listener created the packet conn and nil otherwise. *)
Theorem Close_calls_once (w : World) (labs : list Label) (l : Listener) :
  closing_calls (trace w) = [] →
  steps labs (new_listener w) = Some l →
  (closing_calls (trace (world l)) = []
   ∨ closed l = true
     ∧ closing_calls (trace (world l))
       = ev_CloseServer :: (if createdPacketConn (server w) then [ev_Destroy] else []))
  ∧ (closed l = true → Close l = (None, l))
  ∧ (closed l = false →
     serverError l = None
     ∧ closing_calls (trace (world l)) = []
     ∧ (Close l).1 = (if createdPacketConn (server w) then Destroy else None)
     ∧ serverError (Close l).2 = Some (errors_New "server closed")
     ∧ trace (world (Close l).2)
       = trace (world l)
         ++ ev_CloseServer :: (if createdPacketConn (server w) then [ev_Destroy] else [])).
Proof.
  intros Hfresh Hsteps.
  assert (closing_invariant (new_listener w)) as Hinv0.
  { split; [done|by left]. }
  destruct (steps_closing_invariant labs _ l Hsteps Hinv0) as [Hopen Hcalls].
  pose proof (steps_server labs _ l Hsteps) as Hs. simpl in Hs. rewrite Hs in Hcalls.
  split.
  { destruct Hcalls as [?|Hcalls]; [by left|]. right. split; [|done].
    destruct (closed l); [done|]. destruct (Hopen eq_refl) as [_ Hnone].
    rewrite Hnone in Hcalls. done. }
  split.
  { intros Hclosed. unfold Close. by rewrite Hclosed. }
  intros Hclosed. destruct (Hopen Hclosed) as [Herr Hnone].
  split; [done|]. split; [done|].
  unfold Close. rewrite Hclosed, Herr. cbn [server emit]. rewrite Hs.
  destruct (createdPacketConn (server w)); simpl; [|done].
  by rewrite <- app_assoc.
Qed.

(** X12: the first closer wins.  When [setCloseError] closes an open
    listener with the error [e], then from there on the listener stays
    closed with the error [e], [Close] returns nil and does nothing (it
    calls neither [CloseServer] nor [Destroy], even if the listener created
    the packet conn), a second [setCloseError] does nothing, and the error
    channel case of [accept] returns [e] (which is nil if [e] is). *)
Theorem setCloseError_first (l : Listener) (e : option error) (labs : list Label)
    (l2 : Listener) :
  closed l = false →
  steps labs (setCloseError e l) = Some l2 →
  closed l2 = true ∧ errorChan_closed l2 = true ∧ serverError l2 = e
  ∧ closing_calls (trace (world l2)) = closing_calls (trace (world l))
  ∧ Close l2 = (None, l2)
  ∧ (∀ e', setCloseError e' l2 = l2)
  ∧ (∀ ctx, accept ctx case_errorChan l2 = Some (None, e, l2)).
Proof.
  intros Hopen Hsteps.
  set (l1 := setCloseError e l) in *.
  assert (closed l1 = true ∧ errorChan_closed l1 = true ∧ serverError l1 = e
          ∧ world l1 = world l) as (Hc1 & Hch1 & He1 & Hw1).
  { unfold l1, setCloseError. by rewrite Hopen. }
  destruct (steps_closed labs l1 l2 Hsteps Hc1) as [Hc2 He2].
  assert (errorChan_closed l2 = true
          ∧ closing_calls (trace (world l2)) = closing_calls (trace (world l1)))
    as [Hch2 Hcalls].
  { clearbody l1. clear Hopen Hw1 He1 He2 Hc2. revert l1 Hc1 Hch1 Hsteps.
    induction labs as [|lab labs IH]; intros l1 Hc1 Hch1; simpl.
    { by intros [= <-]. }
    destruct (step lab l1) as [l3|] eqn:Hstep; [simpl|done]. intros Hrest.
    pose proof (step_errorChan_closed lab l1 l3 Hstep Hch1) as Hch3.
    pose proof (step_lifecycle lab l1 l3 Hstep) as [_ Hkeep].
    destruct (Hkeep Hc1) as [Hc3 _].
    destruct (IH l3 Hc3 Hch3 Hrest) as [? Hcalls].
    split; [done|]. rewrite Hcalls.
    apply step_structure in Hstep as (_ & _ & _ & evs & Htr & _ & _ & Hclosing).
    rewrite Htr, closing_calls_app.
    destruct Hclosing as [[-> _] | (_ & ? & _)]; [by rewrite app_nil_r|congruence]. }
  split; [done|]. split; [done|]. split; [congruence|]. split; [by rewrite Hcalls, Hw1|].
  split; [unfold Close; by rewrite Hc2|].
  split; [intros e'; unfold setCloseError; by rewrite Hc2|].
  intros ctx. simpl. rewrite Hch2. by rewrite He2, He1.
Qed.

Lemma step_handled (lab : Label) (l l' : Listener) :
  step lab l = Some l' →
  match lab with
  | L_run (receive p) => handled l' = handled l ∧ in_hand (intake l) = []
                         ∧ in_hand (intake l') = [p]
  | _ => handled l' ++ in_hand (intake l') = handled l ++ in_hand (intake l)
  end.
Proof.
  intros Hstep. destruct lab as [s|t|i s|i|i| |e]; simpl in Hstep.
  - unfold run in Hstep.
    destruct s as [|q| |]; destruct (intake l) as [| |p|] eqn:Hpc; try done.
    + injection Hstep as <-. unfold handled. simpl. by destruct (errorChan_closed l).
    + by injection Hstep as <-.
    + destruct (errorChan_closed l); [|done]. by injection Hstep as <-.
    + destruct (run_packet p (world l)) as [w|] eqn:Hp; [simpl in Hstep|done].
      injection Hstep as <-.
      apply run_packet_buffer in Hp as (evs & owner & Htr & Hown & _).
      unfold handled. simpl. rewrite Htr, buffer_owners_app, Hown, fmap_app, app_nil_r.
      done.
  - destruct (_ <=? _)%Z; [|done]. by injection Hstep as <-.
  - destruct s; simpl in Hstep.
    + destruct (move i waiting offered l) as [l1|] eqn:Hm; [|done].
      injection Hstep as <-. apply move_handoff in Hm as (Hw & Hpc & _).
      unfold handled. simpl. by rewrite Hw, Hpc.
    + apply move_handoff in Hstep as (Hw & Hpc & _). unfold handled. by rewrite Hw, Hpc.
    + apply move_handoff in Hstep as (Hw & Hpc & _). unfold handled. by rewrite Hw, Hpc.
    + destruct (move i withdrawing gone l) as [l1|] eqn:Hm; [|done].
      injection Hstep as <-. apply move_handoff in Hm as (Hw & Hpc & _).
      unfold handled. simpl. by rewrite Hw, Hpc.
  - apply move_handoff in Hstep as (Hw & Hpc & _). unfold handled. by rewrite Hw, Hpc.
  - unfold accept_decrement in Hstep.
    destruct (move i received accepted l) as [l1|] eqn:Hm; [|done].
    injection Hstep as <-. apply move_handoff in Hm as (Hw & Hpc & _).
    unfold handled. simpl. by rewrite Hw, Hpc.
  - injection Hstep as <-. unfold Close. destruct (closed l); [done|].
    unfold handled. cbn [server emit].
    destruct (createdPacketConn _); simpl; rewrite !buffer_owners_app; simpl;
      by rewrite ?app_nil_r.
  - injection Hstep as <-. unfold setCloseError. by destruct (closed l).
Qed.

(** X7: packets go through the channel [s.receivedPackets] in order and
    none is lost.  At every point of a run, the packets that the intake task
    has handled (each released or handed to a session, in this order),
    followed by the packet it has in hand and by the packets in the channel,
    are the packets that [handlePacket] was called with, in the order of
    the calls; the channel never holds more than 1000 packets. *)
Theorem packets_handled_in_order (w : World) (labs : list ServerLabel) (s : Server) :
  buffer_owners (trace w) = [] →
  server_steps labs {| listener := new_listener w; receivedPackets := [] |} = Some s →
  (buffer_owners (trace (world (listener s)))).*1
  ++ in_hand (intake (listener s)) ++ receivedPackets s
  = submitted labs
  ∧ length (receivedPackets s) ≤ 1000.
Proof.
  intros Hfresh Hsteps.
  assert (∀ s0 : Server,
    length (receivedPackets s0) ≤ 1000 →
    server_steps labs s0 = Some s →
    handled (listener s) ++ in_hand (intake (listener s)) ++ receivedPackets s
    = handled (listener s0) ++ in_hand (intake (listener s0)) ++ receivedPackets s0
      ++ submitted labs
    ∧ length (receivedPackets s) ≤ 1000) as Hgen.
  { clear. induction labs as [|lab labs IH]; intros s0 Hcap.
    { intros [= <-]. simpl. by rewrite app_nil_r. }
    assert (submitted (lab :: labs) = submitted [lab] ++ submitted labs) as ->
      by apply (omap_app _ [lab] labs).
    cbn [server_steps].
    destruct (server_step lab s0) as [s1|] eqn:Hstep; [|done]. intros Hrest.
    change (server_steps labs s1 = Some s) in Hrest.
    assert (length (receivedPackets s1) ≤ 1000
            ∧ handled (listener s1) ++ in_hand (intake (listener s1)) ++ receivedPackets s1
              = handled (listener s0) ++ in_hand (intake (listener s0))
                ++ receivedPackets s0 ++ submitted [lab]) as [Hcap1 Hone].
    { destruct lab as [p| |lab]; cbn [server_step] in Hstep.
      - unfold handlePacket in Hstep. case_bool_decide as Hroom; [|done].
        injection Hstep as <-. simpl. rewrite length_app. simpl. split; [lia|done].
      - destruct (receivedPackets s0) as [|p rest] eqn:Hch; [done|].
        destruct (run (receive p) (listener s0)) as [l1|] eqn:Hrun; [|done].
        cbn [mbind option_bind] in Hstep.
        injection Hstep as <-. simpl in *.
        apply (step_handled (L_run (receive p))) in Hrun as (Hh & Hin0 & Hin1).
        rewrite Hh, Hin0, Hin1. split; [lia|]. by rewrite app_nil_r.
      - assert (step lab (listener s0)
                ≫= (λ l, Some {| listener := l; receivedPackets := receivedPackets s0 |})
                = Some s1 ∧ ∀ p, lab ≠ L_run (receive p)) as [Hstep' Hlab].
        { destruct lab as [[]| | | | | |]; done. }
        destruct (step lab (listener s0)) as [l1|] eqn:Hl; [simpl in Hstep'|done].
        injection Hstep' as <-. simpl. split; [done|].
        apply step_handled in Hl. rewrite app_nil_r, !app_assoc. f_equal.
        destruct lab as [[]| | | | | |]; done. }
    destruct (IH s1 Hcap1 Hrest) as [Hall Hcap'].
    split; [|done]. rewrite Hall, !app_assoc. f_equal.
    rewrite <- !app_assoc. exact Hone. }
  destruct (Hgen {| listener := new_listener w; receivedPackets := [] |}
              ltac:(simpl; lia) Hsteps) as [Hall Hcap].
  split; [|done]. unfold handled in Hall. simpl in Hall. rewrite Hfresh in Hall. done.
Qed.

(** X16: the server-busy reply is consistent with its length field.  When
    the frame is written with the length that [ccf.Length] announced, the
    datagram that [sendServerBusy] sends has the length of the header plus
    the frame plus the overhead of the sealer; the value that was put into
    the length field of its header is the number of bytes from the packet
    number to the end of the datagram; the bytes between the first byte and
    the packet number are those that were written; and what follows the
    packet number is the frame sealed with the written header as associated
    data. *)
Theorem sendServerBusy_Length_field (s : baseServer) (addr : Addr) (hdr : wire.Header)
    (first : byte) (middle pn frame : list byte) :
  let sealer := Initial_sealer hdr in
  let len := (4 + ConnectionCloseFrame_Length spec_ServerBusy_frame (wire.Version hdr)
              + Z.of_nat (Overhead sealer))%Z in
  ExtendedHeader_Write
    (spec_ServerBusy_header (wire.Version hdr) (wire.DestConnectionID hdr)
       (wire.SrcConnectionID hdr) len)
    (wire.Version hdr) = Ok (first :: middle ++ pn) →
  length pn = 4 →
  ConnectionCloseFrame_Write spec_ServerBusy_frame (wire.Version hdr) = Ok frame →
  ConnectionCloseFrame_Length spec_ServerBusy_frame (wire.Version hdr)
  = Z.of_nat (length frame) →
  ∃ packet,
    sendServerBusy s addr hdr = (Returned None, [(packet, addr)])
    ∧ length packet = 1 + length middle + 4 + length frame + Overhead sealer
    ∧ Z.of_nat (length (drop (1 + length middle) packet)) = len
    ∧ take (length middle) (drop 1 packet) = middle
    ∧ drop (1 + length middle + 4) packet = Seal sealer frame 0 (first :: middle ++ pn).
Proof.
  intros sealer len Hhdr Hpn Hframe Hlen.
  rewrite (sendServerBusy_packet s addr hdr first middle pn frame Hhdr Hpn Hframe).
  eexists. split; [done|].
  unfold spec_ServerBusy_packet. fold sealer.
  set (header := first :: middle ++ pn).
  set (payload := Seal sealer frame 0 header).
  destruct (EncryptHeader sealer _ first pn) as [first' pn'] eqn:Henc.
  assert (length pn' = 4) as Hpn'.
  { pose proof (EncryptHeader_length sealer
      (take 16 (drop (1 + length middle + 4) (header ++ payload))) first pn) as Hl.
    rewrite Henc in Hl. simpl in Hl. lia. }
  assert (length payload = length frame + Overhead sealer) as Hpayload
    by apply Seal_length.
  split; [|split; [|split]].
  - simpl. rewrite !length_app. lia.
  - simpl. rewrite drop_app_length, !length_app. unfold len. rewrite Hlen. lia.
  - simpl. rewrite drop_0. by rewrite take_app_length.
  - change (first' :: middle ++ pn' ++ payload)
      with ([first'] ++ middle ++ pn' ++ payload).
    rewrite !app_assoc.
    rewrite drop_app_length'; [done|rewrite !length_app; simpl; lia].
Qed.

End listener_facts.

Section listenAddr_theorems.
Context `{!protocol_pkg, !wire_pkg, !handshake_pkg, !multiplexer_pkg, !net_pkg}.

Lemma listenAddr_Ok_inv addr tls cfg acceptEarly h now r w h' :
  listenAddr addr tls cfg acceptEarly h now r = Some (Ok w, h') →
  ∃ udpAddr pconn w0,
    ResolveUDPAddr "udp" addr = Ok udpAddr
    ∧ ListenUDP "udp" udpAddr = Ok pconn
    ∧ listen pconn tls cfg acceptEarly h now r = Some (Ok w0, h')
    ∧ w = set_createdPacketConn true w0.
Proof.
  unfold listenAddr.
  destruct (ResolveUDPAddr "udp" addr) as [udpAddr|e] eqn:Hresolve; [|done].
  destruct (ListenUDP "udp" udpAddr) as [pconn|e] eqn:Hsocket; [|done].
  destruct (listen pconn tls cfg acceptEarly h now r) as [[[w0|e] h0]|] eqn:Hlisten;
    simpl; [|done..].
  intros [= <- <-]. by exists udpAddr, pconn, w0.
Qed.

(** The listeners that [listenAddr] returns, and so those of [ListenAddr]
    and [ListenAddrEarly], are among the reachable ones, for every
    implementation of package [net]. *)
Lemma listenAddr_reachable addr tls cfg acceptEarly h now r w h' :
  listenAddr addr tls cfg acceptEarly h now r = Some (Ok w, h') →
  reachable (new_listener w).
Proof.
  intros Hlisten.
  apply listenAddr_Ok_inv in Hlisten as (udpAddr & pconn & w0 & _ & _ & Hlisten & ->).
  by eapply reachable_listenAddr.
Qed.

(** X13: a listener that [listenAddr] returned (for [ListenAddr] or
    [ListenAddrEarly]) has created its packet conn: [Close] on it, while it
    is open, calls [CloseServer] and then [Destroy], and returns the result
    of [Destroy].  A listener that [listen] returned for a packet conn of
    the caller ([Listen], [ListenEarly]) leaves the conn alone: [Close]
    calls only [CloseServer] and returns nil.  In both cases the listener
    accepts early sessions exactly if it was asked to. *)
Theorem Close_destroys_own_conn (tls : option TLSConfig) (cfg : option loc)
    (acceptEarly : bool) (h : heap) (now : Z) (r : Rand) (w : World) (h' : heap)
    (labs : list Label) (l : Listener) :
  steps labs (new_listener w) = Some l →
  closed l = false →
  (∀ addr, listenAddr addr tls cfg acceptEarly h now r = Some (Ok w, h') →
     createdPacketConn (server w) = true
     ∧ acceptEarlySessions (server w) = acceptEarly
     ∧ Close l = (Destroy, (Close l).2)
     ∧ trace (world (Close l).2) = trace (world l) ++ [ev_CloseServer; ev_Destroy])
  ∧ (∀ pconn, listen pconn tls cfg acceptEarly h now r = Some (Ok w, h') →
     createdPacketConn (server w) = false
     ∧ acceptEarlySessions (server w) = acceptEarly
     ∧ Close l = (None, (Close l).2)
     ∧ trace (world (Close l).2) = trace (world l) ++ [ev_CloseServer]).
Proof.
  intros Hsteps Hopen.
  pose proof (steps_server labs _ l Hsteps) as Hs. simpl in Hs.
  split.
  - intros addr Hlisten.
    apply listenAddr_Ok_inv in Hlisten as (udpAddr & pconn & w0 & _ & _ & Hlisten & ->).
    apply listen_server in Hlisten as (_ & _ & Hearly & _).
    split; [done|]. split; [done|].
    unfold Close. rewrite Hopen. cbn [server emit]. rewrite Hs. simpl.
    split; [done|]. by rewrite <- app_assoc.
  - intros pconn Hlisten.
    apply listen_server in Hlisten as (_ & Hconn & Hearly & _).
    split; [done|]. split; [done|].
    unfold Close. rewrite Hopen. cbn [server emit]. rewrite Hs, Hconn. done.
Qed.

End listenAddr_theorems.

(** * When [listen] succeeds *)

Section listen_outcomes.
Context `{!protocol_pkg, !wire_pkg, !handshake_pkg, !multiplexer_pkg}.

(** X19: [listen] returns a listener exactly when the [tls.Config] is not
    nil, every version of the defaulted configuration [c'] is valid, the
    multiplexer registers the connection and the token generator can be
    made; an error of the multiplexer or of the token generator is
    returned as it is.  The configuration of the caller is left as it
    was, and the listener holds the connection, the packet handler map
    and the token generator it was given. *)
Theorem listen_succeeds_exactly (pconn : nat) (tls : option TLSConfig) (cfg : option loc)
    (acceptEarly : bool) (h : heap) (now0 : Z) (r : Rand) (c : Config) :
  pointee cfg h = Some c →
  ∃ res h' l1 h1 c',
    listen pconn tls cfg acceptEarly h now0 r = Some (res, h')
    ∧ populateServerConfig cfg h = Some (l1, h1) ∧ h1 !! l1 = Some c'
    ∧ (∀ l, is_Some (h !! l) → h' !! l = h !! l)
    ∧ ((∃ w, res = Ok w)
       ↔ is_Some tls
         ∧ Forall (λ v, IsValidVersion v = true) (Versions c')
         ∧ (∃ sh, AddConn pconn (ConnectionIDLength c') (StatelessResetKey c') = Ok sh)
         ∧ (∃ tg r', NewTokenGenerator r = (Ok tg, r')))
    ∧ (is_Some tls → Forall (λ v, IsValidVersion v = true) (Versions c') →
       (∀ e, AddConn pconn (ConnectionIDLength c') (StatelessResetKey c') = Err e →
          res = Err e)
       ∧ (∀ sh e r', AddConn pconn (ConnectionIDLength c') (StatelessResetKey c') = Ok sh →
            NewTokenGenerator r = (Err e, r') → res = Err e))
    ∧ (∀ w, res = Ok w →
       AddConn pconn (ConnectionIDLength c') (StatelessResetKey c') = Ok (sessionHandler w)
       ∧ NewTokenGenerator r = (Ok (tokenGenerator (server w)), rand w)
       ∧ conn (server w) = pconn
       ∧ acceptEarlySessions (server w) = acceptEarly
       ∧ createdPacketConn (server w) = false
       ∧ now w = now0).
Proof.
  intros Hc. unfold listen.
  destruct (populateServerConfig_alloc cfg h c Hc)
    as (l1 & h1 & c' & Hrun & Hval & _ & Hold & _).
  destruct tls as [tls'|].
  2:{ eexists _, _, l1, h1, c'. split; [done|]. split; [done|]. split; [done|].
      split; [done|]. split.
      - split; [by intros [w ?]|]. by intros [[? ?] _].
      - split; [by intros [? ?]|done]. }
  rewrite Hrun. simpl. rewrite Hval. simpl.
  destruct (first_invalid_version (Versions c')) as [v|] eqn:Hfirst.
  { apply first_invalid_version_Some in Hfirst as [Hin Hinv].
    assert (¬ Forall (λ v, IsValidVersion v = true) (Versions c')) as Hno.
    { rewrite Forall_forall. intros Hall. specialize (Hall v Hin). congruence. }
    eexists _, _, l1, h1, c'. split; [done|]. split; [done|]. split; [done|].
    split; [done|]. split.
    - split; [by intros [w ?]|]. intros (_ & Hall & _). by destruct Hno.
    - split; [|done]. intros _ Hall. by destruct Hno. }
  pose proof (first_invalid_version_None _ Hfirst) as Hall.
  destruct (AddConn pconn (ConnectionIDLength c') (StatelessResetKey c')) as [sh|e] eqn:Hadd.
  2:{ eexists _, _, l1, h1, c'. split; [done|]. split; [done|]. split; [done|].
      split; [done|]. split.
      - split; [by intros [w ?]|]. intros (_ & _ & [? ?] & _); congruence.
      - split; [|done]. intros _ _. split; intros; congruence. }
  destruct (NewTokenGenerator r) as [[tg|e] r'] eqn:Hgen.
  2:{ eexists _, _, l1, h1, c'. split; [done|]. split; [done|]. split; [done|].
      split; [done|]. split.
      - split; [by intros [w ?]|]. intros (_ & _ & _ & ? & ? & ?); congruence.
      - split; [|done]. intros _ _. split; intros; congruence. }
  eexists _, _, l1, h1, c'. split; [done|]. split; [done|]. split; [done|].
  split; [done|]. split.
  - split; [|by eexists]. intros _. split; [by eexists|]. split; [done|].
    split; by eauto.
  - split; [intros; split; intros; congruence|]. intros w [= <-]. simpl. by rewrite Hadd.
Qed.

End listen_outcomes.

(** * Further properties of the configuration *)

Section config_theorems.
Context `{!protocol_pkg}.

Lemma Config_eq (a b : Config) :
  Versions a = Versions b → HandshakeTimeout a = HandshakeTimeout b →
  MaxIdleTimeout a = MaxIdleTimeout b → AcceptToken a = AcceptToken b →
  KeepAlive a = KeepAlive b →
  MaxReceiveStreamFlowControlWindow a = MaxReceiveStreamFlowControlWindow b →
  MaxReceiveConnectionFlowControlWindow a = MaxReceiveConnectionFlowControlWindow b →
  MaxIncomingStreams a = MaxIncomingStreams b →
  MaxIncomingUniStreams a = MaxIncomingUniStreams b →
  ConnectionIDLength a = ConnectionIDLength b →
  StatelessResetKey a = StatelessResetKey b →
  TokenStore a = TokenStore b → QuicTracer a = QuicTracer b →
  a = b.
Proof. destruct a, b; simpl; intros; by subst. Qed.

(** The fields of a populated configuration, one by one. *)
Lemma populateServerConfig_fields (cfg : option loc) (h : heap) (l1 : loc) (h1 : heap)
    (c c1 : Config) :
  pointee cfg h = Some c →
  populateServerConfig cfg h = Some (l1, h1) → h1 !! l1 = Some c1 →
  h !! l1 = None
  ∧ (∀ l, is_Some (h !! l) → h1 !! l = h !! l)
  ∧ Versions c1 = Versions (populateConfig_value c)
  ∧ HandshakeTimeout c1 = HandshakeTimeout (populateConfig_value c)
  ∧ MaxIdleTimeout c1 = MaxIdleTimeout (populateConfig_value c)
  ∧ AcceptToken c1 = Some (default defaultAcceptToken (AcceptToken c))
  ∧ KeepAlive c1 = KeepAlive c
  ∧ MaxReceiveStreamFlowControlWindow c1
    = MaxReceiveStreamFlowControlWindow (populateConfig_value c)
  ∧ MaxReceiveConnectionFlowControlWindow c1
    = MaxReceiveConnectionFlowControlWindow (populateConfig_value c)
  ∧ MaxIncomingStreams c1 = MaxIncomingStreams (populateConfig_value c)
  ∧ MaxIncomingUniStreams c1 = MaxIncomingUniStreams (populateConfig_value c)
  ∧ ConnectionIDLength c1
    = (if bool_decide (ConnectionIDLength c = 0%Z) then DefaultConnectionIDLength
       else ConnectionIDLength c)
  ∧ StatelessResetKey c1 = StatelessResetKey c
  ∧ TokenStore c1 = TokenStore c
  ∧ QuicTracer c1 = QuicTracer c.
Proof.
  intros Hc Hpop Hval.
  destruct (populateServerConfig_alloc cfg h c Hc)
    as (l1' & h1' & c' & Hrun & Hval' & Hnew & Hold & Hlen & Hacc & Hrest).
  assert (l1' = l1 ∧ h1' = h1) as [-> ->] by (split; congruence).
  assert (c' = c1) as -> by congruence.
  split; [done|]. split; [done|].
  pose proof (f_equal Versions Hrest). pose proof (f_equal HandshakeTimeout Hrest).
  pose proof (f_equal MaxIdleTimeout Hrest). pose proof (f_equal KeepAlive Hrest).
  pose proof (f_equal MaxReceiveStreamFlowControlWindow Hrest).
  pose proof (f_equal MaxReceiveConnectionFlowControlWindow Hrest).
  pose proof (f_equal MaxIncomingStreams Hrest).
  pose proof (f_equal MaxIncomingUniStreams Hrest).
  pose proof (f_equal StatelessResetKey Hrest).
  pose proof (f_equal TokenStore Hrest). pose proof (f_equal QuicTracer Hrest).
  done.
Qed.

(** X14: populating a populated configuration.  [populateServerConfig]
    applied to its own result returns a pointer to another new [Config] and
    leaves the first result as it is; the new value equals the first result
    when the stream limits of the configuration passed in at first and their
    defaults are not negative.  A negative [MaxIncomingStreams] or
    [MaxIncomingUniStreams] does not survive the second pass: the first pass
    makes it 0, and the second pass takes 0 for unset and puts the
    default. *)
Theorem populateServerConfig_twice (cfg : option loc) (h : heap) (l1 : loc) (h1 : heap)
    (c c1 : Config) :
  pointee cfg h = Some c →
  populateServerConfig cfg h = Some (l1, h1) → h1 !! l1 = Some c1 →
  ∃ l2 h2 c2,
    populateServerConfig (Some l1) h1 = Some (l2, h2) ∧ h2 !! l2 = Some c2
    ∧ l2 ≠ l1 ∧ h2 !! l1 = Some c1
    ∧ ((0 ≤ DefaultMaxIncomingStreams)%Z → (0 ≤ DefaultMaxIncomingUniStreams)%Z →
       (0 ≤ MaxIncomingStreams c)%Z → (0 ≤ MaxIncomingUniStreams c)%Z →
       c2 = c1)
    ∧ ((MaxIncomingStreams c < 0)%Z →
       MaxIncomingStreams c1 = 0%Z ∧ MaxIncomingStreams c2 = DefaultMaxIncomingStreams)
    ∧ ((MaxIncomingUniStreams c < 0)%Z →
       MaxIncomingUniStreams c1 = 0%Z
       ∧ MaxIncomingUniStreams c2 = DefaultMaxIncomingUniStreams).
Proof.
  intros Hc Hpop Hval.
  destruct (populateServerConfig_fields cfg h l1 h1 c c1 Hc Hpop Hval)
    as (_ & _ & Hv & Hh & Hi & Ha & Hk & Hs & Hcw & Hm & Hu & Hl & Hr & Ht & Hq).
  assert (pointee (Some l1) h1 = Some c1) as Hc1 by done.
  destruct (populateServerConfig_alloc (Some l1) h1 c1 Hc1)
    as (l2 & h2 & c2 & Hrun2 & Hval2 & Hnew2 & Hold2 & _).
  destruct (populateServerConfig_fields (Some l1) h1 l2 h2 c1 c2 Hc1 Hrun2 Hval2)
    as (_ & _ & Hv2 & Hh2 & Hi2 & Ha2 & Hk2 & Hs2 & Hcw2 & Hm2 & Hu2 & Hl2 & Hr2 & Ht2 & Hq2).
  exists l2, h2, c2. split; [done|]. split; [done|].
  split; [congruence|]. split; [rewrite Hold2; [done|by eexists]|].
  simpl in *.
  split; [|split].
  - intros HD HDu Hpos Hposu. apply Config_eq.
    + rewrite Hv2, !Hv. clear. repeat case_bool_decide; done.
    + rewrite Hh2, !Hh. clear. repeat case_bool_decide; done.
    + rewrite Hi2, !Hi. clear. repeat case_bool_decide; done.
    + by rewrite Ha2, Ha.
    + done.
    + rewrite Hs2, !Hs. clear. repeat case_bool_decide; congruence.
    + rewrite Hcw2, !Hcw. clear. repeat case_bool_decide; congruence.
    + rewrite Hm2, !Hm. clear -HD Hpos.
      destruct (Z.ltb_spec (MaxIncomingStreams c) 0); [lia|].
      repeat case_bool_decide; try done; try lia;
        repeat (match goal with |- context [(?a <? ?b)%Z] => destruct (Z.ltb_spec a b) end);
        lia.
    + rewrite Hu2, !Hu. clear -HDu Hposu.
      destruct (Z.ltb_spec (MaxIncomingUniStreams c) 0); [lia|].
      repeat case_bool_decide; try done; try lia;
        repeat (match goal with |- context [(?a <? ?b)%Z] => destruct (Z.ltb_spec a b) end);
        lia.
    + rewrite Hl2, !Hl. clear. repeat case_bool_decide; done.
    + done.
    + done.
    + done.
  - intros Hneg. rewrite Hm2, Hm.
    rewrite bool_decide_eq_false_2 by lia.
    apply Z.ltb_lt in Hneg. rewrite Hneg. done.
  - intros Hneg. rewrite Hu2, Hu.
    rewrite bool_decide_eq_false_2 by lia.
    apply Z.ltb_lt in Hneg. rewrite Hneg. done.
Qed.

(** X15: [defaultAcceptToken].  A token that it accepts at some time for
    some address has not expired (the time is at most the send time plus
    the validity, which is [RetryTokenValidity] for a retry token and
    [TokenValidity] otherwise); it is accepted at every earlier time as
    well, and rejected for every address at every time after the expiry.
    For a UDP address only the IP is compared, so the verdict is the same
    for every port; for any other address the whole text is compared.  A
    token that is accepted as a retry token would also be accepted as an
    ordinary token. *)
Theorem defaultAcceptToken_window (now : Z) (clientAddr : Addr) (token : Token) :
  defaultAcceptToken now clientAddr (Some token) = true →
  let validity := if IsRetryToken token then RetryTokenValidity else TokenValidity in
  (now ≤ SentTime token + validity)%Z
  ∧ (∀ now', (now' ≤ now)%Z → defaultAcceptToken now' clientAddr (Some token) = true)
  ∧ (∀ now' a, (SentTime token + validity < now')%Z →
       defaultAcceptToken now' a (Some token) = false)
  ∧ (∀ ip port port', clientAddr = UDPAddr ip port →
       defaultAcceptToken now (UDPAddr ip port') (Some token) = true
       ∧ RemoteAddr token = ip)
  ∧ (∀ text, clientAddr = OtherAddr text → RemoteAddr token = text)
  ∧ defaultAcceptToken now clientAddr
      (Some {| IsRetryToken := false; RemoteAddr := RemoteAddr token;
               SentTime := SentTime token |}) = true.
Proof.
  intros Haccept validity. unfold defaultAcceptToken in *. fold validity in Haccept.
  destruct (SentTime token + validity <? now)%Z eqn:Hexp; [done|].
  apply Z.ltb_ge in Hexp. apply bool_decide_eq_true in Haccept.
  split; [done|]. split; [|split; [|split; [|split]]].
  - intros now' Hle. fold validity.
    assert ((SentTime token + validity <? now')%Z = false) as -> by (apply Z.ltb_ge; lia).
    by apply bool_decide_eq_true.
  - intros now' a Hlt. fold validity. apply Z.ltb_lt in Hlt. by rewrite Hlt.
  - intros ip port port' ->. fold validity.
    assert ((SentTime token + validity <? now)%Z = false) as -> by (apply Z.ltb_ge; lia).
    split; [by apply bool_decide_eq_true|done].
  - by intros text ->.
  - simpl.
    assert ((SentTime token + TokenValidity <? now)%Z = false) as ->.
    { apply Z.ltb_ge. unfold validity in Hexp.
      destruct (IsRetryToken token); unfold RetryTokenValidity, TokenValidity in *; lia. }
    by apply bool_decide_eq_true.
Qed.

End config_theorems.

(** * Further properties of the client session cache *)

Section binary_facts.

Lemma lor_shiftl (x y k : Z) :
  (0 ≤ k)%Z → (0 ≤ x < 2 ^ k)%Z → Z.lor x (Z.shiftl y k) = (x + y * 2 ^ k)%Z.
Proof.
  intros Hk Hx. rewrite <- Z.add_lor_land, Z.shiftl_mul_pow2 by done.
  assert (Z.land x (y * 2 ^ k) = 0)%Z as ->; [|lia].
  apply Z.bits_inj'. intros n Hn. rewrite Z.land_spec, Z.bits_0.
  destruct (Z.lt_ge_cases n k) as [Hlt|Hge].
  - rewrite Z.mul_pow2_bits_low by done. apply andb_false_r.
  - rewrite <- (Z.mod_small x (2 ^ k)) by done.
    rewrite Z.mod_pow2_bits_high by lia. done.
Qed.

(** The value that [binary.BigEndian.Uint32] reads. *)
Lemma BigEndian_Uint32_value (b0 b1 b2 b3 : byte) (rest : list byte) :
  binary.BigEndian_Uint32 (b0 :: b1 :: b2 :: b3 :: rest)
  = Some (Z_of_byte b3 + Z_of_byte b2 * 2 ^ 8 + Z_of_byte b1 * 2 ^ 16
          + Z_of_byte b0 * 2 ^ 24)%Z.
Proof.
  pose proof (der_facts.Z_of_byte_range b0). pose proof (der_facts.Z_of_byte_range b1).
  pose proof (der_facts.Z_of_byte_range b2). pose proof (der_facts.Z_of_byte_range b3).
  unfold binary.BigEndian_Uint32. f_equal.
  rewrite (lor_shiftl (Z_of_byte b3)) by lia.
  rewrite (lor_shiftl (Z_of_byte b3 + _)) by lia.
  rewrite (lor_shiftl (Z_of_byte b3 + _ + _)) by lia. done.
Qed.

Lemma Z_of_byte_inj (a b : byte) : Z_of_byte a = Z_of_byte b → a = b.
Proof.
  intros Heq. rewrite <- (der_facts.byte_of_Z_of_byte a), <- (der_facts.byte_of_Z_of_byte b).
  by rewrite Heq.
Qed.

(** The revision tag is read from exactly one 4-byte string. *)
Lemma BigEndian_Uint32_revision (bs : list byte) :
  binary.BigEndian_Uint32 (take 4 bs) = Some clientSessionStateRevision
  ↔ take 4 bs = [x00; x00; x00; x01].
Proof.
  split; [|by intros ->].
  destruct bs as [|b0 [|b1 [|b2 [|b3 rest]]]]; try done.
  change (take 4 (b0 :: b1 :: b2 :: b3 :: rest)) with [b0; b1; b2; b3].
  rewrite BigEndian_Uint32_value. unfold clientSessionStateRevision. intros [= Hv].
  pose proof (der_facts.Z_of_byte_range b0). pose proof (der_facts.Z_of_byte_range b1).
  pose proof (der_facts.Z_of_byte_range b2). pose proof (der_facts.Z_of_byte_range b3).
  assert (Z_of_byte b0 = Z_of_byte x00) as ->%Z_of_byte_inj by (change (Z_of_byte x00) with 0%Z; lia).
  assert (Z_of_byte b1 = Z_of_byte x00) as ->%Z_of_byte_inj by (change (Z_of_byte x00) with 0%Z; lia).
  assert (Z_of_byte b2 = Z_of_byte x00) as ->%Z_of_byte_inj by (change (Z_of_byte x00) with 0%Z; lia).
  assert (Z_of_byte b3 = Z_of_byte x01) as ->%Z_of_byte_inj by (change (Z_of_byte x01) with 1%Z; lia).
  done.
Qed.

End binary_facts.

Section cache_theorems.
Context `{!asn1_pkg, !congestion_pkg}.
Context {C A : Type}.

(** X17: what [Get] does, case by case.  [Get] returns a session only for
    a stored session whose nonce starts with the four bytes 00 00 00 01 and
    continues with an encoding that [asn1.Unmarshal] decodes with nothing
    left over; it then returns the stored session with the decoded nonce and
    the flag of the wrapped cache, passes the decoded application data to
    [setAppData], sets the initial RTT, and prints nothing.  When it returns
    nil it neither calls [setAppData] nor sets the RTT.  For a miss of the
    wrapped cache it passes the flag on and prints nothing; for a stored
    session that it rejects it returns false and prints one line to the
    standard output: 1 for a nonce shorter than 4 bytes, 2 for another
    revision tag, 3 for a payload that does not decode with nothing left
    over. *)
Theorem Get_outcomes (c : @clientSessionCache C A) (sessionKey : string) (st : CacheState) :
  ∃ sess ok0 cache' res ok st',
    tls_Get (ClientSessionCache c) sessionKey (cache st) = (sess, ok0, cache')
    ∧ Get c sessionKey st = (res, ok, st')
    ∧ cache st' = cache'
    ∧ match res with
      | Some out =>
        ∃ s nf, sess = Some s ∧ ok = ok0
          ∧ take 4 (nonce s) = [x00; x00; x00; x01]
          ∧ asn1_Unmarshal (drop 4 (nonce s)) = Ok (nf, [])
          ∧ out = with_nonce (Nonce nf) s
          ∧ app st' = setAppData c (AppData nf) (app st)
          ∧ rttStats st' = SetInitialRTT (wrap64 (RTT nf)) (rttStats st)
          ∧ stdout st' = stdout st
      | None =>
        app st' = app st ∧ rttStats st' = rttStats st
        ∧ match sess with
          | None => ok = ok0 ∧ stdout st' = stdout st
          | Some s =>
            ok = false
            ∧ (length (nonce s) < 4 ∧ stdout st' = stdout st ++ [1%Z]
               ∨ 4 ≤ length (nonce s) ∧ take 4 (nonce s) ≠ [x00; x00; x00; x01]
                 ∧ stdout st' = stdout st ++ [2%Z]
               ∨ take 4 (nonce s) = [x00; x00; x00; x01]
                 ∧ (∀ nf, asn1_Unmarshal (drop 4 (nonce s)) ≠ Ok (nf, []))
                 ∧ stdout st' = stdout st ++ [3%Z])
          end
      end.
Proof.
  unfold Get.
  destruct (tls_Get (ClientSessionCache c) sessionKey (cache st)) as [[sess ok0] cache'].
  exists sess, ok0, cache'.
  destruct sess as [s|]; [|by eexists _, _, _].
  case_bool_decide as Hshort.
  { eexists _, _, _. split; [done|]. split; [done|]. split; [done|].
    simpl. repeat (split; [done|]). by left. }
  case_bool_decide as Hrev.
  { eexists _, _, _. split; [done|]. split; [done|]. split; [done|].
    simpl. repeat (split; [done|]). right. left. split; [lia|]. split; [|done].
    by rewrite <- BigEndian_Uint32_revision. }
  apply BigEndian_Uint32_revision in Hrev.
  destruct (asn1_Unmarshal (drop 4 (nonce s))) as [[nf rest]|e] eqn:Hun.
  2:{ eexists _, _, _. split; [done|]. split; [done|]. split; [done|].
      simpl. repeat (split; [done|]). right. right. done. }
  case_bool_decide as Hrest.
  { eexists _, _, _. split; [done|]. split; [done|]. split; [done|].
    simpl. repeat (split; [done|]). right. right. split; [done|]. split; [|done].
    intros nf' [= _ ->]. done. }
  apply length_zero_iff_nil in Hrest as ->.
  eexists _, _, _. split; [done|]. split; [done|]. split; [done|].
  exists s, nf. simpl. rewrite Z.mul_1_r. done.
Qed.

End cache_theorems.

Module der_more.
Import der der_facts.

Lemma Unmarshal_Marshal_app (nf : nonceField) (data extra : list byte) :
  int64 (RTT nf) → Marshal nf = Ok data → (Z.of_nat (length data) < 2 ^ 31)%Z →
  Unmarshal (data ++ extra) = Ok (nf, extra).
Proof.
  intros Hrtt Hm Hlen.
  assert (data = element x30 (element x04 (Nonce nf) ++ element x04 (AppData nf)
                              ++ element x02 (encode_int 7 (RTT nf)))) as ->
    by (unfold Marshal in Hm; congruence).
  clear Hm. unfold Unmarshal.
  set (e3 := element x02 (encode_int 7 (RTT nf))) in *.
  set (fields := element x04 (Nonce nf) ++ element x04 (AppData nf) ++ e3) in *.
  pose proof (element_length x30 fields) as Hl0.
  pose proof (element_length x04 (Nonce nf)) as Hl1.
  pose proof (element_length x04 (AppData nf)) as Hl2.
  assert (length fields
          = length (element x04 (Nonce nf)) + length (element x04 (AppData nf)) + length e3)
    as Hfields by (unfold fields; rewrite !length_app; lia).
  destruct (parseInt64_encode (RTT nf) Hrtt) as [Hint Hintlen].
  rewrite parse_element_encode by lia.
  cbv beta iota delta [mbind option_bind]. unfold fields.
  rewrite parse_element_encode by lia.
  cbv beta iota delta [mbind option_bind].
  rewrite parse_element_encode by lia.
  cbv beta iota delta [mbind option_bind].
  unfold e3. rewrite <- (app_nil_r (element x02 _)).
  rewrite parse_element_encode by lia.
  cbv beta iota delta [mbind option_bind]. rewrite Hint.
  by destruct nf.
Qed.

End der_more.

Section cache_der.
#[local] Existing Instance der_asn1.
Context `{!congestion_pkg}.
Context {C A : Type}.

(** X18: bytes after the DER payload.  With the DER codec for
    [encoding/asn1], a stored session whose nonce is the revision tag, the
    encoding of a [nonceField] and then [extra] is accepted by [Get] exactly
    if [extra] is empty; otherwise the decoder hands back [extra] as the
    rest, and [Get] returns nil and false, prints 3, and neither calls
    [setAppData] nor sets the RTT. *)
Theorem Get_rejects_trailing_bytes (c : @clientSessionCache C A) (sessionKey : string)
    (st : CacheState) (cs : ClientSessionState) (nf : nonceField) (data extra : list byte)
    (ok : bool) (cache' : C) :
  int64 (RTT nf) → der.Marshal nf = Ok data → (Z.of_nat (length data) < 2 ^ 31)%Z →
  tls_Get (ClientSessionCache c) sessionKey (cache st)
  = (Some (with_nonce (spec_stored_nonce (data ++ extra)) cs), ok, cache') →
  Get c sessionKey st
  = if bool_decide (extra = [])
    then (Some (with_nonce (Nonce nf) cs), ok,
          {| cache := cache'; rttStats := SetInitialRTT (RTT nf) (rttStats st);
             app := setAppData c (AppData nf) (app st); stdout := stdout st |})
    else (None, false,
          {| cache := cache'; rttStats := rttStats st; app := app st;
             stdout := stdout st ++ [3%Z] |}).
Proof.
  intros Hrtt Hm Hlen Hget. unfold Get. rewrite Hget. cbn [nonce with_nonce].
  rewrite bool_decide_eq_false_2
    by (unfold spec_stored_nonce; rewrite length_app; simpl; lia).
  change (take 4 (spec_stored_nonce (data ++ extra))) with [x00; x00; x00; x01].
  rewrite bool_decide_eq_false_2 by (intros Hne; by apply Hne).
  change (drop 4 (spec_stored_nonce (data ++ extra))) with (data ++ extra).
  change (asn1_Unmarshal (data ++ extra)) with (der.Unmarshal (data ++ extra)).
  rewrite (der_more.Unmarshal_Marshal_app nf data extra Hrtt Hm Hlen).
  destruct extra as [|b extra]; simpl.
  - rewrite wrap64_int64 by done. by destruct cs.
  - done.
Qed.

End cache_der.

(** * The theorems at concrete inputs *)

Section examples.
#[local] Existing Instances example.protocol_inst example.wire_inst
  example.handshake_inst example.multiplexer_inst der_asn1 example.congestion_inst.

Lemma handlePacketImpl_drops_witness :
  let p := example.packet (replicate 1199 x00) in
  let w := example.world0 in
  ((Z.of_nat (length (data p)) < MinInitialPacketSize)%Z
   ∨ (∃ err, ParsePacket (data p) (ConnectionIDLength (config (server w))) = Err err)
   ∨ (∃ hdr, ParsePacket (data p) (ConnectionIDLength (config (server w))) = Ok hdr
             ∧ wire.IsLongHeader hdr = false))
  ∧ handlePacketImpl p w = Some (false, w)
  ∧ run_packet p w = Some (emit (ev_Release p) w).
Proof.
  intros p w.
  assert ((Z.of_nat (length (data p)) < MinInitialPacketSize)%Z
   ∨ (∃ err, ParsePacket (data p) (ConnectionIDLength (config (server w))) = Err err)
   ∨ (∃ hdr, ParsePacket (data p) (ConnectionIDLength (config (server w))) = Ok hdr
             ∧ wire.IsLongHeader hdr = false)) as Hcase.
  { left. by vm_compute. }
  split; [exact Hcase|]. exact (handlePacketImpl_drops p w Hcase).
Defined.

Lemma unsupported_version_negotiated_witness :
  let p := example.packet (example.datagram x02 x09 x11 x00) in
  let w := example.world0 in
  let hdr := {| wire.IsLongHeader := true;
                wire.Type_ := PacketTypeInitial;
                wire.Version := 9;
                wire.SrcConnectionID := [xaa; xbb];
                wire.DestConnectionID := replicate 8 x11;
                wire.Token := [];
                wire.Length := 0 |} in
  ((MinInitialPacketSize ≤ Z.of_nat (length (data p)))%Z
   ∧ ParsePacket (data p) (ConnectionIDLength (config (server w))) = Ok hdr
   ∧ wire.IsLongHeader hdr = true
   ∧ IsSupportedVersion (Versions (config (server w))) (wire.Version hdr) = false)
  ∧ handlePacketImpl p w
    = Some (false, emit (ev_go (go_sendVersionNegotiationPacket p hdr)) w)
  ∧ run_reply (server w) (go_sendVersionNegotiationPacket p hdr) 0 []
    = (Returned None, [],
       [(x80 :: [xaa; xbb] ++ replicate 8 x11 ++ [x01], remoteAddr p)]).
Proof.
  intros p w hdr.
  assert ((MinInitialPacketSize ≤ Z.of_nat (length (data p)))%Z) as H1 by (by vm_compute).
  assert (ParsePacket (data p) (ConnectionIDLength (config (server w))) = Ok hdr) as H2
    by (by vm_compute).
  assert (wire.IsLongHeader hdr = true) as H3 by reflexivity.
  assert (IsSupportedVersion (Versions (config (server w))) (wire.Version hdr) = false) as H4
    by (by vm_compute).
  destruct (unsupported_version_negotiated p w hdr H1 H2 H3 H4) as (Himpl & Hreply & _).
  split; [done|]. split; [exact Himpl|]. rewrite Hreply. by vm_compute.
Defined.


Lemma rejected_token_retried_witness :
  let p := example.initial x11 in
  let w := example.world_default in
  let hdr := example.initial_hdr x11 in
  let r := [x01; x02; x03; x04; x05] in
  let token := x52 :: replicate 8 x11 in
  let connID := [x01; x02; x03; x04] in
  let written := xc0 :: [xaa; xbb] ++ connID ++ token in
  (token_checked p w hdr false
   ∧ NewRetryToken (tokenGenerator (server w)) (remoteAddr p) (wire.DestConnectionID hdr) 7 r
     = (Ok token, r)
   ∧ GenerateConnectionID (ConnectionIDLength (config (server w))) r = (Ok connID, [x05])
   ∧ ExtendedHeader_Write
       (spec_Retry_header (wire.Version hdr) connID (wire.SrcConnectionID hdr) token)
       (wire.Version hdr) = Ok written)
  ∧ handlePacketImpl p w = Some (false, emit (ev_go (go_sendRetry (remoteAddr p) hdr)) w)
  ∧ run_reply (server w) (go_sendRetry (remoteAddr p) hdr) 7 r
    = (Returned None, [x05], [(written ++ replicate 16 x00, remoteAddr p)]).
Proof.
  intros p w hdr r token connID written.
  assert (token_checked p w hdr false) as H1.
  { split; [|split].
    - by vm_compute.
    - reflexivity.
    - exists defaultAcceptToken. by vm_compute. }
  assert (NewRetryToken (tokenGenerator (server w)) (remoteAddr p)
            (wire.DestConnectionID hdr) 7 r = (Ok token, r)) as H2 by reflexivity.
  assert (GenerateConnectionID (ConnectionIDLength (config (server w))) r
          = (Ok connID, [x05])) as H3 by (by vm_compute).
  assert (ExtendedHeader_Write
            (spec_Retry_header (wire.Version hdr) connID (wire.SrcConnectionID hdr) token)
            (wire.Version hdr) = Ok written) as H4 by (by vm_compute).
  destruct (rejected_token_retried p w hdr 7 r r [x05] token connID written H1 H2 H3 H4)
    as (Himpl & Hreply & _).
  split; [done|]. split; [exact Himpl|]. rewrite Hreply. by vm_compute.
Defined.

Lemma full_queue_server_busy_witness :
  let p := example.initial x11 in
  let w := example.world_busy in
  let hdr := example.initial_hdr x11 in
  let middle := [xaa; xbb] ++ replicate 8 x11 in
  let pn := [x00; x00; x00; x00] in
  let frame := [x1c; x02; x00] in
  (token_checked p w hdr true
   ∧ (MaxAcceptQueueSize ≤ sessionQueueLen w)%Z
   ∧ ExtendedHeader_Write
       (spec_ServerBusy_header (wire.Version hdr) (wire.DestConnectionID hdr)
          (wire.SrcConnectionID hdr)
          (4 + ConnectionCloseFrame_Length spec_ServerBusy_frame (wire.Version hdr)
           + Z.of_nat (Overhead (NewInitialAEAD (wire.DestConnectionID hdr)
                                   PerspectiveServer))))
       (wire.Version hdr) = Ok (xc0 :: middle ++ pn)
   ∧ length pn = 4
   ∧ ConnectionCloseFrame_Write spec_ServerBusy_frame (wire.Version hdr) = Ok frame)
  ∧ handlePacketImpl p w
    = Some (false, emit (ev_go (go_sendServerBusy (remoteAddr p) hdr)) w)
  ∧ run_reply (server w) (go_sendServerBusy (remoteAddr p) hdr) 0 []
    = (Returned None, [],
       [(xc0 :: middle ++ pn ++ frame ++ replicate 16 x11,
         remoteAddr p)]).
Proof.
  intros p w hdr middle pn frame.
  assert (token_checked p w hdr true) as H1.
  { split; [|split].
    - by vm_compute.
    - reflexivity.
    - by exists (λ _ _ _, true). }
  assert ((MaxAcceptQueueSize ≤ sessionQueueLen w)%Z) as H2 by (by vm_compute).
  assert (ExtendedHeader_Write
       (spec_ServerBusy_header (wire.Version hdr) (wire.DestConnectionID hdr)
          (wire.SrcConnectionID hdr)
          (4 + ConnectionCloseFrame_Length spec_ServerBusy_frame (wire.Version hdr)
           + Z.of_nat (Overhead (NewInitialAEAD (wire.DestConnectionID hdr)
                                   PerspectiveServer))))
       (wire.Version hdr) = Ok (xc0 :: middle ++ pn)) as H3 by (by vm_compute).
  assert (length pn = 4) as H4 by reflexivity.
  assert (ConnectionCloseFrame_Write spec_ServerBusy_frame (wire.Version hdr) = Ok frame)
    as H5 by reflexivity.
  destruct (full_queue_server_busy p w hdr xc0 middle pn frame H1 H2 H3 H4 H5)
    as (Himpl & Hreply & _).
  split; [done|]. split; [exact Himpl|]. rewrite Hreply. by vm_compute.
Defined.




Lemma populateServerConfig_defaults_witness :
  pointee (Some 1%positive) example.heap0 = Some example.config_accept_all
  ∧ ∃ l' h' c',
      populateServerConfig (Some 1%positive) example.heap0 = Some (l', h')
      ∧ h' !! l' = Some c'
      ∧ example.heap0 !! l' = None
      ∧ h' !! 1%positive = Some example.config_accept_all
      ∧ Versions c' = [1%Z]
      ∧ HandshakeTimeout c' = 10000000000%Z
      ∧ MaxIdleTimeout c' = 30000000000%Z
      ∧ ConnectionIDLength c' = 4%Z
      ∧ MaxIncomingStreams c' = 0%Z
      ∧ MaxIncomingUniStreams c' = 100%Z.
Proof.
  assert (pointee (Some 1%positive) example.heap0 = Some example.config_accept_all) as H1
    by reflexivity.
  split; [exact H1|].
  destruct (populateServerConfig_defaults (Some 1%positive) example.heap0
              example.config_accept_all H1) as (l' & h' & c' & Hrun & Hval & Hnew & Hold & Hdef).
  exists l', h', c'. split; [exact Hrun|]. split; [exact Hval|]. split; [exact Hnew|].
  split; [rewrite Hold; [reflexivity | by eexists]|].
  destruct Hdef as (Hv & _ & Hh & _ & Hi & _ & _ & _ & _ & _ & Hc & _ & _ & _
                    & Hm & _ & _ & _ & Hu & _).
  split; [exact (Hv eq_refl)|]. split; [exact (Hh eq_refl)|]. split; [exact (Hi eq_refl)|].
  split; [exact (Hc eq_refl)|]. split; [apply Hm; reflexivity | exact (Hu eq_refl)].
Defined.

Lemma listen_checks_configuration_witness :
  (pointee None ∅ = Some Config_zero
   ∧ ∃ h', listen 0 None None false ∅ 0 []
           = Some (Err (errors_New "quic: tls.Config not set"), h'))
  ∧ (pointee (Some 1%positive) example.heap_bad_version = Some example.config_bad_version
     ∧ ∃ h', listen 0 (Some example.tls_h3) (Some 1%positive) false
               example.heap_bad_version 0 []
             = Some (Err (ErrInvalidVersion 7), h')).
Proof.
  split.
  - assert (pointee None ∅ = Some Config_zero) as H1 by reflexivity.
    split; [exact H1|].
    destruct (listen_checks_configuration 0 None None false ∅ 0 [] Config_zero H1)
      as (res & h' & l1 & h1 & c' & Hrun & _ & _ & Hnil & _).
    exists h'. rewrite Hrun, Hnil; reflexivity.
  - assert (pointee (Some 1%positive) example.heap_bad_version
            = Some example.config_bad_version) as H1 by reflexivity.
    split; [exact H1|].
    destruct (listen_checks_configuration 0 (Some example.tls_h3) (Some 1%positive) false
                example.heap_bad_version 0 [] example.config_bad_version H1)
      as (res & h' & l1 & h1 & c' & Hrun & Hpop & Hval & _ & Hinvalid & _).
    assert (Versions c' = [1%Z; 7%Z]) as Hversions.
    { assert (('(l, h) ← populateServerConfig (Some 1%positive) example.heap_bad_version;
               Versions <$> h !! l) = Some [1%Z; 7%Z]) as Hcompute
        by (vm_compute; reflexivity).
      rewrite Hpop in Hcompute. cbn [mbind option_bind] in Hcompute.
      rewrite Hval in Hcompute. by injection Hcompute. }
    destruct Hinvalid as (v & -> & Hin & Hv); [done| |].
    { exists 7%Z. rewrite Hversions. split; [|reflexivity].
      apply list_elem_of_In. right. left. reflexivity. }
    exists h'. rewrite Hrun. rewrite Hversions in Hin.
    apply list_elem_of_In in Hin as [<- | [<- | []]]; [discriminate Hv | reflexivity].
Defined.

(** C8 as stated fails: a [tls.Config] that advertises no application
    protocol is accepted. *)
Lemma listen_accepts_missing_ALPN :
  ¬ (∀ (tls : TLSConfig), NextProtos tls = [] →
       ∃ e h', listen 0 (Some tls) None false ∅ 0 [] = Some (Err e, h')).
Proof.
  intros Hclaim.
  destruct (Hclaim example.tls_no_alpn eq_refl) as (e & h' & Hlisten).
  vm_compute in Hlisten. discriminate Hlisten.
Qed.

Lemma listen_world0 (r : Rand) :
  ∃ h', listen 0 (Some example.tls_no_alpn) (Some 1%positive) false example.heap0 0 r
        = Some (Ok (set_rand r example.world0), h').
Proof. eexists. vm_compute. reflexivity. Defined.

Lemma reachable_run (r : Rand) (labs : list Label) (l : Listener) :
  steps labs (new_listener (set_rand r example.world0)) = Some l → reachable l.
Proof.
  intros Hsteps. destruct (listen_world0 r) as [h' Hlisten].
  eapply reachable_steps; [|exact Hsteps]. by eapply reachable_listen.
Defined.

(** The same for the listener that [listenAddr] makes of it. *)
Lemma reachable_run_listenAddr (r : Rand) (labs : list Label) (l : Listener) :
  steps labs (new_listener (set_createdPacketConn true (set_rand r example.world0))) = Some l →
  reachable l.
Proof.
  intros Hsteps. destruct (listen_world0 r) as [h' Hlisten].
  eapply reachable_steps; [|exact Hsteps]. by eapply reachable_listenAddr.
Defined.


Lemma counter_tracks_queue_witness :
  ∃ l, steps (example.iteration (example.initial x11) ++ [L_handleNewSession 0 ready])
         (new_listener (set_rand [x01; x02; x03; x04] example.world0)) = Some l
    ∧ reachable l
    ∧ sessionQueueLen (world l) = 1%Z
    ∧ queued l = 1.
Proof.
  assert (queued <$> steps (example.iteration (example.initial x11) ++ [L_handleNewSession 0 ready])
            (new_listener (set_rand [x01; x02; x03; x04] example.world0)) = Some 1)
    as Hqueued by (vm_compute; reflexivity).
  revert Hqueued.
  destruct (steps (example.iteration (example.initial x11) ++ [L_handleNewSession 0 ready])
              (new_listener (set_rand [x01; x02; x03; x04] example.world0)))
    as [l|] eqn:Hsteps; intros Hqueued; [|discriminate Hqueued].
  injection Hqueued as Hqueued.
  assert (reachable l) as Hreach by exact (reachable_run _ _ _ Hsteps).
  destruct (counter_tracks_queue l Hreach) as (_ & Hsmall & _).
  exists l. split; [reflexivity|]. split; [exact Hreach|]. split; [|exact Hqueued].
  rewrite Hsmall; rewrite Hqueued; reflexivity.
Defined.

(** C6 as stated fails: 33 sessions are admitted while the counter is 0,
    all of them become ready, and the counter is 33. *)
Lemma counter_exceeds_MaxAcceptQueueSize :
  ¬ (∀ l, reachable l →
       sessionQueueLen (world l) = Z.of_nat (queued l)
       ∧ (sessionQueueLen (world l) ≤ MaxAcceptQueueSize)%Z).
Proof.
  intros Hclaim.
  assert ((λ l, sessionQueueLen (world l))
            <$> steps example.flood
                  (new_listener (set_rand (replicate 132 x07) example.world0))
          = Some 33%Z) as Hcounter by (vm_compute; reflexivity).
  revert Hcounter.
  destruct (steps example.flood
              (new_listener (set_rand (replicate 132 x07) example.world0)))
    as [l|] eqn:Hsteps; intros Hcounter; [|discriminate Hcounter].
  injection Hcounter as Hcounter.
  assert (reachable l) as Hreach by exact (reachable_run _ _ _ Hsteps).
  destruct (Hclaim l Hreach) as [_ Hbound]. rewrite Hcounter in Hbound.
  unfold MaxAcceptQueueSize in Hbound. lia.
Qed.

Lemma accept_after_Close_witness :
  ∃ l l1, steps (example.iteration (example.initial x11) ++ [L_handleNewSession 0 Done_while_waiting])
            (new_listener (set_createdPacketConn true
                             (set_rand [x01; x02; x03; x04] example.world0))) = Some l
    ∧ reachable l
    ∧ createdPacketConn (server (world l)) = true
    ∧ Close l = (Destroy, l1)
    ∧ steps [] l1 = Some l1
    ∧ serverError l1 = Some (errors_New "server closed")
    ∧ accept None case_errorChan l1 = Some (None, Some (errors_New "server closed"), l1).
Proof.
  assert ((λ l, (closed l, serverError l, createdPacketConn (server (world l))))
            <$> steps (example.iteration (example.initial x11) ++ [L_handleNewSession 0 Done_while_waiting])
                  (new_listener (set_createdPacketConn true
                                   (set_rand [x01; x02; x03; x04] example.world0)))
          = Some (false, None, true)) as Hstate by (vm_compute; reflexivity).
  revert Hstate.
  destruct (steps (example.iteration (example.initial x11) ++ [L_handleNewSession 0 Done_while_waiting])
              (new_listener (set_createdPacketConn true
                               (set_rand [x01; x02; x03; x04] example.world0))))
    as [l|] eqn:Hsteps; intros Hstate; [|discriminate Hstate].
  injection Hstate as Hopen Herr Hconn.
  assert (reachable l) as Hreach by exact (reachable_run_listenAddr _ _ _ Hsteps).
  assert (Close l = (Destroy, (Close l).2)) as HClose.
  { rewrite (surjective_pairing (Close l)) at 1. f_equal.
    unfold Close. rewrite Hopen. simpl. rewrite Hconn. reflexivity. }
  destruct (accept_after_Close l Destroy (Close l).2 [] (Close l).2 Hreach HClose eq_refl)
    as (_ & _ & _ & Hset & Haccept & _).
  exists l, (Close l).2. split; [reflexivity|]. split; [exact Hreach|].
  split; [exact Hconn|].
  split; [exact HClose|]. split; [reflexivity|].
  rewrite (Haccept None), (Hset Hopen), Herr. split; reflexivity.
Defined.

(** C7 as stated fails.  The intake task has passed its first [select]
    when [Close] is called; its second [select] takes an Initial that is
    waiting, the session is created and becomes ready, and a call of
    [accept] made after [Close] has returned takes the session queue case
    and returns that session.  And a call whose context is done can return
    the error of the context, which is not the stored [serverError]. *)
Lemma accept_after_Close_not_only_serverError :
  ¬ (∀ l err l1 labs l2 ctx c sess e l3,
       reachable l → Close l = (err, l1) → steps labs l1 = Some l2 →
       accept ctx c l2 = Some (sess, e, l3) →
       sess = None)
  ∧ ¬ (∀ l err l1 labs l2 ctx c sess e l3,
       reachable l → Close l = (err, l1) → steps labs l1 = Some l2 →
       accept ctx c l2 = Some (sess, e, l3) →
       e = serverError l1).
Proof.
  assert ((λ l, (closed l, serverError l, createdPacketConn (server (world l))))
            <$> steps [L_run check_errorChan]
                  (new_listener (set_rand [x01; x02; x03; x04] example.world0))
          = Some (false, None, false)) as Hstate by (vm_compute; reflexivity).
  revert Hstate.
  destruct (steps [L_run check_errorChan]
              (new_listener (set_rand [x01; x02; x03; x04] example.world0)))
    as [l|] eqn:Hsteps; intros Hstate; [|discriminate Hstate].
  injection Hstate as Hopen Herr Hconn.
  assert (reachable l) as Hreach by exact (reachable_run _ _ _ Hsteps).
  assert (Close l = (None, (Close l).2)) as HClose.
  { rewrite (surjective_pairing (Close l)) at 1. f_equal.
    unfold Close. rewrite Hopen. simpl. rewrite Hconn. reflexivity. }
  destruct (Close_inv l) as (_ & _ & _ & Hnew).
  destruct (Hnew Hopen) as [_ Hstored]. rewrite Herr in Hstored. simpl in Hstored.
  assert ((λ l, snd <$> handoff l)
            <$> (l ← steps [L_run check_errorChan]
                       (new_listener (set_rand [x01; x02; x03; x04] example.world0));
                 steps example.late_Initial (Close l).2)
          = Some [offered]) as Hlate by (vm_compute; reflexivity).
  rewrite Hsteps in Hlate.
  change ((λ l, snd <$> handoff l) <$> steps example.late_Initial (Close l).2
          = Some [offered]) in Hlate.
  split.
  - intros Hclaim. revert Hlate.
    destruct (steps example.late_Initial (Close l).2) as [l2|] eqn:Hsteps2;
      intros Hlate; [|discriminate Hlate].
    injection Hlate as Hoffer.
    destruct (handoff l2) as [|[s pc] [|? ?]] eqn:Hl2; try discriminate Hoffer.
    simpl in Hoffer. injection Hoffer as ->.
    assert (∃ l3, accept None (case_sessionQueue 0) l2 = Some (Some s, None, l3))
      as [l3 Haccept].
    { unfold accept, accept_receive, accept_decrement, move. rewrite Hl2. simpl.
      eexists. reflexivity. }
    specialize (Hclaim l None _ _ _ None _ _ _ _ Hreach HClose Hsteps2 Haccept).
    discriminate Hclaim.
  - intros Hclaim.
    assert (accept (Some (errors_New "context canceled")) case_ctx_Done (Close l).2
            = Some (None, Some (errors_New "context canceled"), (Close l).2)) as Haccept
      by reflexivity.
    specialize (Hclaim l None _ [] _ _ _ _ _ _ Hreach HClose eq_refl Haccept).
    rewrite Hstored in Hclaim. discriminate Hclaim.
Qed.

Lemma session_cache_round_trip_witness :
  let cs := {| nonce := [x0a; x0b]; other_fields := [x01] |} in
  let st := {| cache := ∅; rttStats := 10000000000%Z;
               app := ([example.foobar], []); stdout := [] |} in
  int64 (SmoothedRTT (rttStats st))
  ∧ ∃ st1 stored,
      Put example.csc "localhost" (Some cs) st = Some st1
      ∧ cache st1 !! "localhost" = Some stored
      ∧ nonce stored
        = [x00; x00; x00; x01;
           x30; x13; x04; x02; x0a; x0b; x04; x06; x66; x6f; x6f; x62; x61; x72;
           x02; x05; x02; x54; x0b; xe4; x00]
      ∧ Get example.csc "localhost" {| cache := cache st1; rttStats := 0%Z;
                                       app := ([], []); stdout := [] |}
        = (Some cs, true,
           {| cache := cache st1; rttStats := 10000000000%Z;
              app := ([], [example.foobar]); stdout := [] |}).
Proof.
  intros cs st.
  assert (int64 (SmoothedRTT (rttStats st))) as Hrtt by (by vm_compute).
  split; [exact Hrtt|].
  destruct (session_cache_round_trip example.csc "localhost" cs st) as [Hround _].
  destruct (Hround Hrtt) as (data & Hdata & HPut & HGet).
  vm_compute in Hdata. injection Hdata as <-.
  eexists _, _. split; [exact HPut|]. split; [by vm_compute|]. split; [reflexivity|].
  apply HGet; by vm_compute.
Defined.

End examples.

(** * The further properties at concrete inputs *)

Section more_examples.
#[local] Existing Instances example.protocol_inst example.wire_inst
  example.handshake_inst example.multiplexer_inst der_asn1 example.congestion_inst
  example_net.net_inst.

Lemma dropped_without_reply_witness :
  let p := example_net.handshake_packet in
  let w := example.world0 in
  let hdr := example_net.handshake_hdr in
  ((MinInitialPacketSize ≤ Z.of_nat (length (data p)))%Z
   ∧ ParsePacket (data p) (ConnectionIDLength (config (server w))) = Ok hdr
   ∧ wire.IsLongHeader hdr = true
   ∧ IsSupportedVersion (Versions (config (server w))) (wire.Version hdr) = true
   ∧ wire.Type_ hdr ≠ PacketTypeInitial)
  ∧ ∃ w', handlePacketImpl p w = Some (false, w')
      ∧ run_packet p w = Some (emit (ev_Release p) w')
      ∧ trace w' = trace w.
Proof.
  intros p w hdr.
  assert ((MinInitialPacketSize ≤ Z.of_nat (length (data p)))%Z) as H1 by (by vm_compute).
  assert (ParsePacket (data p) (ConnectionIDLength (config (server w))) = Ok hdr) as H2
    by (by vm_compute).
  assert (wire.IsLongHeader hdr = true) as H3 by reflexivity.
  assert (IsSupportedVersion (Versions (config (server w))) (wire.Version hdr) = true) as H4
    by (by vm_compute).
  assert (wire.Type_ hdr ≠ PacketTypeInitial) as H5 by discriminate.
  split; [done|].
  destruct (dropped_without_reply p w hdr H1 H2 H3 H4 (or_introl H5))
    as (w' & Himpl & Hrun & Htr & _).
  by exists w'.
Defined.

Lemma reply_only_for_its_cause_witness :
  let p := example.initial x11 in
  let w := example.world_default in
  let hdr := example.initial_hdr x11 in
  let t := go_sendRetry (remoteAddr p) hdr in
  let w' := emit (ev_go t) w in
  (handlePacketImpl p w = Some (false, w')
   ∧ t ∈ reply_tasks (drop (length (trace w)) (trace w')))
  ∧ token_checked p w hdr false.
Proof.
  intros p w hdr t w'.
  assert (handlePacketImpl p w = Some (false, w')) as H1 by (vm_compute; reflexivity).
  assert (t ∈ reply_tasks (drop (length (trace w)) (trace w'))) as H2
    by apply list_elem_of_here.
  split; [done|].
  destruct (reply_only_for_its_cause p w false w' t H1 H2)
    as (_ & hdr' & _ & _ & _ & _ & <- & Hchecked).
  exact Hchecked.
Defined.

Lemma one_reply_to_the_source_witness :
  let p := example.initial x11 in
  let w := example.world_default in
  let w' := emit (ev_go (go_sendRetry (remoteAddr p) (example.initial_hdr x11))) w in
  handlePacketImpl p w = Some (false, w')
  ∧ ∃ evs, trace w' = trace w ++ evs
      ∧ length (reply_tasks evs) ≤ 1
      ∧ ∀ t now r, t ∈ reply_tasks evs →
          length (run_reply (server w) t now r).2 ≤ 1
          ∧ ∀ d a, (d, a) ∈ (run_reply (server w) t now r).2 → a = remoteAddr p.
Proof.
  intros p w w'.
  assert (handlePacketImpl p w = Some (false, w')) as H1 by (vm_compute; reflexivity).
  split; [exact H1|].
  destruct (one_reply_to_the_source p w false w' H1) as (evs & Htr & Hlen & _ & Hsent).
  by exists evs.
Defined.

Lemma buffer_released_or_handed_over_witness :
  let p := example.initial x11 in
  let w := example.world0 in
  ∃ w', run_packet p w = Some w'
    ∧ ∃ evs, trace w' = trace w ++ evs
        ∧ ((buffer_owners evs = [(p, None)] ∧ spawned_handoffs evs = []
            ∧ sessionHandler w' = sessionHandler w)
           ∨ ∃ sess, buffer_owners evs = [(p, Some sess)] ∧ spawned_handoffs evs = [sess]
               ∧ sessionHandler w' !! sess_clientDestConnID sess = Some sess).
Proof.
  intros p w.
  assert (sessions_made <$> run_packet p w = Some 1) as Hmade by (vm_compute; reflexivity).
  revert Hmade.
  destruct (run_packet p w) as [w'|] eqn:Hrun; intros Hmade; [|discriminate Hmade].
  exists w'. split; [reflexivity|].
  exact (buffer_released_or_handed_over p w w' Hrun).
Defined.

Lemma intake_never_panics_witness :
  ∃ w h',
    ListenAddr "192.0.2.7:4433" (Some example.tls_h3) (Some 1%positive) example.heap0 0 []
    = Some (Ok w, h')
    ∧ reachable (new_listener w)
    ∧ createdPacketConn (server w) = true
    ∧ ∃ b w', handlePacketImpl (example.initial x11) w = Some (b, w').
Proof.
  assert ((λ '(res, _), match res with
                        | Ok w => Some (createdPacketConn (server w))
                        | Err _ => None
                        end)
            <$> ListenAddr "192.0.2.7:4433" (Some example.tls_h3) (Some 1%positive)
                  example.heap0 0 []
          = Some (Some true)) as Hres by (vm_compute; reflexivity).
  revert Hres.
  destruct (ListenAddr "192.0.2.7:4433" (Some example.tls_h3) (Some 1%positive)
              example.heap0 0 []) as [[[w|e] h']|] eqn:Hlisten;
    intros Hres; try discriminate Hres.
  injection Hres as Hconn.
  assert (reachable (new_listener w)) as Hreach by exact (listenAddr_reachable _ _ _ _ _ _ _ _ _ Hlisten).
  exists w, h'. split; [reflexivity|]. split; [exact Hreach|]. split; [exact Hconn|].
  exact (proj1 (proj2 (intake_never_panics (new_listener w) (example.initial x11) Hreach))).
Defined.

Lemma intake_stops_after_close_witness :
  let l := (Close (new_listener example.world0)).2 in
  let labs := [L_run check_errorChan; L_clock 5] in
  errorChan_closed l = true
  ∧ ∃ l', steps labs l = Some l'
      ∧ packets_taken labs = []
      ∧ length (handoff l') = length (handoff l)
      ∧ ∀ s, run s l' = None.
Proof.
  intros l labs.
  assert (errorChan_closed l = true) as Hch by reflexivity.
  split; [exact Hch|].
  assert (intake <$> steps labs l = Some returned) as Hpc by (vm_compute; reflexivity).
  revert Hpc.
  destruct (steps labs l) as [l'|] eqn:Hsteps; intros Hpc; [|discriminate Hpc].
  injection Hpc as Hpc.
  destruct (intake_stops_after_close labs l l' Hch Hsteps)
    as (_ & Hnone & _ & Hsame & _ & Hend).
  exists l'. split; [reflexivity|]. split; [by apply Hnone|].
  split; [apply Hsame; by left|]. by apply Hend.
Defined.

Lemma packets_handled_in_order_witness :
  let w := example.world0 in
  let labs := [S_handlePacket example_net.short1; S_handlePacket example_net.short2;
               S_step (L_run check_errorChan); S_receive; S_step (L_run handle)] in
  buffer_owners (trace w) = []
  ∧ ∃ s, server_steps labs {| listener := new_listener w; receivedPackets := [] |} = Some s
      ∧ (buffer_owners (trace (world (listener s)))).*1
        ++ in_hand (intake (listener s)) ++ receivedPackets s
        = [example_net.short1; example_net.short2]
      ∧ receivedPackets s = [example_net.short2].
Proof.
  intros w labs.
  assert (buffer_owners (trace w) = []) as Hfresh by reflexivity.
  split; [exact Hfresh|].
  assert (receivedPackets
            <$> server_steps labs {| listener := new_listener w; receivedPackets := [] |}
          = Some [example_net.short2]) as Hch by (vm_compute; reflexivity).
  revert Hch.
  destruct (server_steps labs {| listener := new_listener w; receivedPackets := [] |})
    as [s|] eqn:Hsteps; intros Hch; [|discriminate Hch].
  injection Hch as Hch.
  destruct (packets_handled_in_order w labs s Hfresh Hsteps) as [Horder _].
  exists s. split; [reflexivity|]. split; [exact Horder|exact Hch].
Defined.

(** A listener that [listenAddr] has made, after an Initial has been
    handled and its session has become ready, and the call of [accept]
    that takes the session. *)
Lemma one_session_accepted :
  ∃ l sess l1,
    steps example_net.one_session_ready
      (new_listener (set_createdPacketConn true
                       (set_rand [x01; x02; x03; x04] example.world0))) = Some l
    ∧ reachable l
    ∧ createdPacketConn (server (world l)) = true
    ∧ accept None (case_sessionQueue 0) l = Some (Some sess, None, l1).
Proof.
  assert ((λ l, createdPacketConn (server (world l)))
            <$> steps example_net.one_session_ready
                  (new_listener (set_createdPacketConn true
                                   (set_rand [x01; x02; x03; x04] example.world0)))
          = Some true) as Hconn by (vm_compute; reflexivity).
  assert ((λ '(sess, e, _), (match sess with Some _ => true | None => false end, e))
            <$> (l ← steps example_net.one_session_ready
                       (new_listener (set_createdPacketConn true
                                        (set_rand [x01; x02; x03; x04] example.world0)));
                 accept None (case_sessionQueue 0) l)
          = Some (true, None)) as Hres by (vm_compute; reflexivity).
  revert Hconn Hres.
  destruct (steps example_net.one_session_ready
              (new_listener (set_createdPacketConn true
                               (set_rand [x01; x02; x03; x04] example.world0))))
    as [l|] eqn:Hsteps; intros Hconn Hres; [|discriminate Hres].
  injection Hconn as Hconn.
  cbn [mbind option_bind] in Hres. revert Hres.
  destruct (accept None (case_sessionQueue 0) l) as [[[[sess|] e] l1]|] eqn:Haccept;
    intros Hres; try discriminate Hres.
  injection Hres as ->.
  exists l, sess, l1. split; [reflexivity|].
  split; [exact (reachable_run_listenAddr _ _ _ Hsteps)|]. split; [exact Hconn|exact Haccept].
Defined.

Lemma accept_returns_session_once_witness :
  ∃ l sess l1,
    reachable l
    ∧ accept None (case_sessionQueue 0) l = Some (Some sess, None, l1)
    ∧ steps [] l1 = Some l1
    ∧ handoff l1 !! 0 = Some (sess, accepted)
    ∧ ∀ ctx', accept ctx' (case_sessionQueue 0) l1 = None.
Proof.
  destruct one_session_accepted as (l & sess & l1 & _ & Hreach & _ & Haccept).
  destruct (accept_returns_session_once l None 0 sess None l1 [] l1 Hreach Haccept eq_refl)
    as (Hend & Hnone & _).
  exists l, sess, l1. split; [exact Hreach|]. split; [exact Haccept|].
  split; [reflexivity|]. split; [exact Hend|exact Hnone].
Defined.

Lemma closed_session_not_accepted_witness :
  ∃ l sess l1,
    reachable l
    ∧ handoff l !! 0 = Some (sess, waiting)
    ∧ handleNewSession 0 Done_while_waiting l = Some l1
    ∧ steps [] l1 = Some l1
    ∧ ∀ ctx', accept ctx' (case_sessionQueue 0) l1 = None.
Proof.
  assert ((λ l, snd <$> handoff l !! 0)
            <$> steps (example.iteration (example.initial x11))
                  (new_listener (set_createdPacketConn true
                               (set_rand [x01; x02; x03; x04] example.world0)))
          = Some (Some waiting)) as Hres by (vm_compute; reflexivity).
  revert Hres.
  destruct (steps (example.iteration (example.initial x11))
              (new_listener (set_createdPacketConn true
                               (set_rand [x01; x02; x03; x04] example.world0))))
    as [l|] eqn:Hsteps; intros Hres; [|discriminate Hres].
  injection Hres as Hres. revert Hres.
  destruct (handoff l !! 0) as [[sess pc]|] eqn:Hi; intros Hres; [|discriminate Hres].
  injection Hres as ->.
  assert (reachable l) as Hreach by exact (reachable_run_listenAddr _ _ _ Hsteps).
  assert (∃ l1, handleNewSession 0 Done_while_waiting l = Some l1) as [l1 Hdone].
  { unfold handleNewSession, move. rewrite Hi. simpl. eexists. reflexivity. }
  destruct (closed_session_not_accepted l 0 Done_while_waiting sess waiting l1 [] l1
              Hreach Hi (or_introl eq_refl) Hdone eq_refl) as [Hnone _].
  exists l, sess, l1. split; [exact Hreach|]. split; [exact Hi|].
  split; [exact Hdone|]. split; [reflexivity|exact Hnone].
Defined.


Lemma Close_calls_once_witness :
  let w := example.world0 in
  let labs := [L_Close; L_setCloseError None; L_Close] in
  closing_calls (trace w) = []
  ∧ ∃ l, steps labs (new_listener w) = Some l
      ∧ closed l = true
      ∧ closing_calls (trace (world l)) = [ev_CloseServer]
      ∧ Close l = (None, l).
Proof.
  intros w labs.
  assert (closing_calls (trace w) = []) as Hfresh by reflexivity.
  split; [exact Hfresh|].
  assert ((λ l, (closed l, length (closing_calls (trace (world l)))))
            <$> steps labs (new_listener w) = Some (true, 1)) as Hres
    by (vm_compute; reflexivity).
  revert Hres.
  destruct (steps labs (new_listener w)) as [l|] eqn:Hsteps; intros Hres;
    [|discriminate Hres].
  injection Hres as Hclosed Hlen.
  destruct (Close_calls_once w labs l Hfresh Hsteps) as (Hcalls & Hidem & _).
  exists l. split; [reflexivity|]. split; [exact Hclosed|].
  split; [|by apply Hidem].
  destruct Hcalls as [Hnone | [_ Hcalls]].
  - rewrite Hnone in Hlen. discriminate Hlen.
  - exact Hcalls.
Defined.

Lemma setCloseError_first_witness :
  let l := new_listener example.world0 in
  let e := Some (ErrExternal 1) in
  closed l = false
  ∧ ∃ l2, steps [L_Close; L_clock 3] (setCloseError e l) = Some l2
      ∧ serverError l2 = e
      ∧ closing_calls (trace (world l2)) = []
      ∧ Close l2 = (None, l2)
      ∧ accept None case_errorChan l2 = Some (None, e, l2).
Proof.
  intros l e.
  assert (closed l = false) as Hopen by reflexivity.
  split; [exact Hopen|].
  assert (closed <$> steps [L_Close; L_clock 3] (setCloseError e l) = Some true) as Hres
    by (vm_compute; reflexivity).
  revert Hres.
  destruct (steps [L_Close; L_clock 3] (setCloseError e l)) as [l2|] eqn:Hsteps;
    intros Hres; [|discriminate Hres].
  destruct (setCloseError_first l e [L_Close; L_clock 3] l2 Hopen Hsteps)
    as (_ & _ & Herr & Hcalls & HClose & _ & Haccept).
  exists l2. split; [reflexivity|]. split; [exact Herr|].
  split; [exact Hcalls|]. split; [exact HClose|exact (Haccept None)].
Defined.

Lemma Close_destroys_own_conn_witness :
  ∃ w h',
    ListenAddr "localhost:4433" (Some example.tls_h3) (Some 1%positive) example.heap0 0 []
    = Some (Ok w, h')
    ∧ steps [] (new_listener w) = Some (new_listener w)
    ∧ closed (new_listener w) = false
    ∧ createdPacketConn (server w) = true
    ∧ Close (new_listener w) = (Destroy, (Close (new_listener w)).2)
    ∧ trace (world (Close (new_listener w)).2)
      = trace (world (new_listener w)) ++ [ev_CloseServer; ev_Destroy].
Proof.
  assert ((λ '(res, _), match res with Ok _ => true | Err _ => false end)
            <$> listenAddr "localhost:4433" (Some example.tls_h3) (Some 1%positive) false
                  example.heap0 0 []
          = Some true) as Hres by (vm_compute; reflexivity).
  revert Hres.
  destruct (listenAddr "localhost:4433" (Some example.tls_h3) (Some 1%positive) false
              example.heap0 0 []) as [[[w|e] h']|] eqn:Hlisten;
    intros Hres; try discriminate Hres.
  destruct (Close_destroys_own_conn (Some example.tls_h3) (Some 1%positive) false
              example.heap0 0 [] w h' [] (new_listener w) eq_refl eq_refl) as [Hown _].
  destruct (Hown "localhost:4433" Hlisten) as (Hconn & _ & HClose & Htrace).
  exists w, h'. split; [exact Hlisten|]. split; [reflexivity|]. split; [reflexivity|].
  split; [exact Hconn|]. split; [exact HClose|exact Htrace].
Defined.

Lemma populateServerConfig_twice_witness :
  pointee (Some 1%positive) example.heap0 = Some example.config_accept_all
  ∧ ∃ l1 h1 c1,
      populateServerConfig (Some 1%positive) example.heap0 = Some (l1, h1)
      ∧ h1 !! l1 = Some c1
      ∧ ∃ l2 h2 c2,
          populateServerConfig (Some l1) h1 = Some (l2, h2) ∧ h2 !! l2 = Some c2
          ∧ l2 ≠ l1 ∧ h2 !! l1 = Some c1
          ∧ MaxIncomingStreams c1 = 0%Z
          ∧ MaxIncomingStreams c2 = 100%Z.
Proof.
  assert (pointee (Some 1%positive) example.heap0 = Some example.config_accept_all) as H1
    by reflexivity.
  split; [exact H1|].
  destruct (populateServerConfig_alloc (Some 1%positive) example.heap0
              example.config_accept_all H1) as (l1 & h1 & c1 & Hrun & Hval & _).
  exists l1, h1, c1. split; [exact Hrun|]. split; [exact Hval|].
  destruct (populateServerConfig_twice (Some 1%positive) example.heap0 l1 h1
              example.config_accept_all c1 H1 Hrun Hval)
    as (l2 & h2 & c2 & Hrun2 & Hval2 & Hne & Hkeep & _ & Hneg & _).
  destruct Hneg as [Hfirst Hsecond]; [reflexivity|].
  exists l2, h2, c2. split; [exact Hrun2|]. split; [exact Hval2|].
  split; [exact Hne|]. split; [exact Hkeep|]. split; [exact Hfirst|exact Hsecond].
Defined.

Lemma defaultAcceptToken_window_witness :
  let token := {| IsRetryToken := true; RemoteAddr := "192.0.2.1"; SentTime := 0 |} in
  let clientAddr := UDPAddr "192.0.2.1" 4433 in
  defaultAcceptToken 5%Z clientAddr (Some token) = true
  ∧ defaultAcceptToken 3%Z clientAddr (Some token) = true
  ∧ defaultAcceptToken 5000000001%Z clientAddr (Some token) = false
  ∧ defaultAcceptToken 5%Z (UDPAddr "192.0.2.1" 53) (Some token) = true.
Proof.
  intros token clientAddr.
  assert (defaultAcceptToken 5%Z clientAddr (Some token) = true) as H1 by reflexivity.
  split; [exact H1|].
  destruct (defaultAcceptToken_window 5%Z clientAddr token H1)
    as (_ & Hearlier & Hlater & Hport & _).
  split; [apply Hearlier; lia|].
  split; [apply Hlater; simpl; unfold RetryTokenValidity; lia|].
  exact (proj1 (Hport "192.0.2.1" 4433%Z 53%Z eq_refl)).
Defined.

Lemma sendServerBusy_Length_field_witness :
  let hdr := example.initial_hdr x11 in
  let addr := UDPAddr "192.0.2.1" 4433 in
  let middle := [xaa; xbb] ++ replicate 8 x11 in
  let pn := [x00; x00; x00; x00] in
  let frame := [x1c; x02; x00] in
  (ExtendedHeader_Write
     (spec_ServerBusy_header (wire.Version hdr) (wire.DestConnectionID hdr)
        (wire.SrcConnectionID hdr)
        (4 + ConnectionCloseFrame_Length spec_ServerBusy_frame (wire.Version hdr)
         + Z.of_nat (Overhead (Initial_sealer hdr))))
     (wire.Version hdr) = Ok (xc0 :: middle ++ pn)
   ∧ length pn = 4
   ∧ ConnectionCloseFrame_Write spec_ServerBusy_frame (wire.Version hdr) = Ok frame
   ∧ ConnectionCloseFrame_Length spec_ServerBusy_frame (wire.Version hdr)
     = Z.of_nat (length frame))
  ∧ ∃ packet,
      sendServerBusy (server example.world_busy) addr hdr = (Returned None, [(packet, addr)])
      ∧ length packet = 34
      ∧ Z.of_nat (length (drop 11 packet)) = 23%Z.
Proof.
  intros hdr addr middle pn frame.
  assert (ExtendedHeader_Write
     (spec_ServerBusy_header (wire.Version hdr) (wire.DestConnectionID hdr)
        (wire.SrcConnectionID hdr)
        (4 + ConnectionCloseFrame_Length spec_ServerBusy_frame (wire.Version hdr)
         + Z.of_nat (Overhead (Initial_sealer hdr))))
     (wire.Version hdr) = Ok (xc0 :: middle ++ pn)) as H1 by (by vm_compute).
  assert (length pn = 4) as H2 by reflexivity.
  assert (ConnectionCloseFrame_Write spec_ServerBusy_frame (wire.Version hdr) = Ok frame)
    as H3 by reflexivity.
  assert (ConnectionCloseFrame_Length spec_ServerBusy_frame (wire.Version hdr)
          = Z.of_nat (length frame)) as H4 by reflexivity.
  split; [done|].
  destruct (sendServerBusy_Length_field (server example.world_busy) addr hdr xc0 middle pn
              frame H1 H2 H3 H4) as (packet & Hsend & Hlen & Hfield & _).
  exists packet. split; [exact Hsend|]. split; [exact Hlen|exact Hfield].
Defined.

Lemma Get_rejects_trailing_bytes_witness :
  let nf := {| Nonce := [x0a]; AppData := example.foobar; RTT := 0 |} in
  let data := [x30; x0e; x04; x01; x0a; x04; x06; x66; x6f; x6f; x62; x61; x72;
               x02; x01; x00] in
  let cs := {| nonce := []; other_fields := [x01] |} in
  let stored := with_nonce (spec_stored_nonce (data ++ [xff])) cs in
  let st := {| cache := {[ "localhost" := stored ]}; rttStats := 7%Z;
               app := ([], []); stdout := [] |} in
  (int64 (RTT nf) ∧ der.Marshal nf = Ok data ∧ (Z.of_nat (length data) < 2 ^ 31)%Z
   ∧ tls_Get (ClientSessionCache example.csc) "localhost" (cache st)
     = (Some stored, true, cache st))
  ∧ Get example.csc "localhost" st
    = (None, false,
       {| cache := cache st; rttStats := 7%Z; app := ([], []); stdout := [3%Z] |}).
Proof.
  intros nf data cs stored st.
  assert (int64 (RTT nf)) as H1 by (by vm_compute).
  assert (der.Marshal nf = Ok data) as H2 by reflexivity.
  assert ((Z.of_nat (length data) < 2 ^ 31)%Z) as H3 by (by vm_compute).
  assert (tls_Get (ClientSessionCache example.csc) "localhost" (cache st)
          = (Some stored, true, cache st)) as H4 by (vm_compute; reflexivity).
  split; [done|].
  exact (Get_rejects_trailing_bytes example.csc "localhost" st cs nf data [xff] true
           (cache st) H1 H2 H3 H4).
Defined.

Lemma listen_succeeds_exactly_witness :
  pointee (Some 1%positive) example.heap0 = Some example.config_accept_all
  ∧ ∃ w h', listen 0 (Some example.tls_h3) (Some 1%positive) true example.heap0 9 [x01]
            = Some (Ok w, h')
      ∧ h' !! 1%positive = Some example.config_accept_all
      ∧ acceptEarlySessions (server w) = true
      ∧ rand w = [x01]
      ∧ now w = 9%Z.
Proof.
  assert (pointee (Some 1%positive) example.heap0 = Some example.config_accept_all) as H1
    by reflexivity.
  split; [exact H1|].
  destruct (listen_succeeds_exactly 0 (Some example.tls_h3) (Some 1%positive) true
              example.heap0 9 [x01] example.config_accept_all H1)
    as (res & h' & l1 & h1 & c' & Hlisten & Hpop & Hval & Hold & Hiff & _ & Hok).
  assert (Versions c' = [1%Z]) as Hversions.
  { assert (('(l, h) ← populateServerConfig (Some 1%positive) example.heap0;
             Versions <$> h !! l) = Some [1%Z]) as Hcompute by (vm_compute; reflexivity).
    rewrite Hpop in Hcompute. cbn [mbind option_bind] in Hcompute.
    rewrite Hval in Hcompute. by injection Hcompute. }
  destruct (proj2 Hiff) as [w ->].
  { split; [by eexists|]. split.
    - rewrite Hversions. by repeat constructor.
    - split; [by eexists|]. by eexists _, _. }
  destruct (Hok w eq_refl) as (_ & Hgen & _ & Hearly & _ & Hnow).
  exists w, h'. split; [exact Hlisten|].
  split; [rewrite Hold; [reflexivity|by eexists]|].
  split; [exact Hearly|]. split; [|exact Hnow].
  simpl in Hgen. by injection Hgen.
Defined.

End more_examples.
